(** * Juria blockchain core: wire types, quorum certificates, Merkle tree, storage

    A shallow embedding of the Go sources of the consortium blockchain
    (package [core]: blocks, transactions, their canonical hash and
    validation; package [merkle]: the position-addressed Merkle tree; package
    [storage]: the commit pipeline and state verification), together with the
    properties the specification states about them.

    Conventions.
    - [bytes] is Go's [[]byte]; a nil slice and an empty slice are both [[]]
      (the sources compare slices with [bytes.Equal] only).
    - [uint64] values are [N], [int64] values are [Z]; the range is a
      hypothesis where it matters.
    - A nillable pointer is an [option].
    - A Go call either returns or panics: [go A] is [Ret a] or [Panic]. *)

From Stdlib Require Import ZArith NArith List Bool Lia.
From Stdlib.Strings Require Import Byte String.
From stdpp Require Import base option list gmap.
Import ListNotations.

Local Open Scope N_scope.

(* ================================================================== *)
(** ** Bytes and integers *)

Abbreviation bytes := (list byte).

#[global] Instance byte_eq_decision : EqDecision byte := Byte.byte_eq_dec.

(** [bytes.Equal] *)
Definition bytes_Equal (a b : bytes) : bool := bool_decide (a = b).

(** The low eight bits of a number, as a byte. *)
Definition byte_of_N (n : N) : byte :=
  match Byte.of_N (n mod 256) with
  | Some b => b
  | None => x00
  end.

(** Modelled from the spec: [uint64ToBytes] is defined elsewhere in package
    [core]; the spec fixes it as the big-endian encoding of the integer
    ("using big-endian integer encoding", [be(height)]): eight bytes, most
    significant first. *)
Definition uint64ToBytes (v : N) : bytes :=
  map (fun i => byte_of_N (N.shiftr v (8 * i))) [7; 6; 5; 4; 3; 2; 1; 0].

(** The value a big-endian byte string denotes. *)
Definition be_value (b : bytes) : N :=
  fold_left (fun acc x => 256 * acc + Byte.to_N x) b 0.

(** Go's conversion [uint64(v)] of an [int64]: two's complement. *)
Definition uint64_of_int64 (v : Z) : N := Z.to_N (v mod 2 ^ 64).

(** Go's conversion [int64(v)] of a [uint64]. *)
Definition int64_of_uint64 (v : N) : Z :=
  if v <? 2 ^ 63 then Z.of_N v else (Z.of_N v - 2 ^ 64)%Z.

Lemma to_N_byte_of_N n : Byte.to_N (byte_of_N n) = n mod 256.
Proof.
  unfold byte_of_N. destruct (Byte.of_N (n mod 256)) eqn:E.
  - by apply Byte.to_of_N.
  - apply Byte.of_N_None_iff in E.
    pose proof (N.mod_lt n 256). lia.
Qed.

Lemma byte_of_N_to_N b : byte_of_N (Byte.to_N b) = b.
Proof.
  unfold byte_of_N. pose proof (Byte.to_N_bounded b).
  rewrite N.mod_small by lia. by rewrite Byte.of_to_N.
Qed.

(** [uint64ToBytes] is the big-endian encoding: read back most significant
    byte first, its eight bytes denote the integer (modulo [2^64]). *)
Lemma uint64ToBytes_value v : be_value (uint64ToBytes v) = v mod 2 ^ 64.
Proof.
  unfold uint64ToBytes, be_value. cbn [map fold_left].
  rewrite !to_N_byte_of_N, !N.shiftr_div_pow2.
  change (2 ^ (8 * 0)) with 1. rewrite N.div_1_r.
  change (2 ^ (8 * 1)) with 256.
  change (2 ^ (8 * 2)) with (256 * 256).
  change (2 ^ (8 * 3)) with (256 * (256 * 256)).
  change (2 ^ (8 * 4)) with (256 * (256 * (256 * 256))).
  change (2 ^ (8 * 5)) with (256 * (256 * (256 * (256 * 256)))).
  change (2 ^ (8 * 6)) with (256 * (256 * (256 * (256 * (256 * 256))))).
  change (2 ^ (8 * 7)) with (256 * (256 * (256 * (256 * (256 * (256 * 256)))))).
  rewrite <- !N.Div0.div_div.
  repeat match goal with |- context [?x mod 256] =>
    let r := fresh "r" in
    pose proof (N.div_mod x 256 ltac:(lia));
    pose proof (N.mod_lt x 256 ltac:(lia));
    set (r := x mod 256) in *; clearbody r end.
  apply (N.mod_unique _ _ (v / 256 / 256 / 256 / 256 / 256 / 256 / 256 / 256));
    [|change (2 ^ 64) with 18446744073709551616]; lia.
Qed.

Lemma uint64ToBytes_length v : length (uint64ToBytes v) = 8%nat.
Proof. reflexivity. Qed.

Arguments uint64ToBytes : simpl never.

(* ================================================================== *)
(** ** Go outcomes *)

Inductive go (A : Type) : Type :=
| Ret (a : A)
| Panic.
Arguments Ret {A} a.
Arguments Panic {A}.

#[global] Instance go_ret : MRet go := @Ret.

#[global] Instance go_bind : MBind go := fun A B (k : A -> go B) (m : go A) =>
  match m with
  | Ret a => k a
  | Panic => Panic
  end.

(** Reading through a pointer: a nil pointer dereference panics. *)
Definition deref {A} (p : option A) : go A :=
  match p with
  | Some a => Ret a
  | None => Panic
  end.

(* ================================================================== *)
(** ** Package [core_pb]: the wire messages

    The generated message structs.  A message-typed field is a pointer and
    may be nil; so may an element of a repeated message field. *)

Module core_pb.

Record Signature := mkSignature {
  Signature_PubKey : bytes;
  Signature_Value : bytes
}.

Record QuorumCert := mkQuorumCert {
  QuorumCert_BlockHash : bytes;
  QuorumCert_Signatures : list (option Signature)
}.

Record Vote := mkVote {
  Vote_BlockHash : bytes;
  Vote_Signature : option Signature
}.

Record Block := mkBlock {
  Block_Height : N;
  Block_Hash : bytes;
  Block_ParentHash : bytes;
  Block_Proposer : bytes;
  Block_Signature : bytes;
  Block_QuorumCert : option QuorumCert;
  Block_ExecHeight : N;
  Block_StateRoot : bytes;
  Block_Transactions : list bytes
}.

Record Transaction := mkTransaction {
  Transaction_Nonce : Z;
  Transaction_Sender : bytes;
  Transaction_CodeAddr : bytes;
  Transaction_Input : bytes;
  Transaction_Hash : bytes;
  Transaction_Signature : bytes
}.

Record TxCommit := mkTxCommit {
  TxCommit_Hash : bytes;
  TxCommit_BlockHash : bytes;
  TxCommit_BlockHeight : N;
  TxCommit_Elapsed : Z;
  TxCommit_Error : bytes
}.

Record TxList := mkTxList {
  TxList_List : list (option Transaction)
}.

End core_pb.
Import core_pb.

(* ================================================================== *)
(** ** A running hash ([hash.Hash])

    [sha3.New256()] returns a hasher; [Write] absorbs bytes, [Sum(b)] appends
    the digest of everything absorbed so far to [b].  The state of a hasher
    is the byte string absorbed so far; the digest function itself is the
    library's and is a parameter [digest] of the development. *)

Record Hasher := mkHasher { absorbed : bytes }.

Definition Hasher_New : Hasher := mkHasher [].

Definition Hasher_Write (h : Hasher) (p : bytes) : Hasher :=
  mkHasher (absorbed h ++ p).

Definition Hasher_Sum (digest : bytes -> bytes) (h : Hasher) (b : bytes) : bytes :=
  b ++ digest (absorbed h).

(** [binary.Write(h, binary.BigEndian, v)] for an [int64]: the eight bytes of
    [uint64(v)], most significant first. *)
Definition binary_Write_BigEndian_int64 (h : Hasher) (v : Z) : Hasher :=
  Hasher_Write h (uint64ToBytes (uint64_of_int64 v)).

Lemma Hasher_Write_fold (l : list bytes) (h : Hasher) :
  absorbed (fold_left Hasher_Write l h) = absorbed h ++ concat l.
Proof.
  revert h. induction l as [|x l IH]; intros h; simpl.
  - by rewrite app_nil_r.
  - rewrite IH. simpl. by rewrite <- app_assoc.
Qed.

(* ================================================================== *)
(** ** Package [core]: keys, signatures, blocks and transactions *)

(** Errors of package [core].  The first six are the sentinel errors
    [block.go] returns by name; the others are the error kinds the spec lists
    for keys, signatures and quorum certificates, whose sources are not part
    of the development. *)
Inductive error : Type :=
| ErrNilBlock
| ErrInvalidBlockHash
| ErrNilTx
| ErrInvalidTxHash
| ErrInvalidSig
| ErrInvalidValidator
| ErrNilSig
| ErrInvalidKeySize
| ErrNilQC
| ErrQCValidationFailed
| ErrInsufficientSignatures
| ErrDuplicateSigner.

#[global] Instance error_eq_decision : EqDecision error.
Proof. solve_decision. Defined.

Record PublicKey := mkPublicKey { key : bytes }.

Record Signature := mkSig {
  Signature_data : core_pb.Signature;
  Signature_pubKey : PublicKey
}.

#[global] Instance PublicKey_eq_decision : EqDecision PublicKey.
Proof. solve_decision. Defined.

(** Modelled from the spec: the key size of the signature scheme
    ("ed25519-class" keypairs): an ed25519 public key has 32 bytes. *)
Definition PublicKeySize : nat := 32.

(** Modelled from the spec: [NewPublicKey] is defined elsewhere in package
    [core].  It wraps well-formed public-key bytes and fails on others; a Go
    constructor that fails returns a nil pointer with its error. *)
Definition NewPublicKey (b : bytes) : option PublicKey * option error :=
  if bool_decide (length b = PublicKeySize)
  then (Some (mkPublicKey b), None)
  else (None, Some ErrInvalidKeySize).

(** Modelled from the spec: [newSignature] is defined elsewhere in package
    [core].  A signature is [(pubkey_bytes, sig_bytes)]; building one fails on
    a nil message and on malformed public-key bytes, and then the returned
    pointer is nil. *)
Definition newSignature (data : option core_pb.Signature)
  : option Signature * option error :=
  match data with
  | None => (None, Some ErrNilSig)
  | Some d =>
      match NewPublicKey (Signature_PubKey d) with
      | (Some pk, _) => (Some (mkSig d pk), None)
      | (None, e) => (None, e)
      end
  end.

(** [sig.PublicKey()] reads a field through the receiver. *)
Definition Signature_PublicKey (sig : option Signature) : go PublicKey :=
  s ← deref sig; Ret (Signature_pubKey s).

(** The validator store interface ([ValidatorStore]); the tests mock it, so
    its two methods are independent of each other. *)
Record ValidatorStore := mkValidatorStore {
  ValidatorCount : Z;
  IsValidator : PublicKey -> bool
}.

Record Transaction := mkTx {
  Transaction_data : option core_pb.Transaction;
  Transaction_sender : option PublicKey
}.

Record TxCommit := mkTxc {
  TxCommit_data : option core_pb.TxCommit
}.

Abbreviation TxList := (list (option Transaction)).

(** The quorum certificate wrapper: the message it carries. *)
Record QuorumCert := mkQC {
  QuorumCert_data : option core_pb.QuorumCert
}.

Record Vote := mkVoteW {
  Vote_data : option core_pb.Vote
}.

Record Block := mkBlk {
  Block_data : option core_pb.Block;
  Block_proposer : option PublicKey;
  Block_quorumCert : option QuorumCert
}.

(** Modelled from the spec: the quorum threshold [Q = N − f] with
    [f = ⌊(N−1)/3⌋], for a validator set of size [N]. *)
Definition MajorityCount (n : Z) : Z := (n - (n - 1) / 3)%Z.

(** Modelled from the spec: the signatures of a certificate, each built with
    [newSignature]; a nil or malformed entry makes the whole list fail. *)
Fixpoint newSigList (l : list (option core_pb.Signature))
  : option (list Signature) :=
  match l with
  | [] => Some []
  | d :: rest =>
      match newSignature d, newSigList rest with
      | (Some s, _), Some ss => Some (s :: ss)
      | _, _ => None
      end
  end.

(** A signer key occurs twice in the list. *)
Fixpoint hasDuplicate (sigs : list Signature) : bool :=
  match sigs with
  | [] => false
  | s :: rest =>
      existsb (fun s' => bool_decide (Signature_pubKey s' = Signature_pubKey s)) rest
      || hasDuplicate rest
  end.

Definition hasInvalidValidator (vs : ValidatorStore) (sigs : list Signature) : bool :=
  existsb (fun s => negb (IsValidator vs (Signature_pubKey s))) sigs.

Section Core.

(** The library primitives: the sha3-256 digest ([golang.org/x/crypto/sha3])
    and ed25519 signature verification, [ed25519_Verify pub msg sig]. *)
Variable sha3_256 : bytes -> bytes.
Variable ed25519_Verify : bytes -> bytes -> bytes -> bool.

(** Modelled from the spec: [sig.Verify(msg)] checks the signature value under
    the signature's own public key; it reads through the receiver. *)
Definition Signature_Verify (sig : option Signature) (msg : bytes) : go bool :=
  s ← deref sig;
  Ret (ed25519_Verify (key (Signature_pubKey s)) msg
         (Signature_Value (Signature_data s))).

Definition hasInvalidSig (msg : bytes) (sigs : list Signature) : bool :=
  existsb (fun s => negb (ed25519_Verify (key (Signature_pubKey s)) msg
                            (Signature_Value (Signature_data s)))) sigs.

(** Modelled from the spec: [QuorumCert.Validate], whose source is not part of
    the development.  A certificate [{block_hash, signatures[]}] is valid iff
    the count is at least [Q], the signer keys are pairwise distinct, every
    signer is in the validator set and every signature verifies over
    [block_hash]; a nil message, or a nil or malformed signature, fails. The
    method reads through its receiver. *)
Definition QuorumCert_Validate (qc : option QuorumCert) (vs : ValidatorStore)
  : go (option error) :=
  q ← deref qc;
  match QuorumCert_data q with
  | None => Ret (Some ErrNilQC)
  | Some d =>
      match newSigList (QuorumCert_Signatures d) with
      | None => Ret (Some ErrQCValidationFailed)
      | Some sigs =>
          if (Z.of_nat (length sigs) <? MajorityCount (ValidatorCount vs))%Z
          then Ret (Some ErrInsufficientSignatures)
          else if hasDuplicate sigs then Ret (Some ErrDuplicateSigner)
          else if hasInvalidValidator vs sigs then Ret (Some ErrInvalidValidator)
          else if hasInvalidSig (QuorumCert_BlockHash d) sigs
               then Ret (Some ErrInvalidSig)
          else Ret None
      end
  end.

(** Modelled from the spec: [QuorumCert.Build] collects the signatures of the
    votes, in the order given, over the block hash the votes carry. *)
Definition QuorumCert_Build (votes : list core_pb.Vote) : QuorumCert :=
  mkQC (Some (core_pb.mkQuorumCert
                (match votes with
                 | v :: _ => Vote_BlockHash v
                 | [] => []
                 end)
                (map Vote_Signature votes))).

(** *** [block.go] *)

(** [Block.Hash()] and its siblings read [blk.data]. *)
Definition Block_Hash_of (blk : Block) : go bytes :=
  d ← deref (Block_data blk); Ret (Block_Hash d).

(** [Block.Sum]: the sha3 sum of the block. *)
Definition Block_Sum (blk : Block) : go bytes :=
  d ← deref (Block_data blk);
  let h := Hasher_New in
  let h := Hasher_Write h (uint64ToBytes (Block_Height d)) in
  let h := Hasher_Write h (Block_ParentHash d) in
  let h := Hasher_Write h (Block_Proposer d) in
  let h := match Block_QuorumCert d with
           | Some qc => Hasher_Write h (QuorumCert_BlockHash qc)
           | None => h
           end in
  let h := Hasher_Write h (uint64ToBytes (Block_ExecHeight d)) in
  let h := Hasher_Write h (Block_StateRoot d) in
  let h := fold_left Hasher_Write (Block_Transactions d) h in
  Ret (Hasher_Sum sha3_256 h []).

(** [Block.Validate] *)
Definition Block_Validate (blk : Block) (vs : ValidatorStore) : go (option error) :=
  match Block_data blk with
  | None => Ret (Some ErrNilBlock)
  | Some d =>
      err ← QuorumCert_Validate (Block_quorumCert blk) vs;
      match err with
      | Some e => Ret (Some e)
      | None =>
          sum ← Block_Sum blk;
          hash ← Block_Hash_of blk;
          if negb (bytes_Equal sum hash) then Ret (Some ErrInvalidBlockHash)
          else
            let '(sig, err) :=
              newSignature (Some (core_pb.mkSignature (Block_Proposer d)
                                                      (Block_Signature d))) in
            pk ← Signature_PublicKey sig;
            if negb (IsValidator vs pk) then Ret (Some ErrInvalidValidator)
            else
              match err with
              | Some e => Ret (Some e)
              | None =>
                  ok ← Signature_Verify sig (Block_Hash d);
                  if negb ok then Ret (Some ErrInvalidSig) else Ret None
              end
      end
  end.

(** [Transaction.Sum]: the sha3 sum of the transaction. *)
Definition Transaction_Sum (tx : Transaction) : go bytes :=
  d ← deref (Transaction_data tx);
  let h := Hasher_New in
  let h := binary_Write_BigEndian_int64 h (Transaction_Nonce d) in
  let h := Hasher_Write h (Transaction_Sender d) in
  let h := Hasher_Write h (Transaction_CodeAddr d) in
  let h := Hasher_Write h (Transaction_Input d) in
  Ret (Hasher_Sum sha3_256 h []).

Definition Transaction_Hash_of (tx : Transaction) : go bytes :=
  d ← deref (Transaction_data tx); Ret (Transaction_Hash d).

(** [Transaction.Validate] *)
Definition Transaction_Validate (tx : Transaction) : go (option error) :=
  match Transaction_data tx with
  | None => Ret (Some ErrNilTx)
  | Some d =>
      sum ← Transaction_Sum tx;
      hash ← Transaction_Hash_of tx;
      if negb (bytes_Equal sum hash) then Ret (Some ErrInvalidTxHash)
      else
        let '(sig, err) :=
          newSignature (Some (core_pb.mkSignature (Transaction_Sender d)
                                                  (Transaction_Signature d))) in
        match err with
        | Some e => Ret (Some e)
        | None =>
            ok ← Signature_Verify sig (Transaction_Hash d);
            if negb ok then Ret (Some ErrInvalidSig) else Ret None
        end
  end.

(** *** The canonical hash *)

Lemma Block_Sum_data (blk : Block) (d : core_pb.Block) :
  Block_data blk = Some d ->
  Block_Sum blk =
  Ret (sha3_256
         (uint64ToBytes (Block_Height d) ++ Block_ParentHash d ++
          Block_Proposer d ++
          from_option QuorumCert_BlockHash [] (Block_QuorumCert d) ++
          uint64ToBytes (Block_ExecHeight d) ++ Block_StateRoot d ++
          concat (Block_Transactions d))).
Proof.
  intros Hd. unfold Block_Sum. rewrite Hd. cbn [deref mbind go_bind].
  unfold Hasher_Sum. rewrite Hasher_Write_fold. f_equal. simpl. f_equal.
  destruct (Block_QuorumCert d) as [qc|]; simpl;
    by rewrite <- ?app_assoc.
Qed.

Lemma Transaction_Sum_data (tx : Transaction) (d : core_pb.Transaction) :
  Transaction_data tx = Some d ->
  Transaction_Sum tx =
  Ret (sha3_256
         (uint64ToBytes (uint64_of_int64 (Transaction_Nonce d)) ++
          Transaction_Sender d ++ Transaction_CodeAddr d ++
          Transaction_Input d)).
Proof.
  intros Hd. unfold Transaction_Sum. rewrite Hd. cbn [deref mbind go_bind].
  unfold Hasher_Sum, binary_Write_BigEndian_int64. simpl.
  by rewrite <- ?app_assoc.
Qed.

(** C1. [Block.Sum] is the sha3-256 digest of
    [be(height) ∥ parent_hash ∥ proposer ∥ qc.block_hash ∥ be(exec_height) ∥
    state_root ∥ tx hashes in order] (a nil certificate contributes no bytes),
    and [Transaction.Sum] is the digest of
    [be(nonce) ∥ sender ∥ code_addr ∥ input]; [be] is the eight-byte
    big-endian encoding; the stored hash, the signature, the signatures of the
    certificate and the wrapper fields do not enter either sum. *)
Theorem Sum_is_digest_of_canonical_fields :
  (forall (d : core_pb.Block) p q,
     Block_Sum (mkBlk (Some d) p q) =
     Ret (sha3_256
            (uint64ToBytes (Block_Height d) ++ Block_ParentHash d ++
             Block_Proposer d ++
             from_option QuorumCert_BlockHash [] (Block_QuorumCert d) ++
             uint64ToBytes (Block_ExecHeight d) ++ Block_StateRoot d ++
             concat (Block_Transactions d))))
  /\ (forall (d : core_pb.Transaction) s,
        Transaction_Sum (mkTx (Some d) s) =
        Ret (sha3_256
               (uint64ToBytes (uint64_of_int64 (Transaction_Nonce d)) ++
                Transaction_Sender d ++ Transaction_CodeAddr d ++
                Transaction_Input d)))
  /\ (forall v, length (uint64ToBytes v) = 8%nat
                /\ be_value (uint64ToBytes v) = v mod 2 ^ 64)
  /\ (forall height hash hash' parent proposer sig sig' qchash sigs sigs'
             exec root txs p p' q q',
        Block_Sum (mkBlk (Some (core_pb.mkBlock height hash parent proposer sig
                     (Some (core_pb.mkQuorumCert qchash sigs)) exec root txs))
                     p q) =
        Block_Sum (mkBlk (Some (core_pb.mkBlock height hash' parent proposer sig'
                     (Some (core_pb.mkQuorumCert qchash sigs')) exec root txs))
                     p' q'))
  /\ (forall nonce sender addr input hash hash' sig sig' s s',
        Transaction_Sum (mkTx (Some (core_pb.mkTransaction nonce sender addr
                                       input hash sig)) s) =
        Transaction_Sum (mkTx (Some (core_pb.mkTransaction nonce sender addr
                                       input hash' sig')) s')).
Proof.
  split; [|split; [|split; [|split]]].
  - intros d p q. by apply Block_Sum_data.
  - intros d s. by apply Transaction_Sum_data.
  - intros v. split; [apply uint64ToBytes_length | apply uint64ToBytes_value].
  - intros. by rewrite !(Block_Sum_data (mkBlk (Some _) _ _) _ eq_refl).
  - intros. by rewrite !(Transaction_Sum_data (mkTx (Some _) _) _ eq_refl).
Qed.

(** C10. [Block.Sum] is defined when the embedded certificate is nil: the
    certificate's block hash is skipped, so the block hashes like the block
    that differs from it only in carrying a certificate with an empty block
    hash. *)
Theorem Sum_nil_quorum_cert :
  forall height hash parent proposer sig exec root txs p q sigs,
    Block_Sum (mkBlk (Some (core_pb.mkBlock height hash parent proposer sig
                              None exec root txs)) p q) =
    Ret (sha3_256 (uint64ToBytes height ++ parent ++ proposer ++
                   uint64ToBytes exec ++ root ++ concat txs))
    /\ Block_Sum (mkBlk (Some (core_pb.mkBlock height hash parent proposer sig
                                 None exec root txs)) p q) =
       Block_Sum (mkBlk (Some (core_pb.mkBlock height hash parent proposer sig
                                 (Some (core_pb.mkQuorumCert [] sigs))
                                 exec root txs)) p q).
Proof.
  intros. rewrite !(Block_Sum_data (mkBlk (Some _) _ _) _ eq_refl). simpl. done.
Qed.

(** *** Quorum certificates *)

(** The signature [newSignature] builds from a well-formed message. *)
Definition sig_of (d : core_pb.Signature) : Signature :=
  mkSig d (mkPublicKey (Signature_PubKey d)).

Lemma newSignature_Some (d : option core_pb.Signature) (s : Signature) e :
  newSignature d = (Some s, e) <->
  exists m, d = Some m /\ length (Signature_PubKey m) = PublicKeySize
            /\ s = sig_of m /\ e = None.
Proof.
  unfold newSignature, NewPublicKey. destruct d as [m|].
  - case_bool_decide as Hlen; split.
    + intros [= <- <-]. by exists m.
    + intros (m' & [= <-] & _ & -> & ->). done.
    + intros [=].
    + intros (m' & [= <-] & Hl & _). done.
  - split; [intros [=] | intros (m & [=] & _)].
Qed.

Lemma newSigList_Some (l : list (option core_pb.Signature)) (sigs : list Signature) :
  newSigList l = Some sigs <->
  exists ms, l = map Some ms
             /\ Forall (fun m => length (Signature_PubKey m) = PublicKeySize) ms
             /\ sigs = map sig_of ms.
Proof.
  revert sigs. induction l as [|d l IH]; intros sigs; simpl.
  - split.
    + intros [= <-]. by exists [].
    + intros (ms & Hl & _ & ->). by destruct ms.
  - destruct (newSignature d) as [[s|] e] eqn:Hs.
    + apply newSignature_Some in Hs as (m & -> & Hlen & -> & ->).
      destruct (newSigList l) as [ss|] eqn:Hl.
      * destruct (proj1 (IH ss) eq_refl) as (ms & -> & Hwf & ->).
        split.
        -- intros [= <-]. exists (m :: ms). split; [done|]. split; [by constructor|done].
        -- intros (ms' & Hm & _ & ->). destruct ms' as [|m' ms']; [done|].
           simpl in Hm. injection Hm as <- Hm.
           apply (inj (map Some)) in Hm as <-. done.
      * split; [intros [=]|].
        intros (ms' & Hm & Hwf & ->). destruct ms' as [|m' ms']; [done|].
        simpl in Hm. injection Hm as <- ->.
        assert (@None (list Signature) = Some (map sig_of ms')) as Hc; [|done].
        apply IH. exists ms'. by inversion Hwf.
    + split; [intros [=]|].
      intros (ms' & Hm & Hwf & ->). destruct ms' as [|m' ms']; [done|].
      simpl in Hm. injection Hm as -> ->. inversion Hwf as [|? ? Hlen _]; subst.
      assert (newSignature (Some m') = (Some (sig_of m'), None)) as Hc.
      { apply newSignature_Some. by exists m'. }
      congruence.
Qed.

Lemma hasDuplicate_false (sigs : list Signature) :
  hasDuplicate sigs = false <-> NoDup (map Signature_pubKey sigs).
Proof.
  induction sigs as [|s sigs IH]; simpl.
  - split; [constructor | done].
  - rewrite orb_false_iff, IH, NoDup_cons. apply and_iff_compat_r.
    rewrite <- not_true_iff_false, existsb_exists. split.
    + intros Hn Hin. apply list_elem_of_In, in_map_iff in Hin as (s' & Heq & Hin).
      apply Hn. exists s'. split; [done|]. by apply bool_decide_eq_true.
    + intros Hn (s' & Hin & Heq). apply bool_decide_eq_true in Heq.
      apply Hn, list_elem_of_In, in_map_iff. by exists s'.
Qed.

Lemma existsb_negb_false {A} (f : A -> bool) (l : list A) :
  existsb (fun x => negb (f x)) l = false <-> Forall (fun x => f x = true) l.
Proof.
  induction l as [|x l IH]; simpl.
  - split; [constructor | done].
  - rewrite orb_false_iff, IH, negb_false_iff. split.
    + intros [? ?]. by constructor.
    + by inversion 1.
Qed.

(** C2. For a validator set of size [N] the threshold is
    [Q = N − ⌊(N−1)/3⌋] ([3] when [N = 4]).  [QuorumCert.Validate] returns nil
    exactly on a certificate whose signatures are all present and well formed,
    number at least [Q], have pairwise distinct signer keys, all signed by
    validators and all verifying over the block hash; on a certificate with
    fewer than [Q] signatures, a duplicate signer key, a signer outside the
    validator set, a nil signature or a malformed signature it returns an
    error. *)
Theorem QuorumCert_Validate_quorum :
  forall (vs : ValidatorStore) (d : core_pb.QuorumCert),
    let Q := MajorityCount (ValidatorCount vs) in
    let raw := QuorumCert_Signatures d in
    MajorityCount 4 = 3%Z
    /\ (QuorumCert_Validate (Some (mkQC (Some d))) vs = Ret None <->
        exists ms : list core_pb.Signature,
          raw = map Some ms
          /\ Forall (fun m => length (Signature_PubKey m) = PublicKeySize) ms
          /\ (Q <= Z.of_nat (length ms))%Z
          /\ NoDup (map Signature_PubKey ms)
          /\ Forall (fun m => IsValidator vs (mkPublicKey (Signature_PubKey m))
                              = true) ms
          /\ Forall (fun m => ed25519_Verify (Signature_PubKey m)
                                (QuorumCert_BlockHash d) (Signature_Value m)
                              = true) ms)
    /\ (exists r, QuorumCert_Validate (Some (mkQC (Some d))) vs = Ret r)
    /\ ((Z.of_nat (length raw) < Q)%Z
        \/ None ∈ raw
        \/ (exists m, Some m ∈ raw
                      /\ length (Signature_PubKey m) <> PublicKeySize)
        \/ (exists i j m m', i <> j /\ raw !! i = Some (Some m)
                             /\ raw !! j = Some (Some m')
                             /\ Signature_PubKey m = Signature_PubKey m')
        \/ (exists m, Some m ∈ raw
                      /\ IsValidator vs (mkPublicKey (Signature_PubKey m)) = false)
        \/ (exists m, Some m ∈ raw
                      /\ ed25519_Verify (Signature_PubKey m)
                           (QuorumCert_BlockHash d) (Signature_Value m) = false)
        -> exists e, QuorumCert_Validate (Some (mkQC (Some d))) vs = Ret (Some e)).
Proof.
  intros vs d Q raw.
  assert (QuorumCert_Validate (Some (mkQC (Some d))) vs = Ret None <->
          exists ms : list core_pb.Signature,
            raw = map Some ms
            /\ Forall (fun m => length (Signature_PubKey m) = PublicKeySize) ms
            /\ (Q <= Z.of_nat (length ms))%Z
            /\ NoDup (map Signature_PubKey ms)
            /\ Forall (fun m => IsValidator vs (mkPublicKey (Signature_PubKey m))
                                = true) ms
            /\ Forall (fun m => ed25519_Verify (Signature_PubKey m)
                                  (QuorumCert_BlockHash d) (Signature_Value m)
                                = true) ms) as Hiff.
  { unfold QuorumCert_Validate. cbn [deref mbind go_bind QuorumCert_data].
    fold raw. fold Q.
    destruct (newSigList raw) as [sigs|] eqn:Hsigs.
    - apply newSigList_Some in Hsigs as (ms & Hraw & Hwf & ->).
      assert (forall ms', raw = map Some ms' -> ms' = ms) as Huniq.
      { intros ms' Hr. rewrite Hraw in Hr. by apply (inj (map Some)) in Hr. }
      rewrite length_map.
      assert (NoDup (map Signature_pubKey (map sig_of ms)) <->
              NoDup (map Signature_PubKey ms)) as Hnd.
      { rewrite <- list_fmap_compose.
        change (Signature_pubKey ∘ sig_of)
          with (mkPublicKey ∘ Signature_PubKey).
        rewrite list_fmap_compose. split.
        - apply NoDup_fmap_1.
        - apply NoDup_fmap_2. by intros ?? [=]. }
      destruct (Z.ltb_spec (Z.of_nat (length ms)) Q) as [Hlt|Hge].
      { split; [done|]. intros (ms' & Hr & _ & Hq & _).
        apply Huniq in Hr as ->. lia. }
      destruct (hasDuplicate (map sig_of ms)) eqn:Hdup.
      { split; [done|]. intros (ms' & Hr & _ & _ & Hn & _).
        apply Huniq in Hr as ->. apply Hnd, hasDuplicate_false in Hn.
        congruence. }
      apply hasDuplicate_false, Hnd in Hdup.
      unfold hasInvalidValidator, hasInvalidSig.
      destruct (existsb _ (map sig_of ms)) eqn:Hval.
      { split; [done|]. intros (ms' & Hr & _ & _ & _ & Hv & _).
        apply Huniq in Hr as ->.
        assert (existsb (fun s => negb (IsValidator vs (Signature_pubKey s)))
                  (map sig_of ms) = false) as Hc; [|congruence].
        apply existsb_negb_false, Forall_fmap. done. }
      apply existsb_negb_false, Forall_fmap in Hval.
      destruct (existsb _ (map sig_of ms)) eqn:Hver.
      { split; [done|]. intros (ms' & Hr & _ & _ & _ & _ & Hv).
        apply Huniq in Hr as ->.
        assert (existsb (fun s => negb (ed25519_Verify (key (Signature_pubKey s))
                  (QuorumCert_BlockHash d) (Signature_Value (Signature_data s))))
                  (map sig_of ms) = false) as Hc; [|congruence].
        apply existsb_negb_false, Forall_fmap. done. }
      apply existsb_negb_false, Forall_fmap in Hver.
      split; [intros _|done]. exists ms. done.
    - split; [done|]. intros (ms & Hr & Hwf & _).
      assert (newSigList raw = Some (map sig_of ms)) as Hc; [|congruence].
      apply newSigList_Some. by exists ms. }
  assert (exists r, QuorumCert_Validate (Some (mkQC (Some d))) vs = Ret r) as Hret.
  { unfold QuorumCert_Validate. cbn [deref mbind go_bind QuorumCert_data].
    repeat case_match; eauto. }
  split; [done|]. split; [exact Hiff|]. split; [exact Hret|].
  intros Hbad. destruct Hret as [[e|] Hr]; [by exists e|]. exfalso.
  apply Hiff in Hr as (ms & Hraw & Hwf & Hq & Hnd & Hval & Hver).
  destruct Hbad as [Hlt|[Hnil|[(m & Hin & Hlen)|[(i & j & m & m' & Hij & Hi & Hj & Heq)
                 |[(m & Hin & Hv)|(m & Hin & Hv)]]]]].
  - rewrite Hraw, length_map in Hlt. lia.
  - rewrite Hraw in Hnil. apply list_elem_of_fmap in Hnil as (? & [=] & _).
  - rewrite Hraw in Hin. apply list_elem_of_fmap in Hin as (? & [= <-] & Hin).
    rewrite Forall_forall in Hwf. by apply Hwf in Hin.
  - rewrite Hraw in Hi, Hj. rewrite list_lookup_fmap in Hi, Hj.
    destruct (ms !! i) as [mi|] eqn:Hmi; [|done].
    destruct (ms !! j) as [mj|] eqn:Hmj; [|done].
    simpl in Hi, Hj. injection Hi as ->. injection Hj as ->.
    apply Hij. eapply NoDup_lookup; [exact Hnd| |];
      rewrite list_lookup_fmap; [rewrite Hmi|rewrite Hmj]; simpl; [done|].
    by rewrite Heq.
  - rewrite Hraw in Hin. apply list_elem_of_fmap in Hin as (? & [= <-] & Hin).
    rewrite Forall_forall in Hval. apply Hval in Hin. congruence.
  - rewrite Hraw in Hin. apply list_elem_of_fmap in Hin as (? & [= <-] & Hin).
    rewrite Forall_forall in Hver. apply Hver in Hin. congruence.
Qed.

(** *** Validation *)

(** The error of the first failing check in a list of check results. *)
Fixpoint first_error (checks : list (option error)) : option error :=
  match checks with
  | [] => None
  | Some e :: _ => Some e
  | None :: rest => first_error rest
  end.

(** A boolean check and the error its failure reports. *)
Definition check (ok : bool) (e : error) : option error :=
  if ok then None else Some e.

(** The checks of a block in the order the spec lists them: non-nil data,
    then the hash, then the signature over the hash, then the embedded
    certificate and the proposer's membership. *)
Definition Block_Validate_listed (blk : Block) (vs : ValidatorStore)
  : go (option error) :=
  match Block_data blk with
  | None => Ret (Some ErrNilBlock)
  | Some d =>
      sum ← Block_Sum blk;
      if negb (bytes_Equal sum (Block_Hash d)) then Ret (Some ErrInvalidBlockHash)
      else
        match newSignature (Some (core_pb.mkSignature (Block_Proposer d)
                                                      (Block_Signature d))) with
        | (Some sig, None) =>
            ok ← Signature_Verify (Some sig) (Block_Hash d);
            if negb ok then Ret (Some ErrInvalidSig)
            else
              err ← QuorumCert_Validate (Block_quorumCert blk) vs;
              match err with
              | Some e => Ret (Some e)
              | None =>
                  if negb (IsValidator vs (Signature_pubKey sig))
                  then Ret (Some ErrInvalidValidator)
                  else Ret None
              end
        | _ => Ret (Some ErrInvalidSig)
        end
  end.

Lemma first_error_None (checks : list (option error)) :
  first_error checks = None <-> Forall (fun c => c = None) checks.
Proof.
  induction checks as [|[e|] checks IH]; simpl.
  - split; [constructor|done].
  - split; [done|]. by inversion 1.
  - rewrite IH. split; [by constructor|by inversion 1].
Qed.

Lemma check_None ok e : check ok e = None <-> ok = true.
Proof. by destruct ok. Qed.

Lemma QuorumCert_Validate_returns (q : QuorumCert) (vs : ValidatorStore) :
  exists r, QuorumCert_Validate (Some q) vs = Ret r.
Proof.
  unfold QuorumCert_Validate. cbn [deref mbind go_bind].
  repeat case_match; eauto.
Qed.

Lemma newSignature_wellformed (pub val : bytes) :
  length pub = PublicKeySize ->
  newSignature (Some (core_pb.mkSignature pub val)) =
  (Some (sig_of (core_pb.mkSignature pub val)), None).
Proof.
  intros Hlen. apply newSignature_Some. by eexists.
Qed.

Lemma newSignature_malformed (pub val : bytes) :
  length pub <> PublicKeySize ->
  newSignature (Some (core_pb.mkSignature pub val)) = (None, Some ErrInvalidKeySize).
Proof.
  intros Hlen. unfold newSignature, NewPublicKey. simpl.
  by rewrite bool_decide_eq_false_2.
Qed.

(** C5 (amended).  [Block.Validate] checks, in this order: the data is
    non-nil, the embedded certificate validates, the recomputed hash equals
    the stored hash, the proposer is in the validator set, the signature
    verifies over the hash; [Transaction.Validate] checks: the data is
    non-nil, the recomputed hash equals the stored hash, the sender key is
    well formed, the signature verifies over the hash.  Each returns the
    error of the first failing check, and nil exactly when all pass.  For a
    block this is for proposer bytes that are a well-formed key, and for a
    block that carries its certificate wrapper, as [setData] and
    [SetQuorumCert] leave it; the call of [QuorumCert.Validate] on the
    wrapper comes first whether the block carries one or not. *)
Theorem Validate_first_failing_check :
  forall (blk : Block) (vs : ValidatorStore) (d : core_pb.Block),
    Block_data blk = Some d ->
    length (Block_Proposer d) = PublicKeySize ->
    let checks_after (sum : bytes) :=
      [ check (bytes_Equal sum (Block_Hash d)) ErrInvalidBlockHash;
        check (IsValidator vs (mkPublicKey (Block_Proposer d)))
              ErrInvalidValidator;
        check (ed25519_Verify (Block_Proposer d) (Block_Hash d)
                 (Block_Signature d)) ErrInvalidSig ] in
    (forall p q, Block_Validate (mkBlk None p q) vs = Ret (Some ErrNilBlock))
    /\ (exists sum : bytes,
          Block_Sum blk = Ret sum
          /\ Block_Validate blk vs
             = qerr ← QuorumCert_Validate (Block_quorumCert blk) vs;
               Ret (first_error (qerr :: checks_after sum)))
    /\ (forall qc : QuorumCert,
          Block_quorumCert blk = Some qc ->
          exists (qerr : option error) (sum : bytes),
            QuorumCert_Validate (Some qc) vs = Ret qerr
            /\ Block_Sum blk = Ret sum
            /\ let checks := qerr :: checks_after sum in
               Block_Validate blk vs = Ret (first_error checks)
               /\ (Block_Validate blk vs = Ret None <->
                   Forall (fun c => c = None) checks))
    /\ (forall s, Transaction_Validate (mkTx None s) = Ret (Some ErrNilTx))
    /\ (forall (t : core_pb.Transaction) s,
          exists sum : bytes,
            Transaction_Sum (mkTx (Some t) s) = Ret sum
            /\ let checks :=
                  [ check (bytes_Equal sum (Transaction_Hash t)) ErrInvalidTxHash;
                    check (bool_decide (length (Transaction_Sender t)
                                        = PublicKeySize)) ErrInvalidKeySize;
                    check (ed25519_Verify (Transaction_Sender t)
                             (Transaction_Hash t) (Transaction_Signature t))
                          ErrInvalidSig ] in
               Transaction_Validate (mkTx (Some t) s) = Ret (first_error checks)
               /\ (Transaction_Validate (mkTx (Some t) s) = Ret None <->
                   Forall (fun c => c = None) checks)).
Proof.
  intros blk vs d Hd Hlen checks_after.
  assert (Block_Validate blk vs
          = qerr ← QuorumCert_Validate (Block_quorumCert blk) vs;
            Ret (first_error
                   (qerr :: checks_after
                              (sha3_256
                                 (uint64ToBytes (Block_Height d) ++
                                  Block_ParentHash d ++ Block_Proposer d ++
                                  from_option QuorumCert_BlockHash []
                                    (Block_QuorumCert d) ++
                                  uint64ToBytes (Block_ExecHeight d) ++
                                  Block_StateRoot d ++
                                  concat (Block_Transactions d)))))) as Hgen.
  { unfold Block_Validate, Block_Hash_of. rewrite Hd.
    destruct (QuorumCert_Validate (Block_quorumCert blk) vs) as [qerr|];
      cbn [mbind go_bind]; [|done].
    rewrite (Block_Sum_data blk d Hd). cbn [deref mbind go_bind].
    destruct qerr as [e|]; [done|]. subst checks_after. cbn [first_error].
    destruct (bytes_Equal _ (Block_Hash d)); cbn [negb check first_error];
      [|done].
    rewrite (newSignature_wellformed _ _ Hlen).
    unfold Signature_PublicKey, Signature_Verify.
    cbn [deref mbind go_bind sig_of Signature_pubKey Signature_data
         Signature_PubKey Signature_Value key].
    destruct (IsValidator vs _); cbn [negb check first_error]; [|done].
    by destruct (ed25519_Verify _ _ _). }
  split; [done|]. split; [|split; [|split; [done|]]].
  - eexists. split; [by apply Block_Sum_data|]. exact Hgen.
  - intros qc Hqc. destruct (QuorumCert_Validate_returns qc vs) as [qerr Hq].
    eexists qerr, _. split; [done|]. split; [by apply Block_Sum_data|].
    cbv zeta.
    match goal with |- ?A /\ _ => assert A as Hval end.
    { rewrite Hgen, Hqc, Hq. done. }
    split; [exact Hval|]. rewrite Hval. split.
    + intros [= Hn]. by apply first_error_None.
    + intros Hn. f_equal. by apply first_error_None.
  - clear Hgen checks_after.
    intros t s. eexists. split; [by apply Transaction_Sum_data|]. cbv zeta.
    match goal with |- ?A /\ _ => assert A as Hval end.
    { unfold Transaction_Validate, Transaction_Hash_of.
      cbn [Transaction_data].
      rewrite (Transaction_Sum_data (mkTx (Some t) s) t eq_refl).
      cbn [deref mbind go_bind].
      destruct (bytes_Equal _ (Transaction_Hash t));
        cbn [negb check first_error]; [|done].
      case_bool_decide as Hl; cbn [check first_error].
      - rewrite (newSignature_wellformed _ _ Hl).
        unfold Signature_Verify.
        cbn [deref mbind go_bind sig_of Signature_pubKey Signature_data
             Signature_PubKey Signature_Value key].
        by destruct (ed25519_Verify _ _ _).
      - by rewrite (newSignature_malformed _ _ Hl). }
    split; [exact Hval|]. rewrite Hval. split.
    + intros [= Hn]. by apply first_error_None.
    + intros Hn. f_equal. by apply first_error_None.
Qed.

(** C9.  A block with non-nil data, a validating certificate and a matching
    hash whose proposer bytes are not a well-formed public key makes
    [Block.Validate] panic: [newSignature] fails and returns a nil signature,
    which [sig.PublicKey()] reads through before the error is inspected. *)
Theorem Block_Validate_malformed_proposer_panics :
  forall (blk : Block) (vs : ValidatorStore) (d : core_pb.Block),
    Block_data blk = Some d ->
    QuorumCert_Validate (Block_quorumCert blk) vs = Ret None ->
    Block_Sum blk = Ret (Block_Hash d) ->
    length (Block_Proposer d) <> PublicKeySize ->
    Block_Validate blk vs = Panic
    /\ Transaction_Validate
         (mkTx (Some (core_pb.mkTransaction 0 (Block_Proposer d) [] []
                        (sha3_256 (uint64ToBytes 0 ++ Block_Proposer d))
                        [])) None)
       = Ret (Some ErrInvalidKeySize).
Proof.
  intros blk vs d Hd Hqc Hsum Hlen. split.
  - unfold Block_Validate, Block_Hash_of. rewrite Hd, Hqc, Hsum.
    cbn [deref mbind go_bind]. unfold bytes_Equal.
    rewrite bool_decide_eq_true_2 by done. cbn [negb].
    by rewrite (newSignature_malformed _ _ Hlen).
  - unfold Transaction_Validate, Transaction_Hash_of.
    rewrite (Transaction_Sum_data (mkTx (Some _) _) _ eq_refl).
    cbn [deref mbind go_bind Transaction_data Transaction_Hash
         Transaction_Nonce Transaction_Sender Transaction_CodeAddr
         Transaction_Input Transaction_Signature].
    unfold bytes_Equal. rewrite bool_decide_eq_true_2.
    + cbn [negb]. by rewrite (newSignature_malformed _ _ Hlen).
    + by rewrite !app_nil_r.
Qed.

End Core.

(** *** Concrete instances

    A toy signature scheme to run the definitions on: the digest is the
    identity, and the only signature a key accepts on a message is the key
    followed by the message. *)

Definition toy_digest (b : bytes) : bytes := b.

Definition toy_verify (pub msg sig : bytes) : bool :=
  bool_decide (sig = pub ++ msg).

Definition toy_key (b : byte) : bytes := replicate 32 b.

Definition toy_sign (pub msg : bytes) : core_pb.Signature :=
  core_pb.mkSignature pub (pub ++ msg).

(** Validator stores: four validators with keys [x00..x03]; a single
    validator with key [x01]. *)
Definition validators4 : ValidatorStore :=
  mkValidatorStore 4
    (fun pk => bool_decide (pk ∈ map (fun b => mkPublicKey (toy_key b))
                                    [x00; x01; x02; x03])).

Definition validators1 : ValidatorStore :=
  mkValidatorStore 1 (fun pk => bool_decide (pk = mkPublicKey (toy_key x01))).

(** A block whose certificate has no signatures, whose proposer is empty and
    whose stored hash is empty. *)
Definition block_empty_cert : Block :=
  mkBlk (Some (core_pb.mkBlock 1 [] [] [] []
                 (Some (core_pb.mkQuorumCert [] [])) 0 [] []))
        None
        (Some (mkQC (Some (core_pb.mkQuorumCert [] [])))).

(** A certificate for block hash [x01] signed by the single validator. *)
Definition cert1 : core_pb.QuorumCert :=
  core_pb.mkQuorumCert [x01] [Some (toy_sign (toy_key x01) [x01])].

Definition block_data1 (proposer : bytes) (hash : bytes) : core_pb.Block :=
  core_pb.mkBlock 1 hash [] proposer (proposer ++ hash) (Some cert1) 0 [] [].

(** A block proposed and signed by the validator: its stored hash is its
    sum under the toy digest. *)
Definition block_signed1 : Block :=
  let proposer := toy_key x01 in
  let hash := uint64ToBytes 1 ++ proposer ++ [x01] ++ uint64ToBytes 0 in
  mkBlk (Some (block_data1 proposer hash)) None (Some (mkQC (Some cert1))).

(** The same block with a two-byte proposer field. *)
Definition block_malformed_proposer : Block :=
  let proposer := [x01; x02] in
  let hash := uint64ToBytes 1 ++ proposer ++ [x01] ++ uint64ToBytes 0 in
  mkBlk (Some (block_data1 proposer hash)) None (Some (mkQC (Some cert1))).

(** C5 as stated: the checks of [Block.Validate] run in the listed order. *)
Definition Block_Validate_order_as_listed : Prop :=
  forall sha3_256 ed25519_Verify blk vs,
    Block_Validate sha3_256 ed25519_Verify blk vs =
    Block_Validate_listed sha3_256 ed25519_Verify blk vs.

(** C5, counterexample.  On a block whose certificate has too few signatures
    and whose hash and signature checks fail as well, [Block.Validate] reports
    the certificate's error, whatever the digest and the signature scheme are:
    the certificate is checked before the hash, not after the signature. *)
Lemma Block_Validate_order_counterexample :
  Block_data block_empty_cert <> None
  /\ (forall sha3_256 ed25519_Verify,
        Block_Validate sha3_256 ed25519_Verify block_empty_cert validators4
        = Ret (Some ErrInsufficientSignatures)
        /\ (Block_Validate_listed sha3_256 ed25519_Verify block_empty_cert
              validators4 = Ret (Some ErrInvalidBlockHash)
            \/ Block_Validate_listed sha3_256 ed25519_Verify block_empty_cert
                 validators4 = Ret (Some ErrInvalidSig)))
  /\ ~ Block_Validate_order_as_listed.
Proof.
  assert (forall sha3_256 ed25519_Verify,
        Block_Validate sha3_256 ed25519_Verify block_empty_cert validators4
        = Ret (Some ErrInsufficientSignatures)
        /\ (Block_Validate_listed sha3_256 ed25519_Verify block_empty_cert
              validators4 = Ret (Some ErrInvalidBlockHash)
            \/ Block_Validate_listed sha3_256 ed25519_Verify block_empty_cert
                 validators4 = Ret (Some ErrInvalidSig))) as Hboth.
  { intros sha3_256 ed25519_Verify. split; [reflexivity|].
    unfold Block_Validate_listed.
    rewrite (Block_Sum_data _ block_empty_cert _ eq_refl).
    cbn [block_empty_cert Block_data mbind go_bind Block_Hash].
    destruct (bytes_Equal _ []); cbn [negb]; [right|left]; reflexivity. }
  split; [done|]. split; [exact Hboth|].
  intros Hlisted.
  destruct (Hboth toy_digest toy_verify) as [Hcode [Hl|Hl]];
    rewrite Hlisted, Hl in Hcode; discriminate.
Qed.

Lemma Validate_first_failing_check_witness :
  Block_Validate toy_digest toy_verify block_signed1 validators1 = Ret None
  /\ Block_Validate toy_digest toy_verify block_signed1 validators4
     = Ret (Some ErrInsufficientSignatures).
Proof.
  split.
  - destruct (Validate_first_failing_check toy_digest toy_verify
                block_signed1 validators1 _ eq_refl eq_refl)
      as (_ & _ & Hqc & _).
    destruct (Hqc _ eq_refl) as (qerr & sum & Hq & Hs & Hv & _).
    vm_compute in Hq. injection Hq as <-.
    vm_compute in Hs. injection Hs as <-.
    rewrite Hv. vm_compute. reflexivity.
  - destruct (Validate_first_failing_check toy_digest toy_verify
                block_signed1 validators4 _ eq_refl eq_refl)
      as (_ & _ & Hqc & _).
    destruct (Hqc _ eq_refl) as (qerr & sum & Hq & Hs & Hv & _).
    vm_compute in Hq. injection Hq as <-.
    rewrite Hv. reflexivity.
Defined.

Lemma Block_Validate_malformed_proposer_panics_witness :
  Block_Validate toy_digest toy_verify block_malformed_proposer validators1
  = Panic.
Proof.
  apply (Block_Validate_malformed_proposer_panics toy_digest toy_verify
           block_malformed_proposer validators1 _ eq_refl).
  - vm_compute. reflexivity.
  - vm_compute. reflexivity.
  - vm_compute. discriminate.
Defined.

(* ================================================================== *)
(** ** Package [merkle]: the position-addressed Merkle tree

    The tests of the package ([TestTree_Root], [TestTree_Update],
    [TestTree_Verify]) are part of the development; the tree itself is
    modelled from the spec (section 4.2). *)

Module merkle.

(** A position is [(level, index)]: the level is a [uint8], the index an
    unbounded unsigned integer. *)
Record Position := NewPosition { Level : N; Index : N }.

Record Node := mkNode { Node_Position : Position; Node_Data : bytes }.

#[global] Instance Position_eq_decision : EqDecision Position.
Proof. solve_decision. Defined.

#[global] Instance Node_eq_decision : EqDecision Node.
Proof. solve_decision. Defined.

Record UpdateResult := mkUpdateResult {
  Leaves : list Node;
  Branches : list Node;
  LeafCount : N;
  Height : N;
  Root : option Node
}.

(** The backing-store interface, read side:
    [get_node(position) → bytes?], [get_leaf_count()], [get_height()]. *)
Record Store := mkStore {
  GetNode : Position -> option bytes;
  GetLeafCount : N;
  GetHeight : N
}.

(** The map-backed store of the tests: nodes by position, with the leaf
    count and the height. *)
Record MapStore := mkMapStore {
  nodes : gmap (N * N) bytes;
  leafCount : N;
  height : N
}.

Definition NewMapStore : MapStore := mkMapStore ∅ 0 0.

Definition pos_key (p : Position) : N * N := (Level p, Index p).

Definition MapStore_GetNode (s : MapStore) (p : Position) : option bytes :=
  nodes s !! pos_key p.

Definition MapStore_Store (s : MapStore) : Store :=
  mkStore (MapStore_GetNode s) (leafCount s) (height s).

Definition store_node (m : gmap (N * N) bytes) (n : Node) : gmap (N * N) bytes :=
  <[pos_key (Node_Position n) := Node_Data n]> m.

(** Modelled from the spec: [commit_update(UpdateResult)] "stores all provided
    nodes + updates height + leaf_count atomically". *)
Definition MapStore_CommitUpdate (s : MapStore) (res : UpdateResult) : MapStore :=
  mkMapStore (foldl store_node (nodes s) (Leaves res ++ Branches res))
             (LeafCount res) (Height res).

Record TreeOptions := mkTreeOptions { BranchFactor : N }.

Record Tree := mkTree { store : Store; bfactor : N }.

(** Modelled from the spec: "Branch factor is clamped to max(2, configured)". *)
Definition NewTree (st : Store) (opts : TreeOptions) : Tree :=
  mkTree st (if BranchFactor opts <? 2 then 2 else BranchFactor opts).

(** The least [h] with [n <= b^h], counting up from [acc = b^h]. *)
Fixpoint ceil_log_from (fuel : nat) (b n acc h : N) : N :=
  if n <=? acc then h
  else match fuel with
       | O => h
       | S fuel' => ceil_log_from fuel' b n (acc * b) (h + 1)
       end.

Definition ceil_log (b n : N) : N := ceil_log_from (N.size_nat n) b n 1 0.

(** Modelled from the spec: "Height h = ⌈log_B(leaf_count)⌉ for leaf_count>1,
    else 1".  The root of a tree of height [h] is at level [h]. *)
Definition treeHeight (b n : N) : N :=
  if n <=? 1 then 1 else ceil_log b n.

(** The nodes of one level under recomputation, by index. *)
Abbreviation Dirty := (gmap N bytes).

(** The changed leaves by index; of two leaves at one index the last wins. *)
Definition dirtyOf (leaves : list Node) : Dirty :=
  foldl (fun m n => <[Index (Node_Position n) := Node_Data n]> m) ∅ leaves.

Definition nodesOf (L : N) (dirty : Dirty) : list Node :=
  map (fun kv => mkNode (NewPosition L kv.1) kv.2) (map_to_list dirty).

Section Tree.

(** The hash function of the tree: "one function governs the whole tree". *)
Variable hashFunc : bytes -> bytes.

(** Modelled from the spec: a child is taken "from dirty set if present else
    store"; "a missing child contributes zero bytes to the concatenation". *)
Definition childData (t : Tree) (L : N) (dirty : Dirty) (i : N) : bytes :=
  match dirty !! i with
  | Some d => d
  | None => default [] (GetNode (store t) (NewPosition L i))
  end.

(** Modelled from the spec: "A parent's data = H(concat of its B children
    data)"; the children of [(L+1, p)] are [(L, B*p) .. (L, B*p + B − 1)]. *)
Definition parentData (t : Tree) (L : N) (dirty : Dirty) (p : N) : bytes :=
  hashFunc (concat (map (fun j => childData t L dirty (bfactor t * p + N.of_nat j))
                        (seq 0 (N.to_nat (bfactor t))))).

(** Modelled from the spec: "Parent index of node at (L, i) is (L+1, ⌊i/B⌋)". *)
Definition parentIndexes (t : Tree) (dirty : Dirty) : gset N :=
  set_map (fun i => i / bfactor t) (dom dirty).

(** Modelled from the spec: one level of the update, "given dirty indices at
    level L, compute their parents' indices, fetch the sibling children, hash,
    emit parent node into dirty set for level L+1". *)
Definition levelUp (t : Tree) (L : N) (dirty : Dirty) : Dirty :=
  set_to_map (fun p => (p, parentData t L dirty p)) (parentIndexes t dirty).

(** Modelled from the spec: the update "stops when only one node remains at
    some level and its index is 0 AND that level ≥ new height → that is the
    root". *)
Definition rootAt (h L : N) (dirty : Dirty) : option Node :=
  if (h <=? L) && bool_decide (dom dirty = {[ 0 ]})
  then option_map (mkNode (NewPosition L 0)) (dirty !! 0)
  else None.

(** The levels above [L], bottom up: the branches emitted and the root. *)
Fixpoint climb (fuel : nat) (t : Tree) (h L : N) (dirty : Dirty)
  : list Node * option Node :=
  match rootAt h L dirty with
  | Some r => ([], Some r)
  | None =>
      match fuel with
      | O => ([], None)
      | S fuel' =>
          let up := levelUp t L dirty in
          let '(branches, root) := climb fuel' t h (L + 1) up in
          (nodesOf (L + 1) up ++ branches, root)
      end
  end.

(** The number of levels after which every index has become 0 and the level
    has reached [h]. *)
Definition climbFuel (h : N) (dirty : Dirty) : nat :=
  (N.to_nat h + N.size_nat (map_fold (fun i _ m => N.max i m) 0%N dirty))%nat.

(** Modelled from the spec: [update(changed_leaves, new_leaf_count) →
    UpdateResult{leaves, branches, leaf_count, height, root}]; it reads the
    store and does not change it.  The height recorded counts the levels, one
    more than the level of the root ([TestTree_Root]: in a store of height 3
    the root is at level 2). *)
Definition Tree_Update (t : Tree) (leaves : list Node) (newLeafCount : N)
  : UpdateResult :=
  let h := treeHeight (bfactor t) newLeafCount in
  let dirty := dirtyOf leaves in
  let '(branches, root) := climb (climbFuel h dirty) t h 0 dirty in
  mkUpdateResult leaves branches newLeafCount (h + 1) root.

(** Modelled from the spec: [root()] "reads the height metadata from store and
    returns the current top node (or none if empty)". *)
Definition Tree_Root (t : Tree) : option Node :=
  let h := GetHeight (store t) in
  if h =? 0 then None
  else
    let p := NewPosition (h - 1) 0 in
    option_map (mkNode p) (GetNode (store t) p).

(** Modelled from the spec: [verify(leaves[]) → bool].  "Given a set of leaves
    at level 0 with indices < leaf_count, recompute ancestors using
    store-backed siblings; success iff the recomputed top equals the stored
    root"; "verify returns false for empty input, for any leaf with index ≥
    leaf_count, for any leaf not at level 0, or if tree has no root". *)
Definition Tree_Verify (t : Tree) (leaves : list Node) : bool :=
  match Tree_Root t with
  | None => false
  | Some root =>
      match leaves with
      | [] => false
      | _ =>
          let n := GetLeafCount (store t) in
          if forallb (fun l => (Level (Node_Position l) =? 0)
                               && (Index (Node_Position l) <? n)) leaves
          then
            match Root (Tree_Update t leaves n) with
            | Some r => bytes_Equal (Node_Data r) (Node_Data root)
            | None => false
            end
          else false
      end
  end.

(** *** The scenarios of the tests *)

(** The tree of [TestTree_Update] and [TestTree_Verify] over a map store:
    branch factor 3. *)
Definition tree3 (s : MapStore) : Tree :=
  NewTree (MapStore_Store s) (mkTreeOptions 3).

Definition leaf (i : N) (d : byte) : Node := mkNode (NewPosition 0 i) [d].

(** Leaves [0..6] with data [[i]]. *)
Definition leaves7 : list Node :=
  [leaf 0 x00; leaf 1 x01; leaf 2 x02; leaf 3 x03; leaf 4 x04; leaf 5 x05;
   leaf 6 x06].

(** The store after [tree.Update(leaves, 7)] and [store.CommitUpdate(res)]. *)
Definition store7 : MapStore :=
  MapStore_CommitUpdate NewMapStore (Tree_Update (tree3 NewMapStore) leaves7 7).

(** The second update: indices 2, 5, 7, 8, 9 set to [[1]], 10 leaves. *)
Definition update10 : list Node :=
  [leaf 2 x01; leaf 5 x01; leaf 7 x01; leaf 8 x01; leaf 9 x01].

Definition store10 : MapStore :=
  MapStore_CommitUpdate store7 (Tree_Update (tree3 store7) update10 10).

(** [TestNewTree]: a branch factor below 2 becomes 2, others stay. *)
Lemma NewTree_bfactor (st : Store) :
  bfactor (NewTree st (mkTreeOptions 1)) = 2
  /\ bfactor (NewTree st (mkTreeOptions 4)) = 4.
Proof. split; reflexivity. Qed.

(** [TestTree_Root]: an empty store has no root; after committing a result of
    height 3 the root is the node at level 2. *)
Lemma Tree_Root_test :
  let upd := mkUpdateResult
               [mkNode (NewPosition 0 0) [x01]; mkNode (NewPosition 0 1) [x02];
                mkNode (NewPosition 0 2) [x03]]
               [mkNode (NewPosition 1 0) [x04]; mkNode (NewPosition 1 1) [x05];
                mkNode (NewPosition 2 0) [x06]]
               2 3 None in
  Tree_Root (NewTree (MapStore_Store NewMapStore) (mkTreeOptions 2)) = None
  /\ Tree_Root (NewTree (MapStore_Store (MapStore_CommitUpdate NewMapStore upd))
                  (mkTreeOptions 2))
     = Some (mkNode (NewPosition 2 0) [x06]).
Proof. split; vm_compute; reflexivity. Qed.

(** C6.  With branch factor 3, updating an empty tree with leaves [0..6]
    holding [[i]] and leaf count 7, and committing, stores exactly 11 nodes,
    with [n10 = H[0,1,2]], [n11 = H[3,4,5]], [n12 = H[6]] at level 1 and the
    root [H(n10 ∥ n11 ∥ n12)]; then updating indices [{2,5,7,8,9}] to [[1]]
    with leaf count 10, and committing, stores exactly 17 nodes, with
    [nn13 = H[1]], [nn21 = H(nn13)] and the new root [H(nn20 ∥ nn21)].  This
    for every hash function [H], sha1 among them. *)
Theorem Tree_Update_scenario :
  let H := hashFunc in
  let get s L i := MapStore_GetNode s (NewPosition L i) in
  let n10 := H [x00; x01; x02] in
  let n11 := H [x03; x04; x05] in
  let n12 := H [x06] in
  let n20 := H (n10 ++ n11 ++ n12) in
  let nn10 := H [x00; x01; x01] in
  let nn11 := H [x03; x04; x01] in
  let nn12 := H [x06; x01; x01] in
  let nn13 := H [x01] in
  let nn20 := H (nn10 ++ nn11 ++ nn12) in
  let nn21 := H nn13 in
  let nn30 := H (nn20 ++ nn21) in
  (size (nodes store7) = 11%nat
   /\ get store7 1 0 = Some n10 /\ get store7 1 1 = Some n11
   /\ get store7 1 2 = Some n12 /\ get store7 2 0 = Some n20
   /\ Root (Tree_Update (tree3 NewMapStore) leaves7 7)
      = Some (mkNode (NewPosition 2 0) n20)
   /\ Tree_Root (tree3 store7) = Some (mkNode (NewPosition 2 0) n20))
  /\ (size (nodes store10) = 17%nat
      /\ get store10 1 0 = Some nn10 /\ get store10 1 1 = Some nn11
      /\ get store10 1 2 = Some nn12 /\ get store10 1 3 = Some nn13
      /\ get store10 2 0 = Some nn20 /\ get store10 2 1 = Some nn21
      /\ get store10 3 0 = Some nn30
      /\ Root (Tree_Update (tree3 store7) update10 10)
         = Some (mkNode (NewPosition 3 0) nn30)
      /\ Tree_Root (tree3 store10) = Some (mkNode (NewPosition 3 0) nn30)).
Proof.
  cbv zeta. split.
  - assert (size (nodes store7) = 11%nat) as Hsize by (vm_compute; reflexivity).
    split; [exact Hsize|].
    repeat split; vm_compute; fold (@app byte); rewrite ?app_nil_r; reflexivity.
  - assert (size (nodes store10) = 17%nat) as Hsize by (vm_compute; reflexivity).
    split; [exact Hsize|].
    repeat split; vm_compute; fold (@app byte); rewrite ?app_nil_r; reflexivity.
Qed.

(** *** Rejections of [verify] *)

Lemma Tree_Verify_no_root (t : Tree) (leaves : list Node) :
  Tree_Root t = None -> Tree_Verify t leaves = false.
Proof. intros Hr. unfold Tree_Verify. by rewrite Hr. Qed.

Lemma Tree_Verify_empty (t : Tree) : Tree_Verify t [] = false.
Proof. unfold Tree_Verify. by destruct (Tree_Root t). Qed.

Lemma Tree_Verify_reject (t : Tree) (leaves : list Node) (l : Node) :
  l ∈ leaves ->
  Level (Node_Position l) <> 0 \/ GetLeafCount (store t) <= Index (Node_Position l) ->
  Tree_Verify t leaves = false.
Proof.
  intros Hin Hbad. unfold Tree_Verify.
  destruct (Tree_Root t) as [root|]; [|done].
  destruct leaves as [|l0 leaves]; [done|].
  destruct (forallb _ (l0 :: leaves)) eqn:Hall; [|done].
  rewrite forallb_forall in Hall.
  apply list_elem_of_In, Hall, andb_true_iff in Hin as [Hl Hi].
  apply N.eqb_eq in Hl. apply N.ltb_lt in Hi. lia.
Qed.

(** *** Recomputation along a single path *)

Lemma lookup_levelUp (t : Tree) (L : N) (dirty : Dirty) (p : N) (x : bytes) :
  levelUp t L dirty !! p = Some x <->
  (exists i, i ∈ dom dirty /\ i / bfactor t = p) /\ x = parentData t L dirty p.
Proof.
  unfold levelUp. rewrite lookup_set_to_map by (by intros ?? _ _ ?).
  unfold parentIndexes. split.
  - intros (y & Hy & [= -> <-]). apply elem_of_map in Hy as (i & -> & Hi).
    split; [by exists i|done].
  - intros [(i & Hi & <-) ->]. eexists. split; [|done].
    apply elem_of_map. by exists i.
Qed.

Lemma levelUp_singleton (t : Tree) (L i : N) (d : bytes) :
  levelUp t L {[ i := d ]}
  = {[ i / bfactor t := parentData t L {[ i := d ]} (i / bfactor t) ]}.
Proof.
  apply map_eq. intros p. apply option_eq. intros x.
  rewrite lookup_levelUp, lookup_singleton_Some, dom_singleton_L. split.
  - intros [(j & Hj & <-) ->]. apply elem_of_singleton in Hj as ->. done.
  - intros [<- <-]. split; [|done]. exists i. split; [|done]. by apply elem_of_singleton.
Qed.

Lemma concat_map_single_diff (f g : nat -> bytes) (l : list nat) (j0 : nat) :
  NoDup l -> j0 ∈ l -> (forall j, j <> j0 -> f j = g j) ->
  concat (map f l) = concat (map g l) -> f j0 = g j0.
Proof.
  intros Hnd Hin Hfg Heq.
  apply list_elem_of_split in Hin as (l1 & l2 & ->).
  apply NoDup_app in Hnd as (_ & Hn1 & Hnd2). apply NoDup_cons in Hnd2 as [Hn2 _].
  assert (map f l1 = map g l1) as E1.
  { apply map_ext_in. intros j Hj. apply Hfg. intros ->.
    apply (Hn1 j0); [by apply list_elem_of_In|left]. }
  assert (map f l2 = map g l2) as E2.
  { apply map_ext_in. intros j Hj. apply Hfg. intros ->.
    by apply Hn2, list_elem_of_In. }
  rewrite !map_app, !concat_app in Heq. simpl in Heq.
  rewrite E1, E2 in Heq. apply app_inv_head in Heq. by apply app_inv_tail in Heq.
Qed.

Lemma rootAt_singleton (h L i : N) (d : bytes) :
  rootAt h L {[ i := d ]} =
  if (h <=? L) && bool_decide (i = 0) then Some (mkNode (NewPosition L 0) d) else None.
Proof.
  unfold rootAt. rewrite dom_singleton_L.
  destruct (h <=? L); simpl; [|done].
  case_bool_decide as H1; case_bool_decide as H2; try done.
  - apply singleton_inj in H1 as ->. by rewrite lookup_singleton_eq.
  - exfalso. apply H2. by apply singleton_inj in H1.
  - subst. done.
Qed.

Lemma climbFuel_singleton (h i : N) (d : bytes) :
  climbFuel h {[ i := d ]} = (N.to_nat h + N.size_nat i)%nat.
Proof.
  unfold climbFuel. rewrite map_fold_singleton. by rewrite N.max_0_r.
Qed.

Lemma dirtyOf_single (i : N) (d : bytes) :
  dirtyOf [mkNode (NewPosition 0 i) d] = {[ i := d ]}.
Proof. unfold dirtyOf. simpl. by rewrite insert_empty. Qed.

(** The hash input of the node [(L+1, p)] under recomputation: its children
    one after the other. *)
Definition parentInput (t : Tree) (L : N) (dirty : Dirty) (p : N) : bytes :=
  concat (map (fun j => childData t L dirty (bfactor t * p + N.of_nat j))
              (seq 0 (N.to_nat (bfactor t)))).

(** Whether the two recomputations of the path of the node [(L, i)], from the
    data [d] and from the data [d'], meet within [k] levels a node where
    their hash inputs differ and have the same digest. *)
Fixpoint path_collides (k : nat) (t : Tree) (L i : N) (d d' : bytes) : bool :=
  match k with
  | O => false
  | S k' =>
      let X := parentInput t L {[ i := d ]} (i / bfactor t) in
      let X' := parentInput t L {[ i := d' ]} (i / bfactor t) in
      (negb (bytes_Equal X X') && bytes_Equal (hashFunc X) (hashFunc X'))
      || path_collides k' t (L + 1) (i / bfactor t) (hashFunc X) (hashFunc X')
  end.

(** The same for the verification of a single leaf of index [i]. *)
Definition Verify_path_collides (t : Tree) (i : N) (d d' : bytes) : bool :=
  path_collides
    (climbFuel (treeHeight (bfactor t) (GetLeafCount (store t))) {[ i := d ]})
    t 0 i d d'.

Lemma parentInput_single_inj (t : Tree) (L i : N) (d d' : bytes) :
  0 < bfactor t ->
  parentInput t L {[ i := d ]} (i / bfactor t)
  = parentInput t L {[ i := d' ]} (i / bfactor t) ->
  d = d'.
Proof.
  intros HB HXY. unfold parentInput in HXY.
  pose proof (N.div_mod i (bfactor t) ltac:(lia)) as Hdm.
  pose proof (N.mod_lt i (bfactor t) ltac:(lia)) as Hlt.
  apply (concat_map_single_diff _ _ _ (N.to_nat (i mod bfactor t))) in HXY.
  - unfold childData in HXY. rewrite N2Nat.id, <- Hdm in HXY.
    by rewrite !lookup_singleton_eq in HXY.
  - apply NoDup_ListNoDup, seq_NoDup.
  - apply list_elem_of_In, in_seq. clear -Hlt HB. set (m := i mod bfactor t) in *. lia.
  - intros j Hj. unfold childData.
    rewrite !lookup_singleton_ne; [done| |]; intros Hc; apply Hj; lia.
Qed.

Lemma climb_single_collides (fuel : nat) (t : Tree) (h L i : N) (d d' : bytes)
      (r r' : Node) :
  0 < bfactor t ->
  (climb fuel t h L {[ i := d ]}).2 = Some r ->
  (climb fuel t h L {[ i := d' ]}).2 = Some r' ->
  Node_Data r = Node_Data r' ->
  d = d' \/ path_collides fuel t L i d d' = true.
Proof.
  intros HB. revert L i d d'.
  induction fuel as [|fuel IH]; intros L i d d'; cbn [climb];
    rewrite !rootAt_singleton;
    destruct ((h <=? L) && bool_decide (i = 0)); cbn [snd].
  - intros [= <-] [= <-] Hd. by left.
  - done.
  - intros [= <-] [= <-] Hd. by left.
  - rewrite !levelUp_singleton.
    change (parentData t L {[ i := d ]} (i / bfactor t))
      with (hashFunc (parentInput t L {[ i := d ]} (i / bfactor t))).
    change (parentData t L {[ i := d' ]} (i / bfactor t))
      with (hashFunc (parentInput t L {[ i := d' ]} (i / bfactor t))).
    cbn [path_collides].
    set (X := parentInput t L {[ i := d ]} (i / bfactor t)).
    set (X' := parentInput t L {[ i := d' ]} (i / bfactor t)).
    destruct (climb fuel t h (L + 1) {[ i / bfactor t := hashFunc X ]})
      as [b1 r1] eqn:E1.
    destruct (climb fuel t h (L + 1) {[ i / bfactor t := hashFunc X' ]})
      as [b2 r2] eqn:E2.
    cbn [snd]. intros -> -> Hd.
    destruct (IH (L + 1) (i / bfactor t) (hashFunc X) (hashFunc X'))
      as [Hp|Hc]; [by rewrite E1|by rewrite E2|done| |].
    + unfold bytes_Equal. destruct (decide (X = X')) as [HX|HX].
      * left. by apply (parentInput_single_inj t L i).
      * right. rewrite bool_decide_eq_false_2 by done.
        by rewrite bool_decide_eq_true_2.
    + right. rewrite Hc. by rewrite orb_true_r.
Qed.

(** Two single leaves of one index that a tree both verifies have the same
    data, or the two recomputations meet a node where the hash inputs differ
    and the digests are the same. *)
Lemma Tree_Verify_single_collides (t : Tree) (i : N) (d d' : bytes) :
  0 < bfactor t ->
  Tree_Verify t [mkNode (NewPosition 0 i) d] = true ->
  Tree_Verify t [mkNode (NewPosition 0 i) d'] = true ->
  d = d' \/ Verify_path_collides t i d d' = true.
Proof.
  intros HB. unfold Tree_Verify, Verify_path_collides.
  destruct (Tree_Root t) as [root|]; [|done].
  cbn [forallb Node_Position Level Index].
  destruct (_ && _); [|done].
  unfold Tree_Update. rewrite !dirtyOf_single, !climbFuel_singleton.
  destruct (climb _ _ _ _ {[ i := d ]}) as [b1 r1] eqn:E1.
  destruct (climb _ _ _ _ {[ i := d' ]}) as [b2 r2] eqn:E2.
  cbn [Root]. destruct r1 as [r1|]; [|done]. destruct r2 as [r2|]; [|done].
  unfold bytes_Equal. intros H1 H2.
  eapply (climb_single_collides _ t _ 0 i d d' r1 r2);
    [done|by rewrite E1|by rewrite E2|].
  apply bool_decide_eq_true in H1, H2. congruence.
Qed.
End Tree.

(** *** Committed trees *)


Lemma ceil_log_from_spec (fuel : nat) (b n acc h : N) :
  2 <= b -> acc = b ^ h -> n <= acc * 2 ^ N.of_nat fuel ->
  (forall h', h' < h -> b ^ h' < n) ->
  n <= b ^ ceil_log_from fuel b n acc h
  /\ (forall h', h' < ceil_log_from fuel b n acc h -> b ^ h' < n).
Proof.
  intros Hb. revert acc h. induction fuel as [|fuel IH]; intros acc h Hacc Hn Hlow.
  - simpl in *. rewrite N.mul_1_r in Hn.
    destruct (N.leb_spec n acc); subst; split; done || lia.
  - cbn [ceil_log_from]. destruct (N.leb_spec n acc) as [Hle|Hgt].
    + subst. split; done.
    + apply IH.
      * subst. rewrite N.add_1_r, N.pow_succ_r'. lia.
      * rewrite Nat2N.inj_succ, N.pow_succ_r' in Hn.
        assert (acc * 2 <= acc * b) by (apply N.mul_le_mono_l; lia). nia.
      * intros h' Hh'. destruct (N.eq_dec h' h) as [->|Hne].
        -- by subst.
        -- apply Hlow. lia.
Qed.

Lemma size_nat_pow (n : N) : n < 2 ^ N.of_nat (N.size_nat n).
Proof.
  destruct n as [|p]; [done|]. cbn [N.size_nat].
  induction p as [p IH|p IH|]; cbn [Pos.size_nat];
    rewrite ?Nat2N.inj_succ, ?N.pow_succ_r'; [| |done].
  - change (N.pos p~1) with (2 * N.pos p + 1). lia.
  - change (N.pos p~0) with (2 * N.pos p). lia.
Qed.

Lemma ceil_log_spec (b n : N) :
  2 <= b ->
  n <= b ^ ceil_log b n /\ (forall h', h' < ceil_log b n -> b ^ h' < n).
Proof.
  intros Hb. unfold ceil_log. apply ceil_log_from_spec; [done|done| |].
  - pose proof (size_nat_pow n). lia.
  - intros h' Hh'. lia.
Qed.

Lemma treeHeight_pos (b n : N) : 2 <= b -> 1 <= treeHeight b n.
Proof.
  intros Hb. unfold treeHeight. destruct (N.leb_spec n 1); [done|].
  destruct (ceil_log_spec b n Hb) as [Hle _].
  destruct (N.eq_dec (ceil_log b n) 0) as [E|]; [|lia].
  rewrite E in Hle. simpl in Hle. lia.
Qed.

Lemma treeHeight_bound (b n : N) : 2 <= b -> n <= b ^ treeHeight b n.
Proof.
  intros Hb. unfold treeHeight. destruct (N.leb_spec n 1).
  - rewrite N.pow_1_r. lia.
  - by apply ceil_log_spec.
Qed.

Lemma treeHeight_mono (b n n' : N) :
  2 <= b -> n <= n' -> treeHeight b n <= treeHeight b n'.
Proof.
  intros Hb Hn. pose proof (treeHeight_pos b n' Hb).
  unfold treeHeight in *. destruct (N.leb_spec n 1); [done|].
  destruct (N.leb_spec n' 1); [lia|].
  destruct (ceil_log_spec b n Hb) as [_ Hmin].
  destruct (ceil_log_spec b n' Hb) as [Hle' _].
  destruct (N.le_gt_cases (ceil_log b n) (ceil_log b n')) as [|Hgt]; [done|].
  specialize (Hmin _ Hgt). lia.
Qed.

Section Consistency.

Variable hashFunc : bytes -> bytes.

(** The data a map store holds at a position. *)
Definition stored (s : MapStore) (L i : N) : option bytes := nodes s !! (L, i).

(** The hash input of the node [(L+1, p)] as the store has its children. *)
Definition childrenData (s : MapStore) (B L p : N) : bytes :=
  concat (map (fun j => default [] (stored s L (B * p + N.of_nat j)))
              (seq 0 (N.to_nat B))).

(** A store a tree of branch factor [B] has been committed to: its height
    counts the levels of the tree over its leaf count; there is no node above
    the root level and one node at most on it; every node below the root
    level has its parent; and every branch is the hash of its children. *)
Record Consistent (B : N) (s : MapStore) : Prop := mkConsistent {
  com_height :
    nodes s <> ∅ -> height s = treeHeight B (leafCount s) + 1;
  com_top : forall L i,
    is_Some (stored s L i) ->
    L <= treeHeight B (leafCount s)
    /\ (L = treeHeight B (leafCount s) -> i = 0);
  com_closed : forall L i,
    is_Some (stored s L i) -> L < treeHeight B (leafCount s) ->
    is_Some (stored s (L + 1) (i / B));
  com_consistent : forall L p x,
    stored s (L + 1) p = Some x -> L < treeHeight B (leafCount s) ->
    x = hashFunc (childrenData s B L p)
}.

(** The recomputed nodes of a level are the stored ones. *)
Definition agree (dirty : Dirty) (s : MapStore) (L : N) : Prop :=
  forall i d, dirty !! i = Some d -> stored s L i = Some d.

Definition storeTree (s : MapStore) (B : N) : Tree := mkTree (MapStore_Store s) B.

Lemma childData_agree (s : MapStore) (B L : N) (dirty : Dirty) (i : N) :
  agree dirty s L ->
  childData (storeTree s B) L dirty i = default [] (stored s L i).
Proof.
  intros Hag. unfold childData. destruct (dirty !! i) as [d|] eqn:Hd.
  - by rewrite (Hag i d Hd).
  - done.
Qed.

Lemma parentData_agree (s : MapStore) (B L : N) (dirty : Dirty) (p : N) :
  agree dirty s L ->
  parentData hashFunc (storeTree s B) L dirty p = hashFunc (childrenData s B L p).
Proof.
  intros Hag. unfold parentData, childrenData. f_equal. f_equal.
  apply map_ext. intros j. by apply childData_agree.
Qed.

Lemma levelUp_agree (s : MapStore) (B L : N) (dirty : Dirty) :
  Consistent B s -> agree dirty s L -> L < treeHeight B (leafCount s) ->
  agree (levelUp hashFunc (storeTree s B) L dirty) s (L + 1).
Proof.
  intros Hc Hag HL p x Hp.
  apply lookup_levelUp in Hp as [(i & Hi & Hip) ->]. cbn [bfactor storeTree] in Hip.
  apply elem_of_dom in Hi as [d Hd]. apply Hag in Hd.
  destruct (com_closed _ _ Hc L i) as [y Hy]; [by rewrite Hd|done|].
  rewrite Hip in Hy. rewrite Hy. f_equal.
  rewrite (com_consistent _ _ Hc L p y Hy HL). by rewrite parentData_agree.
Qed.

Lemma levelUp_nonempty (t : Tree) (L : N) (dirty : Dirty) :
  dirty <> ∅ -> levelUp hashFunc t L dirty <> ∅.
Proof.
  intros Hne Hup. apply map_choose in Hne as (i & d & Hd).
  assert (levelUp hashFunc t L dirty !! (i / bfactor t)
          = Some (parentData hashFunc t L dirty (i / bfactor t))) as Hl.
  { apply lookup_levelUp. split; [|done]. exists i. split; [|done].
    apply elem_of_dom. by exists d. }
  rewrite Hup in Hl. by rewrite lookup_empty in Hl.
Qed.

Lemma rootAt_below (h L : N) (dirty : Dirty) : L < h -> rootAt h L dirty = None.
Proof.
  intros HL. unfold rootAt. destruct (N.leb_spec h L); [lia|done].
Qed.

Lemma rootAt_top (s : MapStore) (B : N) (dirty : Dirty) :
  let h := treeHeight B (leafCount s) in
  Consistent B s -> agree dirty s h -> dirty <> ∅ ->
  exists d, stored s h 0 = Some d
            /\ rootAt h h dirty = Some (mkNode (NewPosition h 0) d).
Proof.
  intros h Hc Hag Hne.
  assert (dom dirty = {[ 0 ]}) as Hdom.
  { apply set_eq. intros i. rewrite elem_of_singleton, elem_of_dom. split.
    - intros [d Hd]. apply Hag in Hd.
      destruct (com_top _ _ Hc h i) as [_ Hi]; [by rewrite Hd|]. by apply Hi.
    - intros ->. apply map_choose in Hne as (i & d & Hd).
      pose proof (Hag _ _ Hd) as Hs.
      destruct (com_top _ _ Hc h i) as [_ Hi]; [by rewrite Hs|].
      rewrite (Hi eq_refl) in Hd. by exists d. }
  assert (is_Some (dirty !! 0)) as [d Hd].
  { apply elem_of_dom. rewrite Hdom. by apply elem_of_singleton. }
  exists d. split; [by apply Hag|].
  unfold rootAt. rewrite N.leb_refl, Hdom, bool_decide_eq_true_2 by done.
  cbn. by rewrite Hd.
Qed.

Lemma climb_agree (s : MapStore) (B : N) (k fuel : nat) (L : N) (dirty : Dirty) :
  let h := treeHeight B (leafCount s) in
  h = L + N.of_nat k -> (k <= fuel)%nat ->
  Consistent B s -> agree dirty s L -> dirty <> ∅ ->
  exists d, stored s h 0 = Some d
            /\ (climb hashFunc fuel (storeTree s B) h L dirty).2
               = Some (mkNode (NewPosition h 0) d).
Proof.
  intros h. revert fuel L dirty.
  induction k as [|k IH]; intros fuel L dirty Hh Hfuel Hc Hag Hne.
  - assert (L = h) as -> by lia.
    destruct (rootAt_top s B dirty Hc Hag Hne) as (d & Hs & Hr). fold h in Hr.
    exists d. split; [done|]. destruct fuel; cbn [climb]; by rewrite Hr.
  - destruct fuel as [|fuel]; [lia|]. cbn [climb].
    rewrite rootAt_below by lia.
    destruct (IH fuel (L + 1) (levelUp hashFunc (storeTree s B) L dirty))
      as (d & Hs & Hr); [lia|lia|done| |by apply levelUp_nonempty|].
    { apply levelUp_agree; [done|done|]. fold h. lia. }
    exists d. split; [done|].
    destruct (climb _ _ _ _ _ _) as [bs r]. by cbn in *.
Qed.

Lemma dirtyOf_lookup (leaves : list Node) (i : N) (d : bytes) :
  dirtyOf leaves !! i = Some d ->
  exists l, l ∈ leaves /\ Index (Node_Position l) = i /\ Node_Data l = d.
Proof.
  unfold dirtyOf.
  assert (forall m : Dirty,
    foldl (fun m n => <[Index (Node_Position n) := Node_Data n]> m) m leaves !! i
    = Some d ->
    m !! i = Some d
    \/ exists l, l ∈ leaves /\ Index (Node_Position l) = i /\ Node_Data l = d) as H.
  { induction leaves as [|l leaves IH]; intros m; cbn [foldl]; [by left|].
    intros Hl. destruct (IH _ Hl) as [Hm|(l' & Hin & Hi & Hd)].
    - destruct (decide (Index (Node_Position l) = i)) as [E|E].
      + rewrite E, lookup_insert_eq in Hm. injection Hm as <-.
        right. exists l. split; [left|done].
      + rewrite lookup_insert_ne in Hm by done. by left.
    - right. exists l'. split; [by right|done]. }
  intros Hl. destruct (H ∅ Hl) as [Hm|Hr]; [by rewrite lookup_empty in Hm|done].
Qed.

Lemma dirtyOf_nonempty (leaves : list Node) : leaves <> [] -> dirtyOf leaves <> ∅.
Proof.
  unfold dirtyOf. destruct leaves as [|l leaves] using rev_ind; [done|].
  intros _. rewrite foldl_app. cbn [foldl]. apply insert_non_empty.
Qed.

(** A committed tree verifies every non-empty list of its leaves. *)
Lemma Tree_Verify_complete (s : MapStore) (B : N) (leaves : list Node) :
  Consistent B s -> leaves <> [] ->
  (forall l, l ∈ leaves ->
     Level (Node_Position l) = 0
     /\ Index (Node_Position l) < leafCount s
     /\ stored s 0 (Index (Node_Position l)) = Some (Node_Data l)) ->
  Tree_Verify hashFunc (storeTree s B) leaves = true.
Proof.
  intros Hc Hne Hl.
  assert (agree (dirtyOf leaves) s 0) as Hag.
  { intros i d Hd. apply dirtyOf_lookup in Hd as (l & Hin & <- & <-).
    by apply Hl. }
  pose proof (dirtyOf_nonempty leaves Hne) as Hdne.
  set (h := treeHeight B (leafCount s)).
  destruct (climb_agree s B (N.to_nat h) (climbFuel h (dirtyOf leaves)) 0
              (dirtyOf leaves)) as (d & Hs & Hr);
    [fold h; lia|unfold climbFuel; lia|done|done|done|]. fold h in Hs, Hr.
  assert (nodes s <> ∅) as Hnodes.
  { intros He. unfold stored in Hs. by rewrite He, lookup_empty in Hs. }
  unfold Tree_Verify, Tree_Root. cbn [store storeTree GetHeight GetNode GetLeafCount
    MapStore_Store].
  rewrite (com_height _ _ Hc Hnodes). fold h.
  destruct (N.eqb_spec (h + 1) 0) as [|_]; [lia|].
  replace (h + 1 - 1) with h by lia.
  unfold MapStore_GetNode, pos_key. cbn [Level Index].
  unfold stored in Hs. rewrite Hs. cbn [option_map].
  destruct leaves as [|l0 leaves0] eqn:El; [done|]. rewrite <- El in *.
  assert (forallb (fun l => (Level (Node_Position l) =? 0)
                            && (Index (Node_Position l) <? leafCount s)) leaves
          = true) as ->.
  { apply forallb_forall. intros l Hin. apply list_elem_of_In in Hin.
    destruct (Hl l Hin) as (H0 & Hi & _). apply andb_true_iff. split.
    - by apply N.eqb_eq.
    - by apply N.ltb_lt. }
  unfold Tree_Update. cbn [bfactor storeTree]. fold h.
  fold (storeTree s B).
  destruct (climb _ _ _ _ _ _) as [bs r]. cbn in Hr. subst r.
  cbn [Root Node_Data]. unfold bytes_Equal. by apply bool_decide_eq_true.
Qed.

(** The recomputed nodes of a level are at stored positions and as long as
    the stored ones. *)
Definition lenagree (dirty : Dirty) (s : MapStore) (L : N) : Prop :=
  forall i d, dirty !! i = Some d ->
    exists d0, stored s L i = Some d0 /\ length d0 = length d.

Lemma concat_eq_lengths (l1 l2 : list bytes) :
  Forall2 (fun a b => length a = length b) l1 l2 ->
  concat l1 = concat l2 -> l1 = l2.
Proof.
  induction 1 as [|a b l1 l2 Hab _ IH]; [done|]. cbn [concat]. intros Heq.
  apply app_inj_1 in Heq as [-> Heq]; [|done]. by rewrite IH.
Qed.

Lemma forall_or_const {A} (l : list A) (P : A -> Prop) (Q : Prop) :
  (forall x, x ∈ l -> P x \/ Q) -> (forall x, x ∈ l -> P x) \/ Q.
Proof.
  induction l as [|a l IH]; intros H.
  - left. intros x Hx. by apply elem_of_nil in Hx.
  - destruct (H a) as [Ha|HQ]; [left| |by right].
    destruct IH as [Hl|HQ]; [|left| by right].
    + intros x Hx. apply H. by right.
    + intros x [->|Hx]%elem_of_cons; [done|by apply Hl].
Qed.

Lemma levelUp_lenagree (s : MapStore) (B L : N) (dirty : Dirty) (hlen : nat) :
  Consistent B s -> (forall x, length (hashFunc x) = hlen) ->
  lenagree dirty s L -> L < treeHeight B (leafCount s) ->
  lenagree (levelUp hashFunc (storeTree s B) L dirty) s (L + 1).
Proof.
  intros Hc Hlen Hag HL p x Hp.
  apply lookup_levelUp in Hp as [(i & Hi & Hip) ->]. cbn [bfactor storeTree] in Hip.
  apply elem_of_dom in Hi as [d Hd]. apply Hag in Hd as (d0 & Hd0 & _).
  destruct (com_closed _ _ Hc L i) as [y Hy]; [by rewrite Hd0|done|].
  rewrite Hip in Hy. exists y. split; [done|].
  rewrite (com_consistent _ _ Hc L p y Hy HL). unfold parentData.
  by rewrite !Hlen.
Qed.

(** Whether the recomputation and the stored tree hash different inputs to
    one digest at the node [(L+1, p)]. *)
Definition collides_at (s : MapStore) (B L : N) (dirty : Dirty) (p : N) : bool :=
  let X := parentInput (storeTree s B) L dirty p in
  let Y := childrenData s B L p in
  negb (bytes_Equal X Y) && bytes_Equal (hashFunc X) (hashFunc Y).

(** Whether they do at one of the nodes recomputed within [k] levels. *)
Fixpoint climb_collides (k : nat) (s : MapStore) (B L : N) (dirty : Dirty) : bool :=
  match k with
  | O => false
  | S k' =>
      existsb (collides_at s B L dirty)
              (elements (parentIndexes (storeTree s B) dirty))
      || climb_collides k' s B (L + 1) (levelUp hashFunc (storeTree s B) L dirty)
  end.

(** Whether the verification of [leaves] meets such a node: one it
    recomputes from an input that is not the input the stored node was
    hashed from, to the digest the stored node has. *)
Definition Verify_collides (s : MapStore) (B : N) (leaves : list Node) : bool :=
  climb_collides (N.to_nat (treeHeight B (leafCount s))) s B 0 (dirtyOf leaves).

(** One level down: if the recomputed parents are the stored ones, so are
    the recomputed nodes, or one of the parents is hashed from two different
    inputs. *)
Lemma levelUp_agree_inv (s : MapStore) (B L : N) (dirty : Dirty) :
  1 <= B -> Consistent B s -> lenagree dirty s L ->
  L < treeHeight B (leafCount s) ->
  agree (levelUp hashFunc (storeTree s B) L dirty) s (L + 1) ->
  agree dirty s L
  \/ existsb (collides_at s B L dirty)
             (elements (parentIndexes (storeTree s B) dirty)) = true.
Proof.
  intros HB Hc Hlen HL Hup.
  assert (forall x, x ∈ map_to_list dirty ->
            stored s L x.1 = Some x.2
            \/ existsb (collides_at s B L dirty)
                       (elements (parentIndexes (storeTree s B) dirty)) = true)
    as Hall.
  { intros [i d] Hid. apply elem_of_map_to_list in Hid. cbn [fst snd].
    set (p := i / B).
    assert (p ∈ parentIndexes (storeTree s B) dirty) as Hpin.
    { unfold parentIndexes. apply elem_of_map. exists i. split; [done|].
      apply elem_of_dom. by exists d. }
    assert (levelUp hashFunc (storeTree s B) L dirty !! p
            = Some (parentData hashFunc (storeTree s B) L dirty p)) as Hp.
    { apply lookup_levelUp. split; [|done]. exists i. split; [|done].
      apply elem_of_dom. by exists d. }
    apply Hup in Hp. pose proof (com_consistent _ _ Hc L p _ Hp HL) as Hcons.
    change (parentData hashFunc (storeTree s B) L dirty p)
      with (hashFunc (parentInput (storeTree s B) L dirty p)) in Hcons.
    destruct (decide (parentInput (storeTree s B) L dirty p = childrenData s B L p))
      as [HXY|HXY].
    2:{ right. apply existsb_exists. exists p. split.
        - by apply list_elem_of_In, elem_of_elements.
        - unfold collides_at, bytes_Equal. rewrite bool_decide_eq_false_2 by done.
          by rewrite bool_decide_eq_true_2. }
    left. unfold parentInput, childrenData in HXY. cbn [bfactor storeTree] in HXY.
    apply concat_eq_lengths in HXY.
    - pose proof (N.div_mod i B ltac:(lia)) as Hdm.
      pose proof (N.mod_lt i B ltac:(lia)) as Hlt. fold p in Hdm.
      set (m := i mod B) in *.
      assert (seq 0 (N.to_nat B) !! N.to_nat m = Some (N.to_nat m)) as Hj.
      { apply lookup_seq. lia. }
      apply (f_equal (fun l => l !! N.to_nat m)) in HXY.
      rewrite !list_lookup_fmap, Hj in HXY. cbn in HXY.
      rewrite N2Nat.id, <- Hdm in HXY. injection HXY as HXY.
      unfold childData in HXY. rewrite Hid in HXY.
      destruct (Hlen i d Hid) as (d0 & Hd0 & _). rewrite Hd0 in HXY |- *.
      cbn in HXY. by rewrite HXY.
    - apply Forall2_fmap, Forall_Forall2_diag, Forall_forall. intros j _.
      unfold childData.
      destruct (dirty !! (B * p + N.of_nat j)) as [d'|] eqn:Hd'; [|done].
      destruct (Hlen _ _ Hd') as (d0 & Hd0 & Hl). by rewrite Hd0. }
  apply forall_or_const in Hall as [Hall|Hcol]; [left|by right].
  intros i d Hid. apply (Hall (i, d)). by apply elem_of_map_to_list.
Qed.

Lemma climb_sound (s : MapStore) (B : N) (hlen k fuel : nat) (L : N)
      (dirty : Dirty) (r : Node) :
  let h := treeHeight B (leafCount s) in
  1 <= B -> Consistent B s -> (forall x, length (hashFunc x) = hlen) ->
  h = L + N.of_nat k -> (k <= fuel)%nat ->
  lenagree dirty s L -> dirty <> ∅ ->
  (climb hashFunc fuel (storeTree s B) h L dirty).2 = Some r ->
  stored s h 0 = Some (Node_Data r) ->
  agree dirty s L \/ climb_collides k s B L dirty = true.
Proof.
  intros h HB Hc Hlen. revert fuel L dirty.
  induction k as [|k IH]; intros fuel L dirty Hh Hfuel Hag Hne Hr Hroot.
  - assert (L = h) as -> by lia. left.
    assert (forall i d, dirty !! i = Some d -> i = 0) as Hzero.
    { intros i d Hd. apply Hag in Hd as (d0 & Hd0 & _).
      destruct (com_top _ _ Hc h i) as [_ Hi]; [by rewrite Hd0|]. by apply Hi. }
    assert (dom dirty = {[ 0 ]}) as Hdom.
    { apply set_eq. intros i. rewrite elem_of_singleton, elem_of_dom. split.
      - intros [d Hd]. by apply Hzero in Hd.
      - intros ->. apply map_choose in Hne as (i & d & Hd).
        rewrite (Hzero _ _ Hd) in Hd. by exists d. }
    assert (rootAt h h dirty = option_map (mkNode (NewPosition h 0)) (dirty !! 0))
      as Hrt.
    { unfold rootAt. by rewrite N.leb_refl, Hdom, bool_decide_eq_true_2. }
    assert (is_Some (dirty !! 0)) as [d Hd].
    { apply elem_of_dom. rewrite Hdom. by apply elem_of_singleton. }
    rewrite Hd in Hrt. cbn in Hrt.
    assert (r = mkNode (NewPosition h 0) d) as ->.
    { destruct fuel; cbn [climb] in Hr; rewrite Hrt in Hr; cbn in Hr; congruence. }
    intros i d' Hd'. pose proof (Hzero _ _ Hd') as ->.
    cbn in Hroot. congruence.
  - destruct fuel as [|fuel]; [lia|]. cbn [climb] in Hr.
    rewrite rootAt_below in Hr by lia.
    destruct (climb hashFunc fuel (storeTree s B) h (L + 1)
                (levelUp hashFunc (storeTree s B) L dirty)) as [bs r'] eqn:Hcl.
    cbn in Hr. subst r'. cbn [climb_collides].
    destruct (IH fuel (L + 1) (levelUp hashFunc (storeTree s B) L dirty))
      as [Hup|Hcol]; [lia|lia| |by apply levelUp_nonempty|by rewrite Hcl|done| |].
    { eapply levelUp_lenagree; [done|done|done|]. fold h. lia. }
    + destruct (levelUp_agree_inv s B L dirty) as [Hag'|Hcol];
        [done|done|done|fold h; lia|done|by left|].
      right. by rewrite Hcol.
    + right. rewrite Hcol. by rewrite orb_true_r.
Qed.

Lemma dirtyOf_lookup_NoDup (leaves : list Node) (l : Node) :
  NoDup (map (fun l => Index (Node_Position l)) leaves) -> l ∈ leaves ->
  dirtyOf leaves !! Index (Node_Position l) = Some (Node_Data l).
Proof.
  unfold dirtyOf. induction leaves as [|x leaves IH] using rev_ind; [by inversion 2|].
  rewrite map_app, foldl_app. cbn [map foldl]. intros Hnd Hin.
  apply NoDup_app in Hnd as (Hnd & Hdisj & _).
  apply elem_of_app in Hin as [Hin|Hin%list_elem_of_singleton].
  - rewrite lookup_insert_ne; [by apply IH|].
    intros E. apply (Hdisj (Index (Node_Position l))).
    + apply list_elem_of_fmap. by exists l.
    + rewrite <- E. apply list_elem_of_singleton. done.
  - subst. by rewrite lookup_insert_eq.
Qed.

(** When a committed tree verifies a list of leaves at distinct committed
    positions, each as long as the committed leaf, every leaf is the
    committed one, or the verification has recomputed a node from an input
    that is not the one the stored node was hashed from. *)
Lemma Tree_Verify_sound (s : MapStore) (B : N) (hlen : nat) (leaves : list Node) :
  1 <= B -> Consistent B s -> (forall x, length (hashFunc x) = hlen) ->
  NoDup (map (fun l => Index (Node_Position l)) leaves) ->
  (forall l, l ∈ leaves ->
     exists d0, stored s 0 (Index (Node_Position l)) = Some d0
                /\ length d0 = length (Node_Data l)) ->
  Tree_Verify hashFunc (storeTree s B) leaves = true ->
  (forall l, l ∈ leaves ->
     stored s 0 (Index (Node_Position l)) = Some (Node_Data l))
  \/ Verify_collides s B leaves = true.
Proof.
  intros HB Hc Hlen Hnd Hl Hver.
  unfold Tree_Verify, Tree_Root in Hver.
  cbn [store storeTree GetHeight GetNode GetLeafCount MapStore_Store] in Hver.
  destruct (height s =? 0) eqn:Hh0; [done|].
  unfold MapStore_GetNode, pos_key in Hver. cbn [Level Index] in Hver.
  destruct (nodes s !! (height s - 1, 0)) as [droot|] eqn:Hroot; [|done].
  cbn [option_map] in Hver.
  destruct leaves as [|l0 leaves0] eqn:El; [done|]. rewrite <- El in *.
  destruct (forallb _ leaves); [|done].
  assert (nodes s <> ∅) as Hnodes.
  { intros He. by rewrite He, lookup_empty in Hroot. }
  rewrite (com_height _ _ Hc Hnodes) in Hroot.
  unfold Verify_collides.
  set (h := treeHeight B (leafCount s)) in *.
  replace (h + 1 - 1) with h in Hroot by lia.
  unfold Tree_Update in Hver. cbn [bfactor storeTree] in Hver. fold h in Hver.
  fold (storeTree s B) in Hver.
  destruct (climb hashFunc _ _ _ _ _) as [bs r] eqn:Hcl. cbn [Root] in Hver.
  destruct r as [r|]; [|done]. cbn [Node_Data] in Hver.
  apply bool_decide_eq_true in Hver.
  assert (leaves <> []) as Hne by (by rewrite El).
  destruct (climb_sound s B hlen (N.to_nat h) (climbFuel h (dirtyOf leaves)) 0
              (dirtyOf leaves) r) as [Hag|Hcol];
    [done|done|done|fold h; lia|unfold climbFuel; lia| |by apply dirtyOf_nonempty
    |fold h; by rewrite Hcl|fold h; unfold stored; by rewrite Hver| |by right].
  { intros i d Hd. apply dirtyOf_lookup in Hd as (l & Hin & <- & <-). by apply Hl. }
  left. intros l Hin. apply Hag. by apply dirtyOf_lookup_NoDup.
Qed.

End Consistency.

Section Updates.

Variable hashFunc : bytes -> bytes.

(** The nodes under recomputation [k] levels above the level [L] of [d]. *)
Fixpoint levelsUp (t : Tree) (k : nat) (L : N) (d : Dirty) : Dirty :=
  match k with
  | O => d
  | S k' => levelsUp t k' (L + 1) (levelUp hashFunc t L d)
  end.

Lemma levelsUp_S_r (t : Tree) (k : nat) (L : N) (d : Dirty) :
  levelsUp t (S k) L d = levelUp hashFunc t (L + N.of_nat k) (levelsUp t k L d).
Proof.
  revert L d. induction k as [|k IH]; intros L d.
  - cbn. by rewrite N.add_0_r.
  - change (levelsUp t (S (S k)) L d)
      with (levelsUp t (S k) (L + 1) (levelUp hashFunc t L d)).
    rewrite IH. cbn [levelsUp]. f_equal. lia.
Qed.

Lemma dom_levelUp (t : Tree) (L : N) (d : Dirty) (p : N) :
  p ∈ dom (levelUp hashFunc t L d) <-> exists i, i ∈ dom d /\ i / bfactor t = p.
Proof.
  rewrite elem_of_dom. split.
  - intros [x Hx]. by apply lookup_levelUp in Hx as [Hx _].
  - intros Hi. eexists. apply lookup_levelUp. by split.
Qed.

Lemma dom_levelsUp (t : Tree) (k : nat) (L : N) (d : Dirty) (p : N) :
  p ∈ dom (levelsUp t k L d) <->
  exists i, i ∈ dom d /\ i / bfactor t ^ N.of_nat k = p.
Proof.
  revert L d p. induction k as [|k IH]; intros L d p.
  - cbn. split; [intros Hp; exists p; by rewrite N.div_1_r|].
    intros (i & Hi & <-). by rewrite N.div_1_r.
  - cbn [levelsUp]. rewrite IH, Nat2N.inj_succ, N.pow_succ_r'. split.
    + intros (i' & (i & Hi & <-)%dom_levelUp & <-). exists i. split; [done|].
      by rewrite N.Div0.div_div.
    + intros (i & Hi & <-). exists (i / bfactor t). split.
      * apply dom_levelUp. by exists i.
      * by rewrite N.Div0.div_div.
Qed.

Lemma levelUp_empty (t : Tree) (L : N) : levelUp hashFunc t L ∅ = ∅.
Proof.
  apply map_empty. intros p. apply eq_None_not_Some. intros Hp.
  apply elem_of_dom, dom_levelUp in Hp as (i & Hi & _).
  by rewrite dom_empty_L in Hi.
Qed.

Lemma climb_empty (fuel : nat) (t : Tree) (h L : N) :
  climb hashFunc fuel t h L ∅ = ([], None).
Proof.
  revert L. induction fuel as [|fuel IH]; intros L; cbn [climb].
  - unfold rootAt. rewrite dom_empty_L, bool_decide_eq_false_2, andb_false_r; [done|].
    intros E. assert (0 ∈ (∅ : gset N)) as H0 by (rewrite E; set_solver). set_solver.
  - unfold rootAt at 1. rewrite dom_empty_L, bool_decide_eq_false_2, andb_false_r.
    + rewrite levelUp_empty, IH. unfold nodesOf. by rewrite map_to_list_empty.
    + intros E. assert (0 ∈ (∅ : gset N)) as H0 by (rewrite E; set_solver). set_solver.
Qed.

Lemma elem_of_nodesOf (L : N) (d : Dirty) (n : Node) :
  n ∈ nodesOf L d <->
  Level (Node_Position n) = L /\ d !! Index (Node_Position n) = Some (Node_Data n).
Proof.
  unfold nodesOf. rewrite list_elem_of_fmap. split.
  - intros ([i x] & -> & Hix). by apply elem_of_map_to_list in Hix.
  - intros [<- Hd]. exists (Index (Node_Position n), Node_Data n). split.
    + by destruct n as [[? ?] ?].
    + by apply elem_of_map_to_list.
Qed.

(** The branches an update emits are the recomputed nodes of the levels
    above the leaves, up to the root level. *)
Lemma elem_of_climb (t : Tree) (h : N) (m fuel : nat) (L : N) (d : Dirty) (n : Node) :
  h = L + N.of_nat m -> (m <= fuel)%nat ->
  dom (levelsUp t m L d) = {[ 0 ]} ->
  n ∈ (climb hashFunc fuel t h L d).1 <->
  exists k, (1 <= k <= m)%nat
    /\ Level (Node_Position n) = L + N.of_nat k
    /\ levelsUp t k L d !! Index (Node_Position n) = Some (Node_Data n).
Proof.
  revert fuel L d. induction m as [|m IH]; intros fuel L d Hh Hfuel Htop.
  - assert (L = h) as -> by lia. cbn [levelsUp] in Htop.
    assert (exists r, rootAt h h d = Some r) as [r Hr].
    { unfold rootAt. rewrite N.leb_refl, Htop, bool_decide_eq_true_2 by done.
      assert (is_Some (d !! 0)) as [x ->]; [|by eexists].
      apply elem_of_dom. rewrite Htop. set_solver. }
    assert ((climb hashFunc fuel t h h d).1 = []) as ->.
    { destruct fuel; cbn [climb]; by rewrite Hr. }
    split; [by intros ?%elem_of_nil|]. intros (k & ? & _). lia.
  - destruct fuel as [|fuel]; [lia|]. cbn [climb].
    rewrite rootAt_below by lia.
    destruct (climb hashFunc fuel t h (L + 1) (levelUp hashFunc t L d))
      as [bs r] eqn:Hcl. cbn [fst].
    specialize (IH fuel (L + 1) (levelUp hashFunc t L d) ltac:(lia) ltac:(lia) Htop).
    rewrite Hcl in IH. cbn [fst] in IH.
    rewrite elem_of_app, IH, elem_of_nodesOf. split.
    + intros [[HL Hd]|(k & Hk & HL & Hd)].
      * exists 1%nat. split; [lia|]. by split.
      * exists (S k). split; [lia|]. split; [lia|done].
    + intros (k & Hk & HL & Hd). destruct k as [|[|k]]; [lia| |].
      * left. by split.
      * right. exists (S k). split; [lia|]. split; [lia|done].
Qed.

Lemma levelsUp_empty (t : Tree) (k : nat) (L : N) : levelsUp t k L ∅ = ∅.
Proof.
  revert L. induction k as [|k IH]; intros L; [done|].
  cbn [levelsUp]. by rewrite levelUp_empty.
Qed.

Lemma foldl_store_node_notin (m : gmap (N * N) bytes) (l : list Node) (key : N * N) :
  (forall n, n ∈ l -> pos_key (Node_Position n) <> key) ->
  foldl store_node m l !! key = m !! key.
Proof.
  induction l as [|x l IH] using rev_ind; intros Hl; [done|].
  rewrite foldl_app. cbn [foldl]. unfold store_node at 1.
  rewrite lookup_insert_ne.
  - apply IH. intros n Hn. apply Hl, elem_of_app. by left.
  - apply Hl, elem_of_app. right. by apply list_elem_of_singleton.
Qed.

Lemma foldl_store_node_in (m : gmap (N * N) bytes) (l : list Node) (n : Node) :
  (forall n1 n2, n1 ∈ l -> n2 ∈ l ->
     pos_key (Node_Position n1) = pos_key (Node_Position n2) ->
     Node_Data n1 = Node_Data n2) ->
  n ∈ l ->
  foldl store_node m l !! pos_key (Node_Position n) = Some (Node_Data n).
Proof.
  induction l as [|x l IH] using rev_ind; intros Hf Hn; [by apply elem_of_nil in Hn|].
  assert (x ∈ l ++ [x]) as Hx.
  { apply elem_of_app. right. by apply list_elem_of_singleton. }
  rewrite foldl_app. cbn [foldl]. unfold store_node at 1.
  destruct (decide (pos_key (Node_Position x) = pos_key (Node_Position n))) as [E|E].
  - rewrite E, lookup_insert_eq. f_equal. by apply Hf.
  - rewrite lookup_insert_ne by done.
    apply elem_of_app in Hn as [Hn|Hn%list_elem_of_singleton]; [|by subst].
    apply IH; [|done]. intros n1 n2 H1 H2. apply Hf; apply elem_of_app; by left.
Qed.

(** An update a tree of leaves [0 .. leaf_count − 1] takes: the leaf count
    does not shrink, the changed leaves are at distinct indices of level 0
    below the new leaf count, and every new index has its leaf. *)
Record wf_update (s : MapStore) (leaves : list Node) (n' : N) : Prop := mkWfUpdate {
  wf_count : leafCount s <= n';
  wf_nodup : NoDup (map (fun l => Index (Node_Position l)) leaves);
  wf_leaves : forall l, l ∈ leaves ->
    Level (Node_Position l) = 0 /\ Index (Node_Position l) < n';
  wf_cover : forall i, leafCount s <= i < n' ->
    exists l, l ∈ leaves /\ Index (Node_Position l) = i
}.

(** The same, as a check. *)
Definition wf_updateb (s : MapStore) (leaves : list Node) (n' : N) : bool :=
  (leafCount s <=? n')
  && bool_decide (NoDup (map (fun l => Index (Node_Position l)) leaves))
  && forallb (fun l => (Level (Node_Position l) =? 0)
                       && (Index (Node_Position l) <? n')) leaves
  && forallb (fun i => existsb (fun l => Index (Node_Position l) =? N.of_nat i) leaves)
             (seq (N.to_nat (leafCount s)) (N.to_nat (n' - leafCount s))).

Lemma wf_updateb_correct (s : MapStore) (leaves : list Node) (n' : N) :
  wf_updateb s leaves n' = true -> wf_update s leaves n'.
Proof.
  unfold wf_updateb. rewrite !andb_true_iff, !forallb_forall.
  intros [[[Hn Hnd] Hl] Hc]. apply N.leb_le in Hn. split.
  - done.
  - by apply bool_decide_eq_true in Hnd.
  - intros l Hin%list_elem_of_In. apply Hl, andb_true_iff in Hin as [H0 Hi].
    apply N.eqb_eq in H0. apply N.ltb_lt in Hi. done.
  - intros i Hi. assert (In (N.to_nat i) (seq (N.to_nat (leafCount s))
                                 (N.to_nat (n' - leafCount s)))) as Hin.
    { apply in_seq. lia. }
    apply Hc, existsb_exists in Hin as (l & Hin & Hl').
    exists l. split; [by apply list_elem_of_In|].
    apply N.eqb_eq in Hl'. lia.
Qed.

(** The store after [tree.Update(leaves, n')] and [store.CommitUpdate(res)]. *)
Definition updated (s : MapStore) (B : N) (leaves : list Node) (n' : N) : MapStore :=
  MapStore_CommitUpdate s (Tree_Update hashFunc (storeTree s B) leaves n').

(** The nodes an update recomputes at level [L]. *)
Definition recomputed (s : MapStore) (B : N) (leaves : list Node) (n' L : N) : Dirty :=
  if L <=? treeHeight B n'
  then levelsUp (storeTree s B) (N.to_nat L) 0 (dirtyOf leaves)
  else ∅.

Lemma recomputed_top (s : MapStore) (B : N) (leaves : list Node) (n' : N) :
  2 <= B -> wf_update s leaves n' -> leaves <> [] ->
  dom (levelsUp (storeTree s B) (N.to_nat (treeHeight B n')) 0 (dirtyOf leaves))
  = {[ 0 ]}.
Proof.
  intros HB Hwf Hne. pose proof (treeHeight_bound B n' HB) as Hb.
  assert (forall i, i ∈ dom (dirtyOf leaves) -> i / B ^ treeHeight B n' = 0) as Hz.
  { intros i [d Hd]%elem_of_dom. apply dirtyOf_lookup in Hd as (l & Hl & <- & _).
    apply N.div_small. apply (wf_leaves _ _ _ Hwf) in Hl. lia. }
  apply set_eq. intros p. rewrite dom_levelsUp, N2Nat.id, elem_of_singleton.
  cbn [bfactor storeTree]. split.
  - intros (i & Hi & <-). by apply Hz.
  - intros ->. apply dirtyOf_nonempty, map_choose in Hne as (i & d & Hd).
    exists i. assert (i ∈ dom (dirtyOf leaves)) by (apply elem_of_dom; by exists d).
    split; [done|by apply Hz].
Qed.

Lemma elem_of_update (s : MapStore) (B : N) (leaves : list Node) (n' : N) (n : Node) :
  2 <= B -> wf_update s leaves n' -> leaves <> [] ->
  let res := Tree_Update hashFunc (storeTree s B) leaves n' in
  n ∈ Leaves res ++ Branches res <->
  recomputed s B leaves n' (Level (Node_Position n)) !! Index (Node_Position n)
  = Some (Node_Data n).
Proof.
  intros HB Hwf Hne res. subst res. unfold Tree_Update. cbn [bfactor storeTree].
  fold (storeTree s B). set (h := treeHeight B n').
  pose proof (elem_of_climb (storeTree s B) h (N.to_nat h)
                (climbFuel h (dirtyOf leaves)) 0 (dirtyOf leaves) n
                ltac:(lia) ltac:(unfold climbFuel; lia)
                (recomputed_top s B leaves n' HB Hwf Hne)) as Hcl.
  destruct (climb hashFunc _ _ _ _ _) as [bs r]. cbn [fst] in Hcl.
  cbn [Leaves Branches]. rewrite elem_of_app, Hcl. unfold recomputed. fold h.
  split.
  - intros [Hl|(k & Hk & HL & Hd)].
    + destruct (wf_leaves _ _ _ Hwf n Hl) as [-> _].
      rewrite (proj2 (N.leb_le 0 h)) by lia. cbn [N.to_nat levelsUp].
      apply dirtyOf_lookup_NoDup; [apply Hwf|done].
    + rewrite HL. rewrite (proj2 (N.leb_le _ _)) by lia.
      by rewrite N.add_0_l, Nat2N.id.
  - destruct (N.leb_spec (Level (Node_Position n)) h) as [HL|HL];
      [|by rewrite lookup_empty].
    destruct (N.eq_dec (Level (Node_Position n)) 0) as [E|E].
    + rewrite E. cbn [N.to_nat levelsUp]. intros Hd. left.
      apply dirtyOf_lookup in Hd as (l & Hl & Hi & Hd).
      destruct (wf_leaves _ _ _ Hwf l Hl) as [Hl0 _].
      replace n with l; [done|]. destruct n as [[? ?] ?], l as [[? ?] ?].
      cbn in *. congruence.
    + intros Hd. right. exists (N.to_nat (Level (Node_Position n))).
      split; [lia|]. split; [lia|done].
Qed.

(** What the store holds after an update: the recomputed node where there is
    one, and the node it held before elsewhere. *)
Lemma updated_stored (s : MapStore) (B : N) (leaves : list Node) (n' L i : N) :
  2 <= B -> wf_update s leaves n' ->
  stored (updated s B leaves n') L i
  = match recomputed s B leaves n' L !! i with
    | Some d => Some d
    | None => stored s L i
    end.
Proof.
  intros HB Hwf. unfold stored, updated, MapStore_CommitUpdate. cbn [nodes].
  destruct (decide (leaves = [])) as [->|Hne].
  - unfold recomputed, Tree_Update. cbn [dirtyOf foldl]. rewrite climb_empty.
    cbn [Leaves Branches app foldl]. rewrite levelsUp_empty.
    destruct (L <=? _); by rewrite lookup_empty.
  - pose proof (fun n => elem_of_update s B leaves n' n HB Hwf Hne) as Hin.
    cbn zeta in Hin.
    destruct (recomputed s B leaves n' L !! i) as [d|] eqn:Hd.
    + apply (foldl_store_node_in _ _ (mkNode (NewPosition L i) d)).
      * intros n1 n2 H1%Hin H2%Hin [= HL Hi]. rewrite HL, Hi in H1. congruence.
      * by apply Hin.
    + apply foldl_store_node_notin. intros n Hn%Hin [= <- <-]. congruence.
Qed.

Lemma updated_leafCount (s : MapStore) (B : N) (leaves : list Node) (n' : N) :
  leafCount (updated s B leaves n') = n'.
Proof.
  unfold updated, Tree_Update. by destruct (climb hashFunc _ _ _ _ _).
Qed.

Lemma updated_height (s : MapStore) (B : N) (leaves : list Node) (n' : N) :
  height (updated s B leaves n') = treeHeight B n' + 1.
Proof.
  unfold updated, Tree_Update. by destruct (climb hashFunc _ _ _ _ _).
Qed.

Lemma recomputed_succ (s : MapStore) (B : N) (leaves : list Node) (n' L : N) :
  L < treeHeight B n' ->
  recomputed s B leaves n' (L + 1)
  = levelUp hashFunc (storeTree s B) L (recomputed s B leaves n' L).
Proof.
  intros HL. unfold recomputed.
  rewrite !(proj2 (N.leb_le _ _)) by lia.
  replace (N.to_nat (L + 1)) with (S (N.to_nat L)) by lia.
  rewrite levelsUp_S_r. f_equal. lia.
Qed.

Lemma recomputed_index (s : MapStore) (B : N) (leaves : list Node) (n' L i : N) :
  wf_update s leaves n' ->
  i ∈ dom (recomputed s B leaves n' L) ->
  L <= treeHeight B n'
  /\ exists l, l ∈ leaves /\ Index (Node_Position l) / B ^ L = i.
Proof.
  intros Hwf. unfold recomputed. destruct (N.leb_spec L (treeHeight B n')) as [HL|HL].
  - intros (i0 & [d Hd]%elem_of_dom & <-)%dom_levelsUp. split; [done|].
    apply dirtyOf_lookup in Hd as (l & Hl & <- & _). exists l.
    by rewrite N2Nat.id.
  - by rewrite dom_empty_L.
Qed.

Lemma elem_of_recomputed (s : MapStore) (B : N) (leaves : list Node) (n' L : N)
      (l : Node) :
  wf_update s leaves n' -> l ∈ leaves -> L <= treeHeight B n' ->
  Index (Node_Position l) / B ^ L ∈ dom (recomputed s B leaves n' L).
Proof.
  intros Hwf Hl HL. unfold recomputed. rewrite (proj2 (N.leb_le _ _)) by done.
  apply dom_levelsUp. exists (Index (Node_Position l)). rewrite N2Nat.id.
  split; [|done]. apply elem_of_dom. exists (Node_Data l).
  apply dirtyOf_lookup_NoDup; [apply Hwf|done].
Qed.

Lemma treeHeight_above (b n k : N) :
  2 <= b -> 1 <= k -> k < treeHeight b n -> b ^ k < n.
Proof.
  intros Hb Hk. unfold treeHeight. destruct (N.leb_spec n 1); [lia|].
  apply ceil_log_spec. done.
Qed.

(** Committing an update keeps the tree in shape. *)
Lemma updated_Consistent (s : MapStore) (B : N) (leaves : list Node) (n' : N) :
  2 <= B -> Consistent hashFunc B s -> wf_update s leaves n' ->
  Consistent hashFunc B (updated s B leaves n').
Proof.
  intros HB Hc Hwf.
  pose proof (treeHeight_mono B _ _ HB (wf_count _ _ _ Hwf)) as Hmono.
  pose proof (treeHeight_pos B (leafCount s) HB) as Hpos.
  pose proof (treeHeight_bound B (leafCount s) HB) as Hbound.
  pose proof (treeHeight_bound B n' HB) as Hbound'.
  set (h := treeHeight B (leafCount s)) in *.
  split; rewrite ?updated_leafCount; set (h' := treeHeight B n') in *.
  - intros _. apply updated_height.
  - intros L i. rewrite updated_stored by done.
    destruct (recomputed s B leaves n' L !! i) as [d|] eqn:Hd.
    + intros _.
      destruct (recomputed_index s B leaves n' L i Hwf) as (HL & l & Hl & Hi);
        [apply elem_of_dom; by exists d|].
      split; [done|]. intros ->. rewrite <- Hi. apply N.div_small.
      apply (wf_leaves _ _ _ Hwf) in Hl. fold h'. lia.
    + intros Hs. destruct (com_top _ _ _ Hc L i Hs) as [HL Hi]. fold h in HL, Hi.
      split; [lia|]. intros ->. apply Hi. lia.
  - intros L i. rewrite !updated_stored by done. intros Hs HL.
    destruct (recomputed s B leaves n' L !! i) as [d|] eqn:Hd.
    + assert (i / B ∈ dom (recomputed s B leaves n' (L + 1))) as [x ->]%elem_of_dom;
        [|done].
      rewrite recomputed_succ by done. apply dom_levelUp. exists i.
      split; [apply elem_of_dom; by exists d|done].
    + destruct (recomputed s B leaves n' (L + 1) !! (i / B)) as [x|] eqn:Hx; [done|].
      destruct (com_top _ _ _ Hc L i Hs) as [HLh Hi]. fold h in HLh, Hi.
      destruct (N.eq_dec L h) as [->|HLne].
      * exfalso. pose proof (treeHeight_above B n' h HB Hpos HL) as Hgt.
        destruct (wf_cover _ _ _ Hwf (B ^ h) ltac:(lia)) as (l & Hl & Hli).
        pose proof (elem_of_recomputed s B leaves n' (h + 1) l Hwf Hl ltac:(lia))
          as Hin.
        rewrite Hli in Hin. rewrite (Hi eq_refl), N.Div0.div_0_l in Hx.
        replace (B ^ h / B ^ (h + 1)) with 0 in Hin.
        { apply elem_of_dom in Hin as [? Hin]. congruence. }
        symmetry. apply N.div_small. rewrite N.pow_add_r, N.pow_1_r.
        assert (0 < B ^ h) by (apply N.neq_0_lt_0, N.pow_nonzero; lia). nia.
      * apply (com_closed _ _ _ Hc). { done. } fold h. lia.
  - intros L p x. rewrite updated_stored by done. intros Hs HL.
    assert (forall c, stored (updated s B leaves n') L c
                      = match recomputed s B leaves n' L !! c with
                        | Some d => Some d
                        | None => stored s L c
                        end) as Hch by (intros c; by apply updated_stored).
    destruct (recomputed s B leaves n' (L + 1) !! p) as [y|] eqn:Hy.
    + injection Hs as <-. rewrite recomputed_succ in Hy by done.
      apply lookup_levelUp in Hy as [_ ->]. unfold parentData, childrenData.
      cbn [bfactor storeTree]. f_equal. f_equal. apply map_ext. intros j.
      rewrite Hch. unfold childData. by destruct (recomputed s B leaves n' L !! _).
    + destruct (com_top _ _ _ Hc (L + 1) p) as [HLh _]; [by rewrite Hs|].
      fold h in HLh.
      rewrite (com_consistent _ _ _ Hc L p x Hs) by (fold h; lia).
      f_equal. unfold childrenData. f_equal. apply map_ext_in. intros j Hj.
      apply in_seq in Hj. rewrite Hch.
      destruct (recomputed s B leaves n' L !! (B * p + N.of_nat j)) as [d|] eqn:Hd;
        [|done].
      exfalso.
      assert (p ∈ dom (recomputed s B leaves n' (L + 1))) as [? Hp]%elem_of_dom;
        [|congruence].
      rewrite recomputed_succ by done. apply dom_levelUp.
      exists (B * p + N.of_nat j). split; [apply elem_of_dom; by exists d|].
      cbn [bfactor storeTree]. symmetry. apply (N.div_unique _ _ _ (N.of_nat j)); lia.
Qed.

(** The trees built from the empty store by such updates. *)
Inductive committed (B : N) : MapStore -> Prop :=
| committed_new : committed B NewMapStore
| committed_update s leaves n' :
    committed B s -> wf_update s leaves n' ->
    committed B (updated s B leaves n').

Lemma NewMapStore_Consistent (B : N) : Consistent hashFunc B NewMapStore.
Proof.
  split; unfold stored; cbn [nodes NewMapStore].
  - done.
  - intros L i [x Hx]. by rewrite lookup_empty in Hx.
  - intros L i [x Hx]. by rewrite lookup_empty in Hx.
  - intros L p x Hx. by rewrite lookup_empty in Hx.
Qed.

Lemma committed_Consistent (B : N) (s : MapStore) :
  2 <= B -> committed B s -> Consistent hashFunc B s.
Proof.
  intros HB. induction 1 as [|s leaves n' _ IH Hwf].
  - apply NewMapStore_Consistent.
  - by apply updated_Consistent.
Qed.

Lemma wf_update_leaves7 : wf_update NewMapStore leaves7 7.
Proof. apply wf_updateb_correct. by vm_compute. Qed.

(** The leaves of a committed tree are at the indices below its leaf count. *)
Lemma committed_leaves (B : N) (s : MapStore) (i : N) :
  2 <= B -> committed B s -> is_Some (stored s 0 i) <-> i < leafCount s.
Proof.
  intros HB Hc. revert i. induction Hc as [|s leaves n' _ IH Hwf]; intros i.
  - unfold stored. cbn. rewrite lookup_empty. split; [by intros [? ?]|lia].
  - rewrite updated_stored, updated_leafCount by done.
    unfold recomputed. change (N.to_nat 0) with 0%nat. cbn [levelsUp].
    replace (0 <=? treeHeight B n') with true by (symmetry; by apply N.leb_le, N.le_0_l).
    destruct (dirtyOf leaves !! i) as [d|] eqn:Hd.
    + apply dirtyOf_lookup in Hd as (l & Hl & <- & _).
      split; [intros _|by intros _; eexists]. by apply (wf_leaves _ _ _ Hwf).
    + rewrite IH. pose proof (wf_count _ _ _ Hwf). split; [lia|].
      intros Hi. destruct (N.lt_ge_cases i (leafCount s)) as [|Hge]; [done|].
      destruct (wf_cover _ _ _ Hwf i ltac:(lia)) as (l & Hl & <-).
      rewrite (dirtyOf_lookup_NoDup leaves l) in Hd; [done|apply Hwf|done].
Qed.

Lemma NewTree_bfactor_ge (st : Store) (opts : TreeOptions) :
  2 <= bfactor (NewTree st opts).
Proof. unfold NewTree. cbn. destruct (N.ltb_spec (BranchFactor opts) 2); lia. Qed.

(** C7.  [verify] returns false for an empty list of leaves, for a list with
    a leaf whose index is not below the leaf count, for a list with a node
    not at level 0, and when the tree has no root.  On a committed tree, one
    built from the empty store by updates that supply every new index, it
    returns true on every non-empty list of committed leaves; and when the
    hash has digests of one length and the supplied leaves are at distinct
    indices, each as long as the committed leaf, it returns false as soon as
    one supplied leaf differs from the committed one, unless the hash
    collides on the verification itself: at one of the nodes it recomputes,
    the input it hashes is not the input the committed node was hashed from,
    and the two have the same digest ([Verify_collides], a check that runs
    on the tree and the leaves). *)
Theorem Tree_Verify_committed :
  (forall t : Tree, Tree_Verify hashFunc t [] = false)
  /\ (forall (t : Tree) (leaves : list Node) (l : Node),
        l ∈ leaves -> GetLeafCount (store t) <= Index (Node_Position l) ->
        Tree_Verify hashFunc t leaves = false)
  /\ (forall (t : Tree) (leaves : list Node) (l : Node),
        l ∈ leaves -> Level (Node_Position l) <> 0 ->
        Tree_Verify hashFunc t leaves = false)
  /\ (forall (t : Tree) (leaves : list Node),
        Tree_Root t = None -> Tree_Verify hashFunc t leaves = false)
  /\ (forall (s : MapStore) (opts : TreeOptions) (leaves : list Node),
        let t := NewTree (MapStore_Store s) opts in
        committed (bfactor t) s -> leaves <> [] ->
        (forall l, l ∈ leaves ->
           Level (Node_Position l) = 0
           /\ stored s 0 (Index (Node_Position l)) = Some (Node_Data l)) ->
        Tree_Verify hashFunc t leaves = true)
  /\ (forall (s : MapStore) (opts : TreeOptions) (leaves : list Node)
             (hlen : nat) (l : Node),
        let t := NewTree (MapStore_Store s) opts in
        committed (bfactor t) s ->
        (forall x, length (hashFunc x) = hlen) ->
        NoDup (map (fun l => Index (Node_Position l)) leaves) ->
        (forall l, l ∈ leaves ->
           exists d, stored s 0 (Index (Node_Position l)) = Some d
                     /\ length d = length (Node_Data l)) ->
        l ∈ leaves ->
        stored s 0 (Index (Node_Position l)) <> Some (Node_Data l) ->
        Tree_Verify hashFunc t leaves = false
        \/ Verify_collides hashFunc s (bfactor t) leaves = true).
Proof.
  repeat split.
  - apply Tree_Verify_empty.
  - intros t leaves l Hl Hi. apply (Tree_Verify_reject hashFunc t leaves l Hl).
    by right.
  - intros t leaves l Hl Hi. apply (Tree_Verify_reject hashFunc t leaves l Hl).
    by left.
  - intros t leaves. apply Tree_Verify_no_root.
  - intros s opts leaves t Hc Hne Hl.
    pose proof (NewTree_bfactor_ge (MapStore_Store s) opts) as HB. fold t in HB.
    apply (Tree_Verify_complete hashFunc s (bfactor t) leaves);
      [by apply committed_Consistent|done|].
    intros l Hin. destruct (Hl l Hin) as [HL Hs]. split; [done|]. split; [|done].
    apply (committed_leaves (bfactor t)); [done|done|by rewrite Hs].
  - intros s opts leaves hlen l t Hc Hlen Hnd Hst Hin Hdiff.
    pose proof (NewTree_bfactor_ge (MapStore_Store s) opts) as HB. fold t in HB.
    destruct (Tree_Verify hashFunc t leaves) eqn:Hv; [|by left].
    destruct (Tree_Verify_sound hashFunc s (bfactor t) hlen leaves)
      as [Hall|Hcol]; [lia|by apply committed_Consistent|done|done|done|done| |by right].
    by destruct (Hdiff (Hall l Hin)).
Qed.

(** [TestTree_Verify]: before the commit there is no root; after it the
    empty list, a node of level 1 and a leaf of index 7 are refused, and all
    the leaves, the leaf 2, and the leaves 1 and 5 are verified. *)
Lemma Tree_Verify_test :
  let t := tree3 (store7 hashFunc) in
  Tree_Verify hashFunc (tree3 NewMapStore) leaves7 = false
  /\ Tree_Verify hashFunc t [] = false
  /\ Tree_Verify hashFunc t [mkNode (NewPosition 1 0) [x01]] = false
  /\ Tree_Verify hashFunc t [mkNode (NewPosition 0 7) [x07]] = false
  /\ Tree_Verify hashFunc t leaves7 = true
  /\ Tree_Verify hashFunc t [leaf 2 x02] = true
  /\ Tree_Verify hashFunc t [leaf 1 x01; leaf 5 x05] = true.
Proof.
  assert (Consistent hashFunc 3 (store7 hashFunc)) as Hc.
  { apply committed_Consistent; [lia|].
    apply (committed_update 3 NewMapStore leaves7 7);
      [constructor|apply wf_update_leaves7]. }
  assert (forall leaves, leaves <> [] ->
            forallb (fun l => bool_decide (l ∈ leaves7)) leaves = true ->
            Tree_Verify hashFunc (tree3 (store7 hashFunc)) leaves = true) as Htrue.
  { intros leaves Hne Hsub.
    apply (Tree_Verify_complete hashFunc (store7 hashFunc) 3 leaves Hc Hne).
    intros l Hl. rewrite forallb_forall in Hsub.
    apply list_elem_of_In, Hsub, bool_decide_eq_true in Hl. unfold leaves7 in Hl.
    repeat (apply elem_of_cons in Hl as [->|Hl]; [by vm_compute|]).
    by apply elem_of_nil in Hl. }
  cbv zeta. refine (conj _ (conj _ (conj _ (conj _ (conj _ (conj _ _)))))).
  - by apply Tree_Verify_no_root.
  - apply Tree_Verify_empty.
  - apply (Tree_Verify_reject hashFunc _ _ (mkNode (NewPosition 1 0) [x01]));
      [set_solver|by left].
  - apply (Tree_Verify_reject hashFunc _ _ (mkNode (NewPosition 0 7) [x07]));
      [set_solver|right; by vm_compute].
  - by apply Htrue.
  - by apply Htrue.
  - by apply Htrue.
Qed.

End Updates.

(** *** Leaves of different lengths *)

(** Two leaves, of one and of two bytes, and the store after committing
    them to an empty tree of branch factor 3. *)
Definition leaves_ab : list Node :=
  [mkNode (NewPosition 0 0) [x00]; mkNode (NewPosition 0 1) [x01; x02]].

Definition store_ab (hashFunc : bytes -> bytes) : MapStore :=
  updated hashFunc NewMapStore 3 leaves_ab 2.

(** The same three bytes, cut after the second. *)
Definition altered_ab : list Node :=
  [mkNode (NewPosition 0 0) [x00; x01]; mkNode (NewPosition 0 1) [x02]].

(** A digest of one byte: the sum of the bytes. *)
Definition checksum (b : bytes) : bytes :=
  [byte_of_N (fold_right (fun x acc => (Byte.to_N x + acc) mod 256) 0 b)].

Lemma wf_update_leaves_ab : wf_update NewMapStore leaves_ab 2.
Proof. apply wf_updateb_correct. by vm_compute. Qed.

(** One leaf, then a leaf at index 9 with the indices [1 .. 8] left out. *)
Definition store_gap (hashFunc : bytes -> bytes) : MapStore :=
  updated hashFunc (updated hashFunc NewMapStore 3 [leaf 0 x00] 1) 3 [leaf 9 x09] 10.

(** C7, as stated, fails on leaves of different lengths: a tree committed
    with the leaves [[0]] and [[1,2]] verifies the leaves [[0,1]] and [[2]]
    at the same indices, whatever the hash function.  It also verifies a list
    where an altered leaf comes before the committed leaf of the same index
    (the last wins), and it verifies no empty list of leaves.  And after an
    update that leaves indices out, the committed leaf [0] is verified only
    when two different inputs of the hash collide. *)
Lemma Tree_Verify_altered_counterexample :
  (forall hashFunc, committed hashFunc 3 (store_ab hashFunc))
  /\ (forall hashFunc, stored (store_ab hashFunc) 0 1 = Some [x01; x02])
  /\ (forall hashFunc,
        Tree_Verify hashFunc (tree3 (store_ab hashFunc)) altered_ab = true)
  /\ (forall hashFunc,
        Tree_Verify hashFunc (tree3 (store_ab hashFunc))
          [mkNode (NewPosition 0 1) [xff]; mkNode (NewPosition 0 1) [x01; x02]]
        = true)
  /\ (forall hashFunc,
        Tree_Verify hashFunc (tree3 (store_ab hashFunc)) [] = false)
  /\ (forall hashFunc,
        stored (store_gap hashFunc) 0 0 = Some [x00]
        /\ Tree_Verify hashFunc (tree3 (store_gap hashFunc)) [leaf 0 x00]
           = bytes_Equal
               (hashFunc (hashFunc (hashFunc [x00]) ++ hashFunc (hashFunc [x09])))
               (hashFunc (hashFunc (hashFunc [x09])))).
Proof.
  refine (conj _ (conj _ (conj _ (conj _ (conj _ _))))); intros hashFunc.
  - apply committed_update; [constructor|apply wf_update_leaves_ab].
  - by vm_compute.
  - unfold Tree_Verify.
    assert (Tree_Root (tree3 (store_ab hashFunc))
            = Some (mkNode (NewPosition 1 0) (hashFunc [x00; x01; x02]))) as ->
      by (vm_compute; fold (@app byte); rewrite ?app_nil_r; reflexivity).
    assert (Root (Tree_Update hashFunc (tree3 (store_ab hashFunc)) altered_ab
                    (GetLeafCount (store (tree3 (store_ab hashFunc)))))
            = Some (mkNode (NewPosition 1 0) (hashFunc [x00; x01; x02]))) as ->
      by (vm_compute; fold (@app byte); rewrite ?app_nil_r; reflexivity).
    cbn. by apply bool_decide_eq_true_2.
  - unfold Tree_Verify.
    assert (Tree_Root (tree3 (store_ab hashFunc))
            = Some (mkNode (NewPosition 1 0) (hashFunc [x00; x01; x02]))) as ->
      by (vm_compute; fold (@app byte); rewrite ?app_nil_r; reflexivity).
    match goal with |- context [Root ?u] =>
      assert (u.(Root) = Some (mkNode (NewPosition 1 0) (hashFunc [x00; x01; x02])))
        as -> by (vm_compute; fold (@app byte); rewrite ?app_nil_r; reflexivity)
    end.
    cbn. by apply bool_decide_eq_true_2.
  - apply Tree_Verify_empty.
  - split; [by vm_compute|]. unfold Tree_Verify.
    assert (Tree_Root (tree3 (store_gap hashFunc))
            = Some (mkNode (NewPosition 3 0)
                      (hashFunc (hashFunc (hashFunc [x09]))))) as ->
      by (vm_compute; fold (@app byte); rewrite ?app_nil_r; reflexivity).
    match goal with |- context [Root ?u] =>
      assert (u.(Root)
              = Some (mkNode (NewPosition 3 0)
                        (hashFunc (hashFunc (hashFunc [x00])
                                   ++ hashFunc (hashFunc [x09])))))
        as -> by (vm_compute; fold (@app byte); rewrite ?app_nil_r; reflexivity)
    end.
    reflexivity.
Qed.

(** The tree of [TestTree_Verify] under the one-byte digest: the leaves 1
    and 5 are verified, and with the leaf 1 altered they are not: the digest
    does not collide on the nodes this verification recomputes. *)
Lemma Tree_Verify_committed_witness :
  committed checksum 3 (store7 checksum)
  /\ Tree_Verify checksum (tree3 (store7 checksum)) [leaf 1 x01; leaf 5 x05] = true
  /\ Verify_collides checksum (store7 checksum) 3 [leaf 1 x04; leaf 5 x05] = false
  /\ Tree_Verify checksum (tree3 (store7 checksum)) [leaf 1 x04; leaf 5 x05] = false.
Proof.
  assert (committed checksum 3 (store7 checksum)) as Hc.
  { apply (committed_update checksum 3 NewMapStore leaves7 7);
      [constructor|apply wf_update_leaves7]. }
  destruct (Tree_Verify_committed checksum) as (_ & _ & _ & _ & Htrue & Hfalse).
  assert (Verify_collides checksum (store7 checksum) 3 [leaf 1 x04; leaf 5 x05]
          = false) as Hno by (by vm_compute).
  split; [exact Hc|]. split; [|split; [exact Hno|]].
  - apply (Htrue (store7 checksum) (mkTreeOptions 3)); [exact Hc|done|].
    intros l Hl. repeat (apply elem_of_cons in Hl as [->|Hl]; [by vm_compute|]).
    by apply elem_of_nil in Hl.
  - destruct (Hfalse (store7 checksum) (mkTreeOptions 3) [leaf 1 x04; leaf 5 x05]
                1%nat (leaf 1 x04)) as [Hv|Hcol].
    + exact Hc.
    + reflexivity.
    + apply (bool_decide_unpack _). by vm_compute.
    + intros l Hl.
      repeat (apply elem_of_cons in Hl as [->|Hl];
              [eexists; split; [by vm_compute|reflexivity]|]).
      by apply elem_of_nil in Hl.
    + set_solver.
    + by vm_compute.
    + exact Hv.
    + change (bfactor (NewTree (MapStore_Store (store7 checksum)) (mkTreeOptions 3)))
        with 3 in Hcol. congruence.
Defined.

End merkle.

(* ================================================================== *)
(** ** Package [storage]: the commit pipeline and state verification *)

Module storage.

(** Modelled from the spec: a state change is
    [{key, value, prev_value, tree_index, prev_tree_index}]. *)
Record StateChange := mkStateChange {
  sc_Key : bytes;
  sc_Value : bytes;
  sc_PrevValue : option bytes;
  sc_TreeIndex : option bytes;
  sc_PrevTreeIndex : option bytes
}.

(** Modelled from the spec: a block commit is [{block_hash, state_changes[],
    elapsed_exec, elapsed_merkle, old_block_txs[], leaf_count, merkle_root}];
    the elapsed times are readings of the clock, of an abstract type. *)
Record BlockCommit (Elapsed : Type) := mkBlockCommit {
  bc_Hash : bytes;
  bc_StateChanges : list StateChange;
  bc_ElapsedExec : option Elapsed;
  bc_ElapsedMerkle : option Elapsed;
  bc_OldBlockTxs : list bytes;
  bc_LeafCount : bytes;
  bc_MerkleRoot : bytes
}.
Arguments mkBlockCommit {Elapsed}.
Arguments bc_Hash {Elapsed}.
Arguments bc_StateChanges {Elapsed}.
Arguments bc_ElapsedExec {Elapsed}.
Arguments bc_ElapsedMerkle {Elapsed}.
Arguments bc_OldBlockTxs {Elapsed}.
Arguments bc_LeafCount {Elapsed}.
Arguments bc_MerkleRoot {Elapsed}.

(** A Go result [(value, error)]. *)
Inductive result (A E : Type) : Type :=
| Ok (a : A)
| Err (e : E).
Arguments Ok {A E} a.
Arguments Err {A E} e.

(** [big.Int.Bytes()]: the shortest big-endian encoding of an unsigned
    integer (empty for 0); [big.Int.SetBytes] reads it back ([be_value]). *)
Fixpoint bigint_Bytes_from (fuel : nat) (n : N) (acc : bytes) : bytes :=
  match fuel with
  | O => acc
  | S fuel' =>
      if n =? 0 then acc
      else bigint_Bytes_from fuel' (n / 256) (byte_of_N n :: acc)
  end.

Definition bigint_Bytes (n : N) : bytes := bigint_Bytes_from (N.size_nat n) n [].

Definition bigint_SetBytes (b : bytes) : N := be_value b.

Section Storage.

(** The embedded key-value engine: a database state [DB], a deferred write
    [updateFunc], and [updateBadgerDB], which runs one batch of writes in one
    transaction and returns the new state with the transaction's error.
    Errors are messages. *)
Variable DB : Type.
Variable updateFunc : Type.
Variable Elapsed : Type.
Abbreviation err := String.string.
Variable badger_update : DB -> list updateFunc -> DB * option err.

(** The stores, built over a read-only getter on the database ([New]); the
    writes they prepare are deferred [updateFunc]s. *)
Variable chainStore_setBlock : Block -> list updateFunc.
Variable chainStore_setLastQC : option QuorumCert -> updateFunc.
Variable chainStore_setTxs : list Transaction -> list updateFunc.
Variable chainStore_setTxCommits : list TxCommit -> list updateFunc.
Variable chainStore_setBlockCommit : BlockCommit Elapsed -> updateFunc.
Variable chainStore_setBlockHeight : N -> updateFunc.
Variable stateStore_commitStateChanges : list StateChange -> list updateFunc.
Variable merkleStore_commitUpdate : option merkle.UpdateResult -> list updateFunc.

Variable stateStore_getState : DB -> bytes -> bytes.
Variable stateStore_getMerkleIndex : DB -> bytes -> result bytes err.
Variable merkleStore : DB -> merkle.Store.

(** The hash of the state store and of the Merkle tree ([New]):
    [crypto.SHA3_256]. *)
Variable sha3_256 : bytes -> bytes.
Variable MerkleBranchFactor : N.
Variable clock_elapsed : Elapsed.

(** What the process does to the outside, in order: a batch handed to
    [updateBadgerDB], and the operations on [mtxWriteState]. *)
Inductive event : Type :=
| Update (fns : list updateFunc)
| Lock
| Unlock
| RLock
| RUnlock.

Record World := mkWorld { db : DB; events : list event }.

Definition emit (w : World) (e : event) : World :=
  mkWorld (db w) (events w ++ [e]).

Definition updateBadgerDB (w : World) (fns : list updateFunc)
  : World * option err :=
  let '(db', e) := badger_update (db w) fns in
  (mkWorld db' (events w ++ [Update fns]), e).

Record CommitData := mkCommitData {
  cd_Block : Block;
  cd_QC : option QuorumCert;
  cd_Transactions : list Transaction;
  cd_BlockCommit : BlockCommit Elapsed;
  cd_TxCommits : list TxCommit;
  cd_merkleUpdate : option merkle.UpdateResult
}.

Definition merkleTree (d : DB) : merkle.Tree :=
  merkle.NewTree (merkleStore d) (merkle.mkTreeOptions MerkleBranchFactor).

(** [stateStore.sumStateValue]: the digest of the value under the store's
    hash function. *)
Definition stateStore_sumStateValue (value : bytes) : bytes := sha3_256 value.

(** Modelled from the spec: "load prev values and prev tree_indexes" of the
    state changes. *)
Definition stateStore_loadPrevValues (d : DB) (scs : list StateChange)
  : list StateChange :=
  map (fun sc => mkStateChange (sc_Key sc) (sc_Value sc)
                   (Some (stateStore_getState d (sc_Key sc)))
                   (sc_TreeIndex sc) (sc_PrevTreeIndex sc)) scs.

Definition stateStore_loadPrevTreeIndexes (d : DB) (scs : list StateChange)
  : list StateChange :=
  map (fun sc => mkStateChange (sc_Key sc) (sc_Value sc) (sc_PrevValue sc)
                   (sc_TreeIndex sc)
                   (match stateStore_getMerkleIndex d (sc_Key sc) with
                    | Ok idx => Some idx
                    | Err _ => None
                    end)) scs.

(** Modelled from the spec: "allocate tree_indexes for new keys starting at
    prev_leaf_count"; a key that has a tree index keeps it.  Returns the
    state changes with their tree indexes and the new leaf count. *)
Fixpoint stateStore_setNewTreeIndexes (scs : list StateChange) (leafCount : N)
  : list StateChange * N :=
  match scs with
  | [] => ([], leafCount)
  | sc :: rest =>
      match sc_PrevTreeIndex sc with
      | Some idx =>
          let '(rest', n) := stateStore_setNewTreeIndexes rest leafCount in
          (mkStateChange (sc_Key sc) (sc_Value sc) (sc_PrevValue sc)
             (Some idx) (sc_PrevTreeIndex sc) :: rest', n)
      | None =>
          let '(rest', n) := stateStore_setNewTreeIndexes rest (leafCount + 1) in
          (mkStateChange (sc_Key sc) (sc_Value sc) (sc_PrevValue sc)
             (Some (bigint_Bytes leafCount)) (sc_PrevTreeIndex sc) :: rest', n)
      end
  end.

(** Modelled from the spec: "compute updated Merkle nodes": the leaf of a
    state change is at its tree index and holds the digest of its value. *)
Definition stateStore_computeUpdatedTreeNodes (scs : list StateChange)
  : list merkle.Node :=
  map (fun sc => merkle.mkNode
                   (merkle.NewPosition 0
                      (bigint_SetBytes (default [] (sc_TreeIndex sc))))
                   (stateStore_sumStateValue (sc_Value sc))) scs.

(** [computeMerkleUpdate]: reads the previous values and tree indexes,
    allocates the new tree indexes from the previous leaf count, computes the
    updated tree, and records the leaf count and the root in the block commit.
    It reads the database and writes the commit data only.  The root is read
    through [data.merkleUpdate.Root]. *)
Definition computeMerkleUpdate (d : DB) (data : CommitData) : go CommitData :=
  let scs := stateStore_loadPrevValues d (bc_StateChanges (cd_BlockCommit data)) in
  let scs := stateStore_loadPrevTreeIndexes d scs in
  let prevLeafCount := merkle.GetLeafCount (merkleStore d) in
  let '(scs, leafCount) := stateStore_setNewTreeIndexes scs prevLeafCount in
  let nodes := stateStore_computeUpdatedTreeNodes scs in
  let upd := merkle.Tree_Update sha3_256 (merkleTree d) nodes leafCount in
  root ← deref (merkle.Root upd);
  let bc := cd_BlockCommit data in
  let bc := mkBlockCommit (bc_Hash bc) scs (bc_ElapsedExec bc)
              (bc_ElapsedMerkle bc) (bc_OldBlockTxs bc)
              (bigint_Bytes (merkle.LeafCount upd)) (merkle.Node_Data root) in
  Ret (mkCommitData (cd_Block data) (cd_QC data) (cd_Transactions data) bc
         (cd_TxCommits data) (Some upd)).

Definition SetElapsedMerkle (data : CommitData) : CommitData :=
  let bc := cd_BlockCommit data in
  mkCommitData (cd_Block data) (cd_QC data) (cd_Transactions data)
    (mkBlockCommit (bc_Hash bc) (bc_StateChanges bc) (bc_ElapsedExec bc)
       (Some clock_elapsed) (bc_OldBlockTxs bc) (bc_LeafCount bc)
       (bc_MerkleRoot bc))
    (cd_TxCommits data) (cd_merkleUpdate data).

(** [writeChainData] *)
Definition writeChainData (w : World) (data : CommitData) : World * option err :=
  let updFns := [] in
  let updFns := updFns ++ chainStore_setBlock (cd_Block data) in
  let updFns := updFns ++ [chainStore_setLastQC (cd_QC data)] in
  let updFns := updFns ++ chainStore_setTxs (cd_Transactions data) in
  let updFns := updFns ++ chainStore_setTxCommits (cd_TxCommits data) in
  updateBadgerDB w updFns.

(** [writeBlockCommit] *)
Definition writeBlockCommit (w : World) (data : CommitData) : World * option err :=
  let updFn := chainStore_setBlockCommit (cd_BlockCommit data) in
  updateBadgerDB w [updFn].

(** [writeStateMerkleTree]: commit state values and merkle tree in one
    transaction; the deferred [Unlock] runs when the function returns. *)
Definition writeStateMerkleTree (w : World) (data : CommitData)
  : World * option err :=
  if (length (bc_StateChanges (cd_BlockCommit data)) =? 0)%nat
  then (w, None)
  else
    let w := emit w Lock in
    let updFns := stateStore_commitStateChanges
                    (bc_StateChanges (cd_BlockCommit data)) in
    let updFns := updFns ++ merkleStore_commitUpdate (cd_merkleUpdate data) in
    let '(w, e) := updateBadgerDB w updFns in
    (emit w Unlock, e).

(** [setCommitedBlockHeight] *)
Definition setCommitedBlockHeight (w : World) (height : N) : World * option err :=
  let updFn := chainStore_setBlockHeight height in
  updateBadgerDB w [updFn].

(** [Block.Height()] reads [blk.data]. *)
Definition Block_Height_of (blk : Block) : go N :=
  d ← deref (Block_data blk); Ret (Block_Height d).

(** [writeCommitData] *)
Definition writeCommitData (w : World) (data : CommitData)
  : World * go (option err) :=
  let '(w, e) := writeChainData w data in
  match e with
  | Some e => (w, Ret (Some e))
  | None =>
      let '(w, e) := writeBlockCommit w data in
      match e with
      | Some e => (w, Ret (Some e))
      | None =>
          let '(w, e) := writeStateMerkleTree w data in
          match e with
          | Some e => (w, Ret (Some e))
          | None =>
              match Block_Height_of (cd_Block data) with
              | Panic => (w, Panic)
              | Ret height =>
                  let '(w, e) := setCommitedBlockHeight w height in
                  (w, Ret e)
              end
          end
      end
  end.

(** [commit]; the commit data is a pointer, and the caller sees what
    [computeMerkleUpdate] recorded in it. *)
Definition commit (w : World) (data : CommitData)
  : World * CommitData * go (option err) :=
  let computed :=
    if (0 <? length (bc_StateChanges (cd_BlockCommit data)))%nat
    then data ← computeMerkleUpdate (db w) data; Ret (SetElapsedMerkle data)
    else Ret data in
  match computed with
  | Panic => (w, data, Panic)
  | Ret data =>
      let '(w, r) := writeCommitData w data in
      match r with
      | Ret (Some e) => (w, data, Ret (Some e))
      | Ret None => (w, data, Ret None)
      | Panic => (w, data, Panic)
      end
  end.

(** [Storage.Commit] *)
Definition Commit (w : World) (data : CommitData)
  : World * CommitData * go (option err) :=
  commit w data.

(** [Storage.VerifyState]; the deferred [RUnlock] runs on every return. *)
Definition VerifyState (w : World) (key : bytes) : World * result bytes err :=
  let w := emit w RLock in
  let r :=
    let value := stateStore_getState (db w) key in
    match stateStore_getMerkleIndex (db w) key with
    | Err e => Err (String.append "state not found: " e)
    | Ok merkleIdx =>
        let node := merkle.mkNode
                      (merkle.NewPosition 0 (bigint_SetBytes merkleIdx))
                      (stateStore_sumStateValue value) in
        if negb (merkle.Tree_Verify sha3_256 (merkleTree (db w)) [node])
        then Err "merkle verification failed"%string
        else Ok value
    end in
  (emit w RUnlock, r).

(** *** The order of the sub-writes of a commit *)

(** The four batches. *)
Definition chain_batch (data : CommitData) : list updateFunc :=
  chainStore_setBlock (cd_Block data) ++ [chainStore_setLastQC (cd_QC data)]
  ++ chainStore_setTxs (cd_Transactions data)
  ++ chainStore_setTxCommits (cd_TxCommits data).

Definition block_commit_batch (data : CommitData) : list updateFunc :=
  [chainStore_setBlockCommit (cd_BlockCommit data)].

Definition state_merkle_batch (data : CommitData) : list updateFunc :=
  stateStore_commitStateChanges (bc_StateChanges (cd_BlockCommit data))
  ++ merkleStore_commitUpdate (cd_merkleUpdate data).

Definition block_height_batch (height : N) : list updateFunc :=
  [chainStore_setBlockHeight height].

(** The batches of a commit in the order the spec lists them, each with
    whether it runs under the exclusive writer lock: chain data, block commit,
    state and Merkle tree (left out when there are no state changes), block
    height. *)
Definition commit_batches (data : CommitData) (height : N)
  : list (bool * list updateFunc) :=
  [(false, chain_batch data); (false, block_commit_batch data)]
  ++ (if (length (bc_StateChanges (cd_BlockCommit data)) =? 0)%nat
      then []
      else [(true, state_merkle_batch data)])
  ++ [(false, block_height_batch height)].

Definition batch_events (b : bool * list updateFunc) : list event :=
  if b.1 then [Lock; Update b.2; Unlock] else [Update b.2].

(** Batches run in order on the database until one returns an error: the
    database reached, the number of batches attempted, and the error. *)
Fixpoint db_run (d : DB) (bs : list (list updateFunc)) : DB * nat * option err :=
  match bs with
  | [] => (d, O, None)
  | fns :: rest =>
      let '(d', e) := badger_update d fns in
      match e with
      | Some e => (d', 1%nat, Some e)
      | None => let '(d'', k, r) := db_run d' rest in (d'', S k, r)
      end
  end.

(** What [commit] has computed before its first write. *)
Definition commit_computed (d : DB) (data : CommitData) : go CommitData :=
  if (0 <? length (bc_StateChanges (cd_BlockCommit data)))%nat
  then data ← computeMerkleUpdate d data; Ret (SetElapsedMerkle data)
  else Ret data.

Lemma db_run_attempted (d : DB) (bs : list (list updateFunc)) d' k r :
  db_run d bs = (d', k, r) ->
  (k <= length bs)%nat
  /\ (r = None -> k = length bs)
  /\ (forall e, r = Some e ->
        exists d0 fns, bs !! (k - 1)%nat = Some fns
                       /\ (0 < k)%nat
                       /\ db_run d (take (k - 1) bs) = (d0, (k - 1)%nat, None)
                       /\ badger_update d0 fns = (d', Some e))
  /\ (forall j, (j < k)%nat ->
        exists dj, db_run d (take j bs) = (dj, j, None)).
Proof.
  revert d d' k r. induction bs as [|fns bs IH]; intros d d' k r; simpl.
  - intros [= <- <- <-]. repeat split; [lia|done|].
    intros j Hj. lia.
  - destruct (badger_update d fns) as [d1 [e|]] eqn:Hb.
    + intros [= <- <- <-]. split; [simpl; lia|]. split; [done|]. split.
      * intros e' [= <-]. exists d, fns. simpl. repeat split; [lia|done].
      * intros j Hj. assert (j = 0%nat) as -> by lia. by exists d.
    + destruct (db_run d1 bs) as [[d2 k2] r2] eqn:Hr.
      intros [= <- <- <-].
      destruct (IH _ _ _ _ Hr) as (Hle & Hnone & Hsome & Hpre).
      split; [simpl; lia|]. split; [intros Hn; simpl; by rewrite Hnone|].
      split.
      * intros e' ->. destruct (Hsome e' eq_refl) as (d0 & fns' & Hl & Hk & Hrun & Hb').
        exists d0, fns'. replace (S k2 - 1)%nat with (S (k2 - 1)) by lia.
        simpl. rewrite Hb, Hrun. repeat split; [done|lia|done].
      * intros [|j] Hj; [by exists d|].
        destruct (Hpre j ltac:(lia)) as [dj Hdj]. exists dj.
        simpl. by rewrite Hb, Hdj.
Qed.

Lemma setNewTreeIndexes_length (scs : list StateChange) (n : N) :
  length (stateStore_setNewTreeIndexes scs n).1 = length scs.
Proof.
  revert n. induction scs as [|sc scs IH]; intros n; simpl; [done|].
  destruct (sc_PrevTreeIndex sc).
  - specialize (IH n). destruct (stateStore_setNewTreeIndexes scs n).
    simpl in *. by rewrite IH.
  - specialize (IH (n + 1)). destruct (stateStore_setNewTreeIndexes scs (n + 1)).
    simpl in *. by rewrite IH.
Qed.

(** The computation keeps the block and the number of state changes. *)
Lemma commit_computed_keeps (d : DB) (data data' : CommitData) :
  commit_computed d data = Ret data' ->
  cd_Block data' = cd_Block data
  /\ length (bc_StateChanges (cd_BlockCommit data'))
     = length (bc_StateChanges (cd_BlockCommit data))
  /\ (length (bc_StateChanges (cd_BlockCommit data)) = 0%nat -> data' = data).
Proof.
  unfold commit_computed.
  destruct (length (bc_StateChanges (cd_BlockCommit data))) as [|n] eqn:Hlen;
    cbn [Nat.ltb Nat.leb].
  - intros [= <-]. by rewrite Hlen.
  - unfold computeMerkleUpdate.
    pose proof (setNewTreeIndexes_length
      (stateStore_loadPrevTreeIndexes d
         (stateStore_loadPrevValues d (bc_StateChanges (cd_BlockCommit data))))
      (merkle.GetLeafCount (merkleStore d))) as Hl.
    destruct (stateStore_setNewTreeIndexes _ _) as [scs n'].
    destruct (merkle.Root _) as [root|]; [|done].
    cbn [deref mbind go_bind]. intros [= <-].
    cbn [SetElapsedMerkle cd_Block cd_BlockCommit bc_StateChanges].
    split; [done|]. split; [|done].
    simpl in Hl. rewrite Hl.
    unfold stateStore_loadPrevTreeIndexes, stateStore_loadPrevValues.
    by rewrite !length_map.
Qed.

Lemma writeChainData_batch (w : World) (data : CommitData) :
  writeChainData w data = updateBadgerDB w (chain_batch data).
Proof.
  unfold writeChainData, chain_batch. cbn [app]. by rewrite <- !app_assoc.
Qed.

(** C3.  [Storage.Commit] first computes the Merkle update, only when there
    are state changes, reading the database without writing it; then it runs
    its batches in this order: chain data (block, block by height, last QC,
    txs, tx commits), block commit, state and Merkle tree under the exclusive
    writer lock (left out when there are no state changes), block height.  A
    batch is attempted only when every batch before it has returned no
    error, the error of the first failing batch is returned, and the block
    height batch comes last. *)
Theorem Commit_writes_in_order :
  forall (w : World) (data data' : CommitData) (blk : core_pb.Block)
         (d' : DB) (k : nat) (r : option err),
    Block_data (cd_Block data) = Some blk ->
    commit_computed (db w) data = Ret data' ->
    let bs := commit_batches data' (Block_Height blk) in
    db_run (db w) (map snd bs) = (d', k, r) ->
    Commit w data
    = (mkWorld d' (events w ++ concat (map batch_events (take k bs))),
       data', Ret r)
    /\ ((length (bc_StateChanges (cd_BlockCommit data)) = 0)%nat ->
        data' = data /\ length bs = 3%nat)
    /\ ((length (bc_StateChanges (cd_BlockCommit data)) <> 0)%nat ->
        length bs = 4%nat)
    /\ last bs = Some (false, block_height_batch (Block_Height blk))
    /\ (k <= length bs)%nat
    /\ (r = None -> k = length bs)
    /\ (forall e, r = Some e ->
          exists d0 fns, map snd bs !! (k - 1)%nat = Some fns
                         /\ (0 < k)%nat
                         /\ db_run (db w) (take (k - 1) (map snd bs))
                            = (d0, (k - 1)%nat, None)
                         /\ badger_update d0 fns = (d', Some e))
    /\ (forall j, (j < k)%nat ->
          exists dj, db_run (db w) (take j (map snd bs)) = (dj, j, None)).
Proof.
  intros w data data' blk d' k r Hblk Hcomp bs Hrun.
  destruct (commit_computed_keeps _ _ _ Hcomp) as (HB & Hlen & Hsame).
  assert (Block_Height_of (cd_Block data') = Ret (Block_Height blk)) as HH.
  { unfold Block_Height_of. by rewrite HB, Hblk. }
  pose proof (db_run_attempted _ _ _ _ _ Hrun) as (Hle & Hnone & Hsome & Hpre).
  rewrite length_map in Hle, Hnone.
  split; [|split; [|split; [|split; [|split; [|split]]]]];
    [| | | |exact Hle|exact Hnone|split; [exact Hsome|exact Hpre]].
  - clear Hle Hnone Hsome Hpre.
    unfold Commit, commit. fold (commit_computed (db w) data). rewrite Hcomp.
    unfold writeCommitData. rewrite writeChainData_batch.
    unfold writeBlockCommit, writeStateMerkleTree, setCommitedBlockHeight.
    rewrite HH. unfold updateBadgerDB, emit. cbn [db events].
    subst bs.
    unfold commit_batches, block_commit_batch, state_merkle_batch,
      block_height_batch in *.
    destruct (length (bc_StateChanges (cd_BlockCommit data')) =? 0)%nat;
      cbn [app map snd db_run] in Hrun;
      repeat match type of Hrun with
        | context [badger_update ?d ?f] =>
            let e := fresh "e" in
            destruct (badger_update d f) as [? [e|]]; cbn [db events] in *
        end;
      injection Hrun as <- <- <-;
      cbn [take map concat batch_events fst snd app];
      rewrite <- ?app_assoc; reflexivity.
  - intros Hz. split; [by apply Hsame|].
    subst bs. unfold commit_batches. by rewrite Hlen, Hz.
  - intros Hnz. subst bs. unfold commit_batches. rewrite Hlen.
    by destruct (length (bc_StateChanges (cd_BlockCommit data))).
  - subst bs. unfold commit_batches.
    by destruct (length _ =? 0)%nat.
Qed.

(** *** State verification *)

(** The node [VerifyState] verifies for a value and the bytes of its tree
    index: at level 0 and that index, holding the sha3-256 of the value. *)
Definition state_node (merkleIdx value : bytes) : merkle.Node :=
  merkle.mkNode (merkle.NewPosition 0 (bigint_SetBytes merkleIdx))
                (sha3_256 value).

Lemma merkleTree_bfactor (d : DB) : 0 < merkle.bfactor (merkleTree d).
Proof.
  unfold merkleTree, merkle.NewTree. cbn [merkle.bfactor merkle.BranchFactor].
  destruct (N.ltb_spec MerkleBranchFactor 2); lia.
Qed.

(** C4.  [VerifyState(key)] takes and releases the shared lock, reads the
    value and the tree index of the key, verifies the single node
    [Node{position = (0, tree_index), data = sha3-256(value)}] in the Merkle
    tree, and returns the stored value exactly when that verification
    succeeds.  It returns an error when the key has no tree index (state not
    found) and when the verification fails.  For a key whose leaf a committed
    tree holds, the digest of the value at the index of the key, it returns
    the value.  And after the stored value has been changed while the tree
    was left as it is, it returns the error of a failed verification, unless
    the hash collides on this very verification: the changed value has the
    digest of the old one, or the recomputations of the path from the two
    digests meet a node where their hash inputs differ and have the same
    digest. *)
Theorem VerifyState_verifies_single_node :
  forall (w : World) (key : bytes),
    let d := db w in
    let value := stateStore_getState d key in
    let verified idx :=
      merkle.Tree_Verify sha3_256 (merkleTree d) [state_node idx value] in
    (VerifyState w key).1 = mkWorld d (events w ++ [RLock; RUnlock])
    /\ (forall e, stateStore_getMerkleIndex d key = Err e ->
          (VerifyState w key).2 = Err (String.append "state not found: " e))
    /\ (forall idx, stateStore_getMerkleIndex d key = Ok idx ->
          (VerifyState w key).2
          = if verified idx then Ok value
            else Err "merkle verification failed"%string)
    /\ (forall v, (VerifyState w key).2 = Ok v <->
          v = value /\ exists idx, stateStore_getMerkleIndex d key = Ok idx
                                   /\ verified idx = true)
    /\ (forall (s : merkle.MapStore) (idx : bytes),
          merkleStore d = merkle.MapStore_Store s ->
          merkle.committed sha3_256 (merkle.bfactor (merkleTree d)) s ->
          stateStore_getMerkleIndex d key = Ok idx ->
          merkle.stored s 0 (bigint_SetBytes idx) = Some (sha3_256 value) ->
          (VerifyState w key).2 = Ok value)
    /\ (forall (w' : World),
          (exists v, (VerifyState w key).2 = Ok v) ->
          merkleStore (db w') = merkleStore d ->
          stateStore_getMerkleIndex (db w') key = stateStore_getMerkleIndex d key ->
          stateStore_getState (db w') key <> value ->
          exists idx,
            stateStore_getMerkleIndex d key = Ok idx
            /\ ((VerifyState w' key).2 = Err "merkle verification failed"%string
                \/ sha3_256 (stateStore_getState (db w') key) = sha3_256 value
                \/ merkle.Verify_path_collides sha3_256 (merkleTree d)
                     (bigint_SetBytes idx)
                     (sha3_256 (stateStore_getState (db w') key))
                     (sha3_256 value) = true)).
Proof.
  intros w key d value verified.
  assert (forall w0 idx,
    stateStore_getMerkleIndex (db w0) key = Ok idx ->
    (VerifyState w0 key).2
    = if merkle.Tree_Verify sha3_256 (merkleTree (db w0))
           [state_node idx (stateStore_getState (db w0) key)]
      then Ok (stateStore_getState (db w0) key)
      else Err "merkle verification failed"%string) as Hok.
  { intros w0 idx Hidx. unfold VerifyState, emit. cbn [db snd]. rewrite Hidx.
    fold (state_node idx (stateStore_getState (db w0) key)).
    unfold stateStore_sumStateValue.
    by destruct (merkle.Tree_Verify _ _ _). }
  assert (forall v, (VerifyState w key).2 = Ok v <->
          v = value /\ exists idx, stateStore_getMerkleIndex d key = Ok idx
                                   /\ verified idx = true) as Hiff.
  { intros v. destruct (stateStore_getMerkleIndex d key) as [idx|e] eqn:Hidx.
    - rewrite (Hok w idx Hidx). fold d value. fold (verified idx).
      destruct (verified idx) eqn:Hv; split.
      + intros [= <-]. split; [done|]. by exists idx.
      + by intros [-> _].
      + done.
      + intros [_ (idx' & [= <-] & Hv')]. congruence.
    - unfold VerifyState, emit. cbn [db snd]. fold d. rewrite Hidx. split; [done|].
      by intros [_ (idx' & [=] & _)]. }
  split; [|split; [|split; [|split; [exact Hiff|split]]]].
  - unfold VerifyState, emit. cbn [db events fst]. by rewrite <- app_assoc.
  - intros e He. unfold VerifyState, emit. cbn [db snd]. fold d. by rewrite He.
  - intros idx Hidx. by rewrite (Hok w idx Hidx).
  - intros s idx Hs Hc Hidx Hleaf. apply Hiff. split; [done|]. exists idx.
    split; [done|]. unfold verified, merkleTree in *. rewrite Hs in *.
    pose proof (merkle.NewTree_bfactor_ge (merkle.MapStore_Store s)
                  (merkle.mkTreeOptions MerkleBranchFactor)) as HB.
    set (t := merkle.NewTree _ _) in *.
    apply (merkle.Tree_Verify_complete sha3_256 s (merkle.bfactor t));
      [by apply merkle.committed_Consistent|done|].
    intros l Hl%list_elem_of_singleton. subst l.
    unfold state_node, stateStore_sumStateValue.
    cbn [merkle.Node_Position merkle.Level merkle.Index merkle.Node_Data].
    split; [done|]. split; [|done].
    apply (merkle.committed_leaves sha3_256 (merkle.bfactor t)); [done|done|].
    by rewrite Hleaf.
  - intros w' [v Hv] Hstore Hidx' Hne.
    apply Hiff in Hv as [-> (idx & Hidx & Hver)]. exists idx. split; [done|].
    rewrite Hidx in Hidx'. rewrite (Hok w' idx Hidx').
    destruct (merkle.Tree_Verify _ (merkleTree (db w')) _) eqn:Hver'; [|by left].
    right. unfold verified in Hver.
    assert (merkleTree (db w') = merkleTree d) as Ht
      by (unfold merkleTree; by rewrite Hstore).
    rewrite Ht in Hver'.
    destruct (merkle.Tree_Verify_single_collides sha3_256 (merkleTree d) _ _ _
                (merkleTree_bfactor d) Hver' Hver) as [Heq|Hc].
    + by left.
    + by right.
Qed.

End Storage.

(** *** A toy engine

    The database is the list of the writes applied, a write is a number, and
    a batch fails, applying nothing, when it holds the write 13. *)

Definition toy_badger_update (d : list nat) (fns : list nat)
  : list nat * option String.string :=
  if bool_decide (13%nat ∈ fns) then (d, Some "write failed"%string)
  else (d ++ fns, None).

(** [Storage.Commit] over the toy engine; the write of the block commit is a
    parameter. *)
Definition toy_Commit (blockCommitWrite : nat) :=
  Commit (list nat) nat unit toy_badger_update
    (fun _ => [1; 2]%nat) (fun _ => 3%nat) (fun txs => map (fun _ => 4%nat) txs)
    (fun txcs => map (fun _ => 5%nat) txcs) (fun _ => blockCommitWrite)
    (fun h => (100 + N.to_nat h)%nat) (fun scs => map (fun _ => 7%nat) scs)
    (fun _ => [8%nat]) (fun _ _ => []) (fun _ _ => Err "not found"%string)
    (fun _ => merkle.MapStore_Store merkle.NewMapStore) toy_digest 8 tt.

(** A commit of the block of height 5, without state changes. *)
Definition toy_data : CommitData unit :=
  mkCommitData unit
    (mkBlk (Some (core_pb.mkBlock 5 [] [] [] [] None 0 [] [])) None None)
    None [] (mkBlockCommit [] [] None None [] [] []) [] None.

Lemma Commit_writes_in_order_witness :
  toy_Commit 6 (mkWorld _ _ [] []) toy_data
  = (mkWorld _ _ [1; 2; 3; 6; 105]%nat
       [Update _ [1; 2; 3]%nat; Update _ [6%nat]; Update _ [105%nat]],
     toy_data, Ret None)
  /\ toy_Commit 13 (mkWorld _ _ [] []) toy_data
     = (mkWorld _ _ [1; 2; 3]%nat [Update _ [1; 2; 3]%nat; Update _ [13%nat]],
        toy_data, Ret (Some "write failed"%string)).
Proof.
  split.
  - exact (proj1 (Commit_writes_in_order (list nat) nat unit toy_badger_update
      (fun _ => [1; 2]%nat) (fun _ => 3%nat) (fun txs => map (fun _ => 4%nat) txs)
      (fun txcs => map (fun _ => 5%nat) txcs) (fun _ => 6%nat)
      (fun h => (100 + N.to_nat h)%nat) (fun scs => map (fun _ => 7%nat) scs)
      (fun _ => [8%nat]) (fun _ _ => []) (fun _ _ => Err "not found"%string)
      (fun _ => merkle.MapStore_Store merkle.NewMapStore) toy_digest 8 tt
      (mkWorld _ _ [] []) toy_data toy_data _ _ _ _ eq_refl eq_refl eq_refl)).
  - exact (proj1 (Commit_writes_in_order (list nat) nat unit toy_badger_update
      (fun _ => [1; 2]%nat) (fun _ => 3%nat) (fun txs => map (fun _ => 4%nat) txs)
      (fun txcs => map (fun _ => 5%nat) txcs) (fun _ => 13%nat)
      (fun h => (100 + N.to_nat h)%nat) (fun scs => map (fun _ => 7%nat) scs)
      (fun _ => [8%nat]) (fun _ _ => []) (fun _ _ => Err "not found"%string)
      (fun _ => merkle.MapStore_Store merkle.NewMapStore) toy_digest 8 tt
      (mkWorld _ _ [] []) toy_data toy_data _ _ _ _ eq_refl eq_refl eq_refl)).
Defined.

(** *** A toy state store

    One key, whose value is the whole database and whose tree index is 0; a
    Merkle tree of branch factor 8 committed with the digest of the value
    [2a] as its only leaf; the identity as digest. *)
Definition toy_merkle_store : merkle.MapStore :=
  merkle.updated toy_digest merkle.NewMapStore 8
    [merkle.mkNode (merkle.NewPosition 0 0) (toy_digest [x2a])] 1.

Definition toy_VerifyState (value : bytes) : result bytes String.string :=
  (VerifyState bytes unit (fun db _ => db) (fun _ _ => Ok [])
     (fun _ => merkle.MapStore_Store toy_merkle_store) toy_digest 8
     (mkWorld bytes unit value []) [x6b]).2.

(** The committed value is returned, and a changed value is refused. *)
Lemma VerifyState_verifies_single_node_witness :
  toy_VerifyState [x2a] = Ok [x2a]
  /\ toy_VerifyState [x2b] = Err "merkle verification failed"%string.
Proof.
  destruct (VerifyState_verifies_single_node bytes unit (fun db _ => db)
              (fun _ _ => Ok []) (fun _ => merkle.MapStore_Store toy_merkle_store)
              toy_digest 8 (mkWorld bytes unit [x2a] []) [x6b])
    as (_ & _ & _ & _ & Hcommitted & Hchanged).
  assert (toy_VerifyState [x2a] = Ok [x2a]) as Hok.
  { apply (Hcommitted toy_merkle_store []); [done| |done|by vm_compute].
    apply merkle.committed_update; [constructor|].
    apply merkle.wf_updateb_correct. by vm_compute. }
  split; [exact Hok|].
  destruct (Hchanged (mkWorld bytes unit [x2b] [])) as (idx & Hidx & Hres);
    [by exists [x2a]|done|done|done|].
  injection Hidx as <-.
  destruct Hres as [Herr|[Hsame|Hcol]]; [exact Herr|discriminate Hsame|].
  vm_compute in Hcol. discriminate Hcol.
Defined.

End storage.

(* ================================================================== *)
(** ** The wire format

    The canonical serialization is protocol buffers (proto3): a message is
    the concatenation of its fields, each a tag (field number and wire type)
    followed by a varint or by a length and that many bytes.  The library
    ([google.golang.org/protobuf]) is not part of the development. *)

Module protowire.

(** [protowire.AppendVarint]: base-128, least significant group first. *)
Fixpoint AppendVarint_from (fuel : nat) (v : N) : bytes :=
  match fuel with
  | O => []
  | S fuel' =>
      if v <? 128 then [byte_of_N v]
      else byte_of_N (128 + v mod 128) :: AppendVarint_from fuel' (v / 128)
  end.

Definition AppendVarint (v : N) : bytes := AppendVarint_from 10 v.

(** [protowire.ConsumeVarint]: at most ten bytes, the value below [2^64]. *)
Fixpoint ConsumeVarint_from (fuel : nat) (b : bytes) (shift acc : N)
  : option (N * bytes) :=
  match fuel, b with
  | S fuel', x :: rest =>
      let n := Byte.to_N x in
      if n <? 128
      then (let v := acc + n * 2 ^ shift in
            if v <? 2 ^ 64 then Some (v, rest) else None)
      else ConsumeVarint_from fuel' rest (shift + 7) (acc + (n - 128) * 2 ^ shift)
  | _, _ => None
  end.

Definition ConsumeVarint (b : bytes) : option (N * bytes) :=
  ConsumeVarint_from 10 b 0 0.

Lemma ConsumeVarint_from_Append (fuel : nat) (v shift acc : N) (rest : bytes) :
  v < 2 ^ (7 * N.of_nat (S fuel)) ->
  acc + v * 2 ^ shift < 2 ^ 64 ->
  ConsumeVarint_from (S fuel) (AppendVarint_from (S fuel) v ++ rest) shift acc
  = Some (acc + v * 2 ^ shift, rest).
Proof.
  revert v shift acc. induction fuel as [|fuel IH]; intros v shift acc Hv Hacc.
  - change (2 ^ (7 * N.of_nat 1)) with 128 in Hv.
    cbn [AppendVarint_from]. destruct (N.ltb_spec v 128) as [Hlt|Hge]; [|lia].
    cbn [app ConsumeVarint_from]. rewrite to_N_byte_of_N.
    rewrite N.mod_small by lia.
    destruct (N.ltb_spec v 128); [|lia].
    by rewrite (proj2 (N.ltb_lt _ _) Hacc).
  - remember (S fuel) as fuel1 eqn:Hf.
    cbn [AppendVarint_from]. destruct (N.ltb_spec v 128) as [Hlt|Hge].
    + cbn [app ConsumeVarint_from]. rewrite to_N_byte_of_N.
      rewrite N.mod_small by lia.
      destruct (N.ltb_spec v 128); [|lia].
      by rewrite (proj2 (N.ltb_lt _ _) Hacc).
    + cbn [app ConsumeVarint_from]. rewrite to_N_byte_of_N.
      pose proof (N.mod_lt v 128 ltac:(lia)) as Hm.
      pose proof (N.div_mod v 128 ltac:(lia)) as Hdm.
      set (m := v mod 128) in *. set (q := v / 128) in *.
      assert ((128 + m) mod 256 = 128 + m) as -> by (apply N.mod_small; clear -Hm; lia).
      assert ((128 + m <? 128) = false) as -> by (apply N.ltb_ge; clear; lia).
      assert (128 + m - 128 = m) as -> by (clear; lia).
      assert (2 ^ (shift + 7) = 128 * 2 ^ shift) as Hp.
      { rewrite N.pow_add_r. change (2 ^ 7) with 128. apply N.mul_comm. }
      assert (acc + m * 2 ^ shift + q * 2 ^ (shift + 7)
              = acc + v * 2 ^ shift) as Hsum.
      { rewrite Hp, Hdm. clear. generalize (2 ^ shift). intros p. nia. }
      subst fuel1. rewrite IH.
      * by rewrite Hsum.
      * replace (7 * N.of_nat (S (S fuel))) with (7 + 7 * N.of_nat (S fuel)) in Hv
          by (clear; lia).
        rewrite N.pow_add_r in Hv. change (2 ^ 7) with 128 in Hv.
        apply N.Div0.div_lt_upper_bound. exact Hv.
      * by rewrite Hsum.
Qed.

Lemma ConsumeVarint_Append (v : N) (rest : bytes) :
  v < 2 ^ 64 -> ConsumeVarint (AppendVarint v ++ rest) = Some (v, rest).
Proof.
  intros Hv. unfold ConsumeVarint, AppendVarint.
  rewrite ConsumeVarint_from_Append.
  - f_equal. f_equal. rewrite N.pow_0_r. lia.
  - change (2 ^ (7 * N.of_nat 10)) with (2 ^ 64 * 64). lia.
  - rewrite N.pow_0_r. lia.
Qed.

Lemma AppendVarint_length (v : N) : (1 <= length (AppendVarint v))%nat.
Proof.
  unfold AppendVarint. cbn [AppendVarint_from]. destruct (v <? 128); simpl; lia.
Qed.

(** A field value by wire type: varint (0), 64-bit (1), length-delimited (2),
    32-bit (5). *)
Inductive value : Type :=
| Varint (v : N)
| Fixed64 (b : bytes)
| Bytes (b : bytes)
| Fixed32 (b : bytes).

(** A field: its number and its value. *)
Definition field : Type := N * value.

Definition wire_type (v : value) : N :=
  match v with
  | Varint _ => 0
  | Fixed64 _ => 1
  | Bytes _ => 2
  | Fixed32 _ => 5
  end.

Definition AppendTag (num typ : N) : bytes := AppendVarint (num * 8 + typ).

Definition AppendBytes (b : bytes) : bytes :=
  AppendVarint (N.of_nat (length b)) ++ b.

Definition AppendField (f : field) : bytes :=
  AppendTag f.1 (wire_type f.2)
  ++ match f.2 with
     | Varint v => AppendVarint v
     | Bytes b => AppendBytes b
     | Fixed64 b | Fixed32 b => b
     end.

Definition consume_fixed (n : nat) (b : bytes) : option (bytes * bytes) :=
  if (n <=? length b)%nat then Some (take n b, drop n b) else None.

(** [protowire.ConsumeField]: the tag, then the value its wire type
    announces; field number 0 and the group wire types are errors. *)
Definition ConsumeField (b : bytes) : option (field * bytes) :=
  '(tag, b) ← ConsumeVarint b;
  let num := tag / 8 in
  if num =? 0 then None
  else
    match tag mod 8 with
    | 0 => '(v, b) ← ConsumeVarint b; Some ((num, Varint v), b)
    | 1 => '(x, b) ← consume_fixed 8 b; Some ((num, Fixed64 x), b)
    | 2 => '(n, b) ← ConsumeVarint b;
           '(x, b) ← consume_fixed (N.to_nat n) b; Some ((num, Bytes x), b)
    | 5 => '(x, b) ← consume_fixed 4 b; Some ((num, Fixed32 x), b)
    | _ => None
    end.

(** The fields of a message, in wire order. *)
Fixpoint ConsumeFields (fuel : nat) (b : bytes) : option (list field) :=
  match b with
  | [] => Some []
  | _ :: _ =>
      match fuel with
      | O => None
      | S fuel' =>
          '(f, rest) ← ConsumeField b;
          fs ← ConsumeFields fuel' rest;
          Some (f :: fs)
      end
  end.

Definition decode (b : bytes) : option (list field) := ConsumeFields (length b) b.

Definition encode (fs : list field) : bytes := concat (map AppendField fs).

(** A field the encoder can be given: a field number of the schema, a
    [uint64] varint, a payload whose length is a [uint64]. *)
Definition wf_field (f : field) : Prop :=
  1 <= f.1 < 2 ^ 29 /\
  match f.2 with
  | Varint v => v < 2 ^ 64
  | Bytes b => N.of_nat (length b) < 2 ^ 64
  | Fixed64 b => length b = 8%nat
  | Fixed32 b => length b = 4%nat
  end.

Lemma consume_fixed_app (x rest : bytes) :
  consume_fixed (length x) (x ++ rest) = Some (x, rest).
Proof.
  unfold consume_fixed. rewrite length_app.
  destruct (Nat.leb_spec (length x) (length x + length rest)); [|lia].
  by rewrite take_app_length, drop_app_length.
Qed.

Lemma ConsumeField_Append (f : field) (rest : bytes) :
  wf_field f -> ConsumeField (AppendField f ++ rest) = Some (f, rest).
Proof.
  destruct f as [num v]. intros [[Hn1 Hn2] Hv]. cbn [fst snd] in *.
  unfold ConsumeField, AppendField, AppendTag. cbn [fst snd].
  assert (wire_type v < 8) as Hw by (destruct v; simpl; lia).
  assert (num * 8 + wire_type v < 2 ^ 64) as Ht.
  { change (2 ^ 29) with 536870912 in Hn2.
    change (2 ^ 64) with 18446744073709551616. lia. }
  rewrite <- app_assoc, ConsumeVarint_Append by done.
  cbn [mbind option_bind].
  assert ((num * 8 + wire_type v) / 8 = num) as ->.
  { symmetry. apply (N.div_unique _ 8 num (wire_type v)); lia. }
  assert ((num * 8 + wire_type v) mod 8 = wire_type v) as ->.
  { symmetry. apply (N.mod_unique _ 8 num (wire_type v)); lia. }
  destruct (N.eqb_spec num 0) as [->|_]; [lia|].
  destruct v as [v|b|b|b]; cbn [wire_type].
  - by rewrite ConsumeVarint_Append.
  - rewrite <- Hv. by rewrite consume_fixed_app.
  - unfold AppendBytes. rewrite <- app_assoc, ConsumeVarint_Append by done.
    cbn [mbind option_bind]. rewrite Nat2N.id. by rewrite consume_fixed_app.
  - rewrite <- Hv. by rewrite consume_fixed_app.
Qed.

Lemma AppendField_length (f : field) : (1 <= length (AppendField f))%nat.
Proof.
  unfold AppendField, AppendTag. rewrite length_app.
  pose proof (AppendVarint_length (f.1 * 8 + wire_type f.2)). lia.
Qed.

Lemma encode_length (fs : list field) : (length fs <= length (encode fs))%nat.
Proof.
  induction fs as [|f fs IH]; simpl; [lia|].
  unfold encode in *. simpl. rewrite length_app.
  pose proof (AppendField_length f). lia.
Qed.

Lemma ConsumeFields_encode (fuel : nat) (fs : list field) :
  Forall wf_field fs -> (length fs <= fuel)%nat ->
  ConsumeFields fuel (encode fs) = Some fs.
Proof.
  revert fuel. induction fs as [|f fs IH]; intros fuel Hwf Hfuel; [by destruct fuel|].
  inversion Hwf as [|? ? Hf Hfs]; subst.
  unfold encode. cbn [map concat]. fold (encode fs).
  destruct (AppendField f ++ encode fs) as [|x l] eqn:Hb.
  { pose proof (AppendField_length f). apply (f_equal length) in Hb.
    rewrite length_app in Hb. simpl in Hb. lia. }
  destruct fuel as [|fuel]; [simpl in Hfuel; lia|].
  cbn [ConsumeFields]. rewrite <- Hb. rewrite ConsumeField_Append by done.
  cbn [mbind option_bind]. rewrite IH; [done|done|simpl in Hfuel; lia].
Qed.

Lemma decode_encode (fs : list field) :
  Forall wf_field fs -> decode (encode fs) = Some fs.
Proof.
  intros Hwf. apply ConsumeFields_encode; [done|apply encode_length].
Qed.

(** The payload of a field of the encoding is no longer than the encoding. *)
Lemma encode_payload_length (fs : list field) (num : N) (b : bytes) :
  (num, Bytes b) ∈ fs -> (length b <= length (encode fs))%nat.
Proof.
  induction fs as [|f fs IH]; [by inversion 1|].
  unfold encode in *. cbn [map concat]. rewrite length_app.
  intros [<-|Hin]%elem_of_cons.
  - unfold AppendField, AppendBytes. cbn [fst snd].
    rewrite !length_app. lia.
  - specialize (IH Hin). lia.
Qed.

End protowire.

Module proto.
Import protowire.
Import core_pb.

(** *** Emitting and reading the fields of a message (proto3) *)

(** A scalar with the zero value, an empty byte string and a nil message are
    not emitted. *)
Definition uint64_field (num v : N) : list field :=
  if v =? 0 then [] else [(num, Varint v)].

Definition int64_field (num : N) (v : Z) : list field :=
  uint64_field num (uint64_of_int64 v).

Definition bytes_field (num : N) (b : bytes) : list field :=
  match b with
  | [] => []
  | _ :: _ => [(num, Bytes b)]
  end.

Definition message_field (num : N) (m : option bytes) : list field :=
  match m with
  | None => []
  | Some p => [(num, Bytes p)]
  end.

Definition repeated_field (num : N) (l : list bytes) : list field :=
  map (fun b => (num, Bytes b)) l.

Definition varint_of (num : N) (f : field) : option N :=
  match f with
  | (n, Varint v) => if n =? num then Some v else None
  | _ => None
  end.

Definition payload_of (num : N) (f : field) : option bytes :=
  match f with
  | (n, Bytes b) => if n =? num then Some b else None
  | _ => None
  end.

(** Of several occurrences of a scalar the last wins; the occurrences of a
    repeated field are kept in order; the occurrences of a message field are
    merged, which is decoding their concatenation.  A field of another number
    or wire type is skipped. *)
Definition get_uint64 (num : N) (fs : list field) : N :=
  default 0 (last (omap (varint_of num) fs)).

Definition get_int64 (num : N) (fs : list field) : Z :=
  int64_of_uint64 (get_uint64 num fs).

Definition get_bytes (num : N) (fs : list field) : bytes :=
  default [] (last (omap (payload_of num) fs)).

Definition get_repeated (num : N) (fs : list field) : list bytes :=
  omap (payload_of num) fs.

Definition get_message (num : N) (fs : list field) : option bytes :=
  match omap (payload_of num) fs with
  | [] => None
  | l => Some (concat l)
  end.

Lemma varint_of_uint64_field (n k v : N) :
  omap (varint_of n) (uint64_field k v)
  = if k =? n then (if v =? 0 then [] else [v]) else [].
Proof.
  unfold uint64_field. destruct (v =? 0); simpl; [by destruct (k =? n)|].
  by destruct (k =? n).
Qed.

Lemma varint_of_bytes_field (n k : N) (b : bytes) :
  omap (varint_of n) (bytes_field k b) = [].
Proof. by destruct b. Qed.

Lemma varint_of_message_field (n k : N) (m : option bytes) :
  omap (varint_of n) (message_field k m) = [].
Proof. by destruct m. Qed.

Lemma varint_of_repeated_field (n k : N) (l : list bytes) :
  omap (varint_of n) (repeated_field k l) = [].
Proof. induction l; [done|]. simpl. done. Qed.

Lemma payload_of_uint64_field (n k v : N) :
  omap (payload_of n) (uint64_field k v) = [].
Proof. unfold uint64_field. by destruct (v =? 0). Qed.

Lemma payload_of_bytes_field (n k : N) (b : bytes) :
  omap (payload_of n) (bytes_field k b)
  = if k =? n then (match b with [] => [] | _ => [b] end) else [].
Proof. destruct b; simpl; by destruct (k =? n). Qed.

Lemma payload_of_message_field (n k : N) (m : option bytes) :
  omap (payload_of n) (message_field k m)
  = if k =? n then option_list m else [].
Proof. destruct m; simpl; by destruct (k =? n). Qed.

Lemma payload_of_repeated_field (n k : N) (l : list bytes) :
  omap (payload_of n) (repeated_field k l) = if k =? n then l else [].
Proof.
  unfold repeated_field. destruct (k =? n) eqn:E.
  - induction l as [|b l IH]; [done|]. cbn. rewrite E. cbn. by f_equal.
  - induction l as [|b l IH]; [done|]. cbn. by rewrite E.
Qed.

(** The fields an encoder emits: with a field number of the schema, and
    varints and payloads only. *)
Definition emitted (f : field) : Prop :=
  1 <= f.1 < 2 ^ 29 /\
  match f.2 with
  | Varint v => v < 2 ^ 64
  | Bytes _ => True
  | _ => False
  end.

(** A byte string whose length fits an unsigned 64-bit integer. *)
Definition fits (b : bytes) : Prop := N.of_nat (length b) < 2 ^ 64.

Lemma emitted_wf (fs : list field) :
  Forall emitted fs -> fits (encode fs) -> Forall wf_field fs.
Proof.
  intros Hem Hfit. apply Forall_forall. intros [num v] Hin.
  rewrite Forall_forall in Hem. destruct (Hem _ Hin) as [Hn Hv].
  split; [done|]. cbn [fst snd] in *. destruct v as [v|b|b|b]; try done.
  pose proof (encode_payload_length fs num b Hin). unfold fits in Hfit. lia.
Qed.

Lemma decode_emitted (fs : list field) :
  Forall emitted fs -> fits (encode fs) -> decode (encode fs) = Some fs.
Proof. intros. by apply decode_encode, emitted_wf. Qed.

Lemma emitted_uint64_field (k v : N) :
  1 <= k < 2 ^ 29 -> v < 2 ^ 64 -> Forall emitted (uint64_field k v).
Proof.
  intros. unfold uint64_field. destruct (v =? 0); [constructor|].
  constructor; [by split|constructor].
Qed.

Lemma emitted_bytes_field (k : N) (b : bytes) :
  1 <= k < 2 ^ 29 -> Forall emitted (bytes_field k b).
Proof.
  intros. destruct b; [constructor|].
  constructor; [by split|constructor].
Qed.

Lemma emitted_message_field (k : N) (m : option bytes) :
  1 <= k < 2 ^ 29 -> Forall emitted (message_field k m).
Proof.
  intros. destruct m; [|constructor].
  constructor; [by split|constructor].
Qed.

Lemma emitted_repeated_field (k : N) (l : list bytes) :
  1 <= k < 2 ^ 29 -> Forall emitted (repeated_field k l).
Proof.
  intros. unfold repeated_field. apply Forall_fmap, Forall_forall.
  intros b _. by split.
Qed.

Lemma fits_payload (fs : list field) (num : N) (b : bytes) :
  fits (encode fs) -> (num, Bytes b) ∈ fs -> fits b.
Proof.
  unfold fits. intros Hf Hin. pose proof (encode_payload_length fs num b Hin). lia.
Qed.

Lemma uint64_of_int64_range (v : Z) : uint64_of_int64 v < 2 ^ 64.
Proof.
  unfold uint64_of_int64.
  pose proof (Z.mod_pos_bound v (2 ^ 64) ltac:(done)). lia.
Qed.

Lemma int64_of_uint64_of_int64 (v : Z) :
  (- 2 ^ 63 <= v < 2 ^ 63)%Z -> int64_of_uint64 (uint64_of_int64 v) = v.
Proof.
  intros Hv. unfold int64_of_uint64, uint64_of_int64.
  change (2 ^ 63) with 9223372036854775808.
  change (2 ^ 63)%Z with 9223372036854775808%Z in Hv.
  change (2 ^ 64)%Z with 18446744073709551616%Z.
  destruct (Z.neg_nonneg_cases v) as [Hneg|Hpos].
  - assert (v mod 18446744073709551616 = v + 18446744073709551616)%Z as ->.
    { symmetry. apply (Z.mod_unique _ _ (-1)); lia. }
    destruct (N.ltb_spec (Z.to_N (v + 18446744073709551616)) 9223372036854775808); lia.
  - rewrite Z.mod_small by lia.
    destruct (N.ltb_spec (Z.to_N v) 9223372036854775808); lia.
Qed.

(** *** The messages of [core_pb]

    Modelled from the spec: the schema of the wire messages is not part of
    the development; the fields are numbered in the order of the data model. *)

Definition Signature_fields (m : core_pb.Signature) : list field :=
  bytes_field 1 (Signature_PubKey m) ++ bytes_field 2 (Signature_Value m).

(** A nil message has the empty encoding. *)
Definition Marshal_Signature (m : option core_pb.Signature) : bytes :=
  match m with
  | None => []
  | Some m => encode (Signature_fields m)
  end.

Definition Unmarshal_Signature (b : bytes) : option core_pb.Signature :=
  fs ← decode b;
  Some (core_pb.mkSignature (get_bytes 1 fs) (get_bytes 2 fs)).

Definition QuorumCert_fields (m : core_pb.QuorumCert) : list field :=
  bytes_field 1 (QuorumCert_BlockHash m)
  ++ repeated_field 2 (map Marshal_Signature (QuorumCert_Signatures m)).

Definition Marshal_QuorumCert (m : option core_pb.QuorumCert) : bytes :=
  match m with
  | None => []
  | Some m => encode (QuorumCert_fields m)
  end.

Definition Unmarshal_QuorumCert (b : bytes) : option core_pb.QuorumCert :=
  fs ← decode b;
  sigs ← mapM Unmarshal_Signature (get_repeated 2 fs);
  Some (core_pb.mkQuorumCert (get_bytes 1 fs) (map Some sigs)).

Definition Block_fields (m : core_pb.Block) : list field :=
  uint64_field 1 (Block_Height m)
  ++ bytes_field 2 (Block_Hash m)
  ++ bytes_field 3 (Block_ParentHash m)
  ++ bytes_field 4 (Block_Proposer m)
  ++ bytes_field 5 (Block_Signature m)
  ++ message_field 6 (option_map (fun qc => Marshal_QuorumCert (Some qc))
                        (Block_QuorumCert m))
  ++ uint64_field 7 (Block_ExecHeight m)
  ++ bytes_field 8 (Block_StateRoot m)
  ++ repeated_field 9 (Block_Transactions m).

Definition Marshal_Block (m : option core_pb.Block) : bytes :=
  match m with
  | None => []
  | Some m => encode (Block_fields m)
  end.

Definition Unmarshal_Block (b : bytes) : option core_pb.Block :=
  fs ← decode b;
  qc ← match get_message 6 fs with
       | None => Some None
       | Some p => Some <$> Unmarshal_QuorumCert p
       end;
  Some (core_pb.mkBlock (get_uint64 1 fs) (get_bytes 2 fs) (get_bytes 3 fs)
          (get_bytes 4 fs) (get_bytes 5 fs) qc (get_uint64 7 fs)
          (get_bytes 8 fs) (get_repeated 9 fs)).

Definition Transaction_fields (m : core_pb.Transaction) : list field :=
  int64_field 1 (Transaction_Nonce m)
  ++ bytes_field 2 (Transaction_Sender m)
  ++ bytes_field 3 (Transaction_CodeAddr m)
  ++ bytes_field 4 (Transaction_Input m)
  ++ bytes_field 5 (Transaction_Hash m)
  ++ bytes_field 6 (Transaction_Signature m).

Definition Marshal_Transaction (m : option core_pb.Transaction) : bytes :=
  match m with
  | None => []
  | Some m => encode (Transaction_fields m)
  end.

Definition Unmarshal_Transaction (b : bytes) : option core_pb.Transaction :=
  fs ← decode b;
  Some (core_pb.mkTransaction (get_int64 1 fs) (get_bytes 2 fs) (get_bytes 3 fs)
          (get_bytes 4 fs) (get_bytes 5 fs) (get_bytes 6 fs)).


(** *** Round trips *)

Lemma last_bytes_opt (b : bytes) :
  default [] (last (match b with [] => [] | _ :: _ => [b] end)) = b.
Proof. by destruct b. Qed.

Lemma last_uint64_opt (v : N) :
  default 0 (last (if v =? 0 then [] else [v])) = v.
Proof. destruct (N.eqb_spec v 0) as [->|]; done. Qed.

Ltac proto_fields :=
  unfold get_bytes, get_int64, get_uint64, get_repeated, get_message, int64_field;
  rewrite ?omap_app;
  rewrite ?payload_of_uint64_field, ?payload_of_bytes_field,
    ?payload_of_message_field, ?payload_of_repeated_field,
    ?varint_of_uint64_field, ?varint_of_bytes_field,
    ?varint_of_message_field, ?varint_of_repeated_field;
  cbn [N.eqb Pos.eqb app];
  rewrite ?app_nil_r, ?last_bytes_opt, ?last_uint64_opt.

Ltac proto_emitted :=
  repeat first
    [ apply Forall_app; split
    | apply emitted_uint64_field; [done| ]
    | apply emitted_bytes_field; done
    | apply emitted_message_field; done
    | apply emitted_repeated_field; done ].

Lemma Signature_roundtrip (m : core_pb.Signature) :
  fits (Marshal_Signature (Some m)) ->
  Unmarshal_Signature (Marshal_Signature (Some m)) = Some m.
Proof.
  intros Hfit. unfold Unmarshal_Signature, Marshal_Signature in *.
  rewrite decode_emitted; [|unfold Signature_fields; proto_emitted|done].
  cbn [mbind option_bind]. unfold Signature_fields. proto_fields.
  by destruct m.
Qed.

(** What a nil element of a repeated message field reads back as: the empty
    message. *)
Definition canon_Signature (m : option core_pb.Signature) : core_pb.Signature :=
  default (core_pb.mkSignature [] []) m.

Lemma Signature_roundtrip_canon (m : option core_pb.Signature) :
  fits (Marshal_Signature m) ->
  Unmarshal_Signature (Marshal_Signature m) = Some (canon_Signature m).
Proof.
  destruct m as [m|]; [apply Signature_roundtrip|]. done.
Qed.

Definition canon_QuorumCert (m : core_pb.QuorumCert) : core_pb.QuorumCert :=
  core_pb.mkQuorumCert (QuorumCert_BlockHash m)
    (map (fun s => Some (canon_Signature s)) (QuorumCert_Signatures m)).

Lemma mapM_Unmarshal_Signature (l : list (option core_pb.Signature)) :
  Forall (fun m => fits (Marshal_Signature m)) l ->
  mapM Unmarshal_Signature (map Marshal_Signature l) = Some (map canon_Signature l).
Proof.
  induction 1 as [|m l Hm Hl IH]; [done|].
  cbn [map mapM]. rewrite Signature_roundtrip_canon by done.
  cbn [mbind option_bind]. rewrite IH. done.
Qed.

Lemma QuorumCert_roundtrip (m : core_pb.QuorumCert) :
  fits (Marshal_QuorumCert (Some m)) ->
  Unmarshal_QuorumCert (Marshal_QuorumCert (Some m)) = Some (canon_QuorumCert m).
Proof.
  intros Hfit. unfold Unmarshal_QuorumCert, Marshal_QuorumCert in *.
  rewrite decode_emitted; [|unfold QuorumCert_fields; proto_emitted|done].
  cbn [mbind option_bind]. unfold QuorumCert_fields in *. proto_fields.
  rewrite mapM_Unmarshal_Signature.
  - cbn [mbind option_bind]. unfold canon_QuorumCert.
    by rewrite <- list_fmap_compose.
  - apply Forall_forall. intros s Hs.
    apply (fits_payload _ 2 _ Hfit). apply elem_of_app. right.
    unfold repeated_field. rewrite <- list_fmap_compose.
    apply list_elem_of_fmap. by exists s.
Qed.

Definition canon_Block (m : core_pb.Block) : core_pb.Block :=
  core_pb.mkBlock (Block_Height m) (Block_Hash m) (Block_ParentHash m)
    (Block_Proposer m) (Block_Signature m)
    (option_map canon_QuorumCert (Block_QuorumCert m))
    (Block_ExecHeight m) (Block_StateRoot m) (Block_Transactions m).

Lemma Block_roundtrip (m : core_pb.Block) :
  Block_Height m < 2 ^ 64 -> Block_ExecHeight m < 2 ^ 64 ->
  fits (Marshal_Block (Some m)) ->
  Unmarshal_Block (Marshal_Block (Some m)) = Some (canon_Block m).
Proof.
  intros Hh He Hfit. unfold Unmarshal_Block, Marshal_Block in *.
  rewrite decode_emitted; [|unfold Block_fields; proto_emitted; done|done].
  cbn [mbind option_bind]. unfold Block_fields in *. proto_fields.
  destruct (Block_QuorumCert m) as [qc|] eqn:Hqc; cbn [option_map option_list].
  - unfold option_list. cbn [option_rect concat]. rewrite app_nil_r.
    rewrite QuorumCert_roundtrip.
    + cbn [fmap option_fmap option_map mbind option_bind].
      unfold canon_Block. rewrite Hqc. done.
    + apply (fits_payload _ 6 _ Hfit).
      rewrite !elem_of_app. do 5 right. left. cbn. left.
  - unfold option_list. cbn [option_rect mbind option_bind].
    unfold canon_Block. by rewrite Hqc.
Qed.

Lemma Transaction_roundtrip (m : core_pb.Transaction) :
  (- 2 ^ 63 <= Transaction_Nonce m < 2 ^ 63)%Z ->
  fits (Marshal_Transaction (Some m)) ->
  Unmarshal_Transaction (Marshal_Transaction (Some m)) = Some m.
Proof.
  intros Hn Hfit. unfold Unmarshal_Transaction, Marshal_Transaction in *.
  rewrite decode_emitted;
    [|unfold Transaction_fields, int64_field; proto_emitted;
      apply uint64_of_int64_range|done].
  cbn [mbind option_bind]. unfold Transaction_fields. proto_fields.
  rewrite int64_of_uint64_of_int64 by done. by destruct m.
Qed.


(** [utf8.Valid]: the byte string is a sequence of well-formed UTF-8
    encodings (a proto3 string field must be one). *)
Fixpoint utf8_Valid (b : bytes) : bool :=
  let cont x := (128 <=? Byte.to_N x) && (Byte.to_N x <=? 191) in
  let within lo x hi := (lo <=? Byte.to_N x) && (Byte.to_N x <=? hi) in
  match b with
  | [] => true
  | x :: rest =>
      if Byte.to_N x <? 128 then utf8_Valid rest
      else if within 194 x 223 then
        match rest with
        | y :: rest => cont y && utf8_Valid rest
        | _ => false
        end
      else if within 224 x 239 then
        match rest with
        | y :: z :: rest =>
            (if Byte.to_N x =? 224 then within 160 y 191
             else if Byte.to_N x =? 237 then within 128 y 159
             else cont y)
            && cont z && utf8_Valid rest
        | _ => false
        end
      else if within 240 x 244 then
        match rest with
        | y :: z :: u :: rest =>
            (if Byte.to_N x =? 240 then within 144 y 191
             else if Byte.to_N x =? 244 then within 128 y 143
             else cont y)
            && cont z && cont u && utf8_Valid rest
        | _ => false
        end
      else false
  end.

Definition TxCommit_fields (m : core_pb.TxCommit) : list field :=
  bytes_field 1 (TxCommit_Hash m)
  ++ bytes_field 2 (TxCommit_BlockHash m)
  ++ uint64_field 3 (TxCommit_BlockHeight m)
  ++ int64_field 4 (TxCommit_Elapsed m)
  ++ bytes_field 5 (TxCommit_Error m).

Definition empty_TxCommit : core_pb.TxCommit := core_pb.mkTxCommit [] [] 0 0 [].

(** Marshalling fails on a string field that is not valid UTF-8. *)
Definition Marshal_TxCommit (m : option core_pb.TxCommit) : option bytes :=
  match m with
  | None => Some []
  | Some m =>
      if utf8_Valid (TxCommit_Error m) then Some (encode (TxCommit_fields m))
      else None
  end.

Definition Unmarshal_TxCommit (b : bytes) : option core_pb.TxCommit :=
  fs ← decode b;
  if utf8_Valid (get_bytes 5 fs)
  then Some (core_pb.mkTxCommit (get_bytes 1 fs) (get_bytes 2 fs)
               (get_uint64 3 fs) (get_int64 4 fs) (get_bytes 5 fs))
  else None.

Definition TxList_fields (m : core_pb.TxList) : list field :=
  repeated_field 1 (map Marshal_Transaction (TxList_List m)).

Definition Marshal_TxList (m : option core_pb.TxList) : bytes :=
  match m with
  | None => []
  | Some m => encode (TxList_fields m)
  end.

Definition Unmarshal_TxList (b : bytes) : option core_pb.TxList :=
  fs ← decode b;
  txs ← mapM Unmarshal_Transaction (get_repeated 1 fs);
  Some (core_pb.mkTxList (map Some txs)).

Definition empty_Transaction : core_pb.Transaction :=
  core_pb.mkTransaction 0 [] [] [] [] [].

Definition empty_Block : core_pb.Block :=
  core_pb.mkBlock 0 [] [] [] [] None 0 [] [].

Lemma TxCommit_roundtrip (m : core_pb.TxCommit) (b : bytes) :
  TxCommit_BlockHeight m < 2 ^ 64 ->
  (- 2 ^ 63 <= TxCommit_Elapsed m < 2 ^ 63)%Z ->
  Marshal_TxCommit (Some m) = Some b -> fits b ->
  Unmarshal_TxCommit b = Some m.
Proof.
  intros Hh He Hm Hfit. unfold Unmarshal_TxCommit, Marshal_TxCommit in *.
  destruct (utf8_Valid (TxCommit_Error m)) eqn:Hutf; [|done].
  injection Hm as <-.
  rewrite decode_emitted;
    [|unfold TxCommit_fields, int64_field; proto_emitted;
      first [done|apply uint64_of_int64_range]|done].
  cbn [mbind option_bind]. unfold TxCommit_fields. proto_fields.
  rewrite Hutf. rewrite int64_of_uint64_of_int64 by done. by destruct m.
Qed.

Lemma mapM_Unmarshal_Transaction (l : list (option core_pb.Transaction)) :
  Forall (fun m => (- 2 ^ 63 <= Transaction_Nonce (default empty_Transaction m)
                    < 2 ^ 63)%Z /\ fits (Marshal_Transaction m)) l ->
  mapM Unmarshal_Transaction (map Marshal_Transaction l)
  = Some (map (default empty_Transaction) l).
Proof.
  induction 1 as [|m l [Hn Hm] Hl IH]; [done|].
  cbn [map mapM]. destruct m as [m|].
  - rewrite Transaction_roundtrip by done.
    cbn [mbind option_bind]. by rewrite IH.
  - cbn. by rewrite IH.
Qed.

Lemma TxList_roundtrip (m : core_pb.TxList) :
  Forall (fun t => (- 2 ^ 63 <= Transaction_Nonce (default empty_Transaction t)
                    < 2 ^ 63)%Z) (TxList_List m) ->
  fits (Marshal_TxList (Some m)) ->
  Unmarshal_TxList (Marshal_TxList (Some m))
  = Some (core_pb.mkTxList
            (map (fun t => Some (default empty_Transaction t)) (TxList_List m))).
Proof.
  intros Hn Hfit. unfold Unmarshal_TxList, Marshal_TxList in *.
  rewrite decode_emitted; [|unfold TxList_fields; proto_emitted|done].
  cbn [mbind option_bind]. unfold TxList_fields in *. proto_fields.
  rewrite mapM_Unmarshal_Transaction.
  - cbn [mbind option_bind]. by rewrite <- list_fmap_compose.
  - apply Forall_forall. intros t Ht. split.
    + rewrite Forall_forall in Hn. by apply Hn.
    + apply (fits_payload _ 1 _ Hfit).
      unfold repeated_field. rewrite <- list_fmap_compose.
      apply list_elem_of_fmap. by exists t.
Qed.

End proto.

(* ================================================================== *)
(** ** Marshalling the core types ([block.go]) *)

Section Marshal.

Import proto.

(** Modelled from the spec: [QuorumCert.setData] wraps the message it is
    given. *)
Definition QuorumCert_setData (data : option core_pb.QuorumCert) : QuorumCert :=
  mkQC data.

(** [Block.setData], on the non-nil message [UnmarshalBlock] hands it. *)
Definition Block_setData (data : core_pb.Block) : Block :=
  mkBlk (Some data)
        (NewPublicKey (Block_Proposer data)).1
        (Some (QuorumCert_setData (Block_QuorumCert data))).

(** [Block.Marshal]: [proto.Marshal(blk.data)]; [None] is an error. *)
Definition Block_Marshal (blk : Block) : option bytes :=
  Some (Marshal_Block (Block_data blk)).

(** [UnmarshalBlock] *)
Definition UnmarshalBlock (b : bytes) : option Block :=
  data ← Unmarshal_Block b;
  Some (Block_setData data).

(** [Transaction.setData] *)
Definition Transaction_setData (data : core_pb.Transaction) : Transaction :=
  mkTx (Some data) (NewPublicKey (Transaction_Sender data)).1.

(** [Transaction.Marshal] *)
Definition Transaction_Marshal (tx : Transaction) : option bytes :=
  Some (Marshal_Transaction (Transaction_data tx)).

(** [Transaction.Unmarshal]: the receiver afterwards, and whether the call
    returned nil; on an error the receiver is left as it was. *)
Definition Transaction_Unmarshal (tx : Transaction) (b : bytes)
  : Transaction * bool :=
  match Unmarshal_Transaction b with
  | None => (tx, false)
  | Some data => (Transaction_setData data, true)
  end.

(** [TxCommit.Marshal] *)
Definition TxCommit_Marshal (txc : TxCommit) : option bytes :=
  Marshal_TxCommit (TxCommit_data txc).

(** [TxCommit.Unmarshal] *)
Definition TxCommit_Unmarshal (txc : TxCommit) (b : bytes) : TxCommit * bool :=
  match Unmarshal_TxCommit b with
  | None => (txc, false)
  | Some data => (mkTxc (Some data), true)
  end.

(** [TxList.Marshal]: collects [tx.data] of every transaction, reading through
    each pointer of the list. *)
Definition TxList_Marshal (txs : TxList) : go (option bytes) :=
  datas ← foldr (fun tx acc => t ← deref tx; l ← acc; Ret (Transaction_data t :: l))
                (Ret []) txs;
  Ret (Some (Marshal_TxList (Some (core_pb.mkTxList datas)))).

(** [TxList.Unmarshal]: every decoded message is wrapped with [setData],
    which reads through it. *)
Definition TxList_Unmarshal (txs : TxList) (b : bytes) : go (TxList * bool) :=
  match Unmarshal_TxList b with
  | None => Ret (txs, false)
  | Some data =>
      l ← foldr (fun txData acc =>
                   d ← deref txData; l ← acc;
                   Ret (Some (Transaction_setData d) :: l))
                (Ret []) (TxList_List data);
      Ret (l, true)
  end.

(** The message a value carries, read as the wire reads it: a nil message is
    the empty message. *)
Definition Block_message (blk : Block) : core_pb.Block :=
  default empty_Block (Block_data blk).

Definition Transaction_message (tx : Transaction) : core_pb.Transaction :=
  default empty_Transaction (Transaction_data tx).

Definition TxCommit_message (txc : TxCommit) : core_pb.TxCommit :=
  default empty_TxCommit (TxCommit_data txc).

Lemma canon_Block_id (d : core_pb.Block) :
  (forall qc, Block_QuorumCert d = Some qc -> None ∉ QuorumCert_Signatures qc) ->
  canon_Block d = d.
Proof.
  intros Hqc. destruct d as [h hash ph pr sg qc eh sr txs]. unfold canon_Block.
  cbn in *. f_equal. destruct qc as [qc|]; [|done]. cbn. f_equal.
  specialize (Hqc qc eq_refl). destruct qc as [bh sigs]. unfold canon_QuorumCert.
  cbn in *. f_equal. induction sigs as [|s sigs IH]; [done|].
  apply not_elem_of_cons in Hqc as [Hs Hsigs]. cbn. rewrite IH by done.
  destruct s; [done|congruence].
Qed.

Lemma TxList_Marshal_Ret (txs : TxList) (r : option bytes) :
  TxList_Marshal txs = Ret r ->
  exists ts : list Transaction,
    txs = map Some ts
    /\ r = Some (Marshal_TxList (Some (core_pb.mkTxList (map Transaction_data ts)))).
Proof.
  unfold TxList_Marshal.
  assert (forall l, foldr (fun tx acc => t ← deref tx; l ← acc;
                                          Ret (Transaction_data t :: l))
                          (Ret []) txs = Ret l ->
          exists ts, txs = map Some ts /\ l = map Transaction_data ts) as Hfold.
  { induction txs as [|tx txs IH]; intros l; cbn [foldr].
    - intros [= <-]. by exists [].
    - destruct tx as [t|]; [|done]. cbn [deref mbind go_bind].
      destruct (foldr _ _ txs) as [l'|]; [|done]. cbn [mbind go_bind].
      intros [= <-]. destruct (IH l' eq_refl) as (ts & -> & ->).
      by exists (t :: ts). }
  destruct (foldr _ _ txs) as [l|]; [|done]. cbn [mbind go_bind].
  intros [= <-]. destruct (Hfold l eq_refl) as (ts & -> & ->). by exists ts.
Qed.

(** The key wrapper [setData] derives from key bytes: nil unless they are
    well formed. *)
Definition key_wrapper (b : bytes) : option PublicKey :=
  if bool_decide (length b = PublicKeySize) then Some (mkPublicKey b) else None.

(** C8 (amended).  Unmarshalling the bytes that marshalling a block, a
    transaction, a tx commit or a tx list produces yields a value whose
    message has the fields of the message marshalled, where a nil message
    reads back as the empty message, whose every field is the zero value, as
    does a nil element of a repeated field; and whose wrapper fields are the
    ones [setData] derives from the message: the key of the proposer or
    sender bytes, nil when they are malformed, and a certificate wrapper over
    the certificate message.  The value read is the value marshalled exactly
    when that one has a non-nil message, without nil elements, and these
    wrapper fields.  The integers are in the range of their Go types and the
    encoding has a length a [uint64] holds. *)
Theorem Marshal_Unmarshal_roundtrip :
  (forall (blk : Block) (b : bytes),
     Block_Height (Block_message blk) < 2 ^ 64 ->
     Block_ExecHeight (Block_message blk) < 2 ^ 64 ->
     Block_Marshal blk = Some b -> fits b ->
     exists blk',
       UnmarshalBlock b = Some blk'
       /\ Block_data blk' = Some (canon_Block (Block_message blk))
       /\ Block_proposer blk'
          = key_wrapper (Block_Proposer (Block_message blk))
       /\ Block_quorumCert blk'
          = Some (mkQC (option_map canon_QuorumCert
                          (Block_QuorumCert (Block_message blk))))
       /\ (blk' = blk <->
           Block_data blk = Some (canon_Block (Block_message blk))
           /\ Block_proposer blk
              = key_wrapper (Block_Proposer (Block_message blk))
           /\ Block_quorumCert blk
              = Some (mkQC (Block_QuorumCert (Block_message blk)))))
  /\ (forall d : core_pb.Block,
        (forall qc, Block_QuorumCert d = Some qc ->
                    None ∉ QuorumCert_Signatures qc) ->
        canon_Block d = d)
  /\ (forall (tx tx0 : Transaction) (b : bytes),
        (- 2 ^ 63 <= Transaction_Nonce (Transaction_message tx) < 2 ^ 63)%Z ->
        Transaction_Marshal tx = Some b -> fits b ->
        exists tx',
          Transaction_Unmarshal tx0 b = (tx', true)
          /\ Transaction_data tx' = Some (Transaction_message tx)
          /\ Transaction_sender tx'
             = key_wrapper (Transaction_Sender (Transaction_message tx))
          /\ (tx' = tx <->
              Transaction_data tx <> None
              /\ Transaction_sender tx
                 = key_wrapper (Transaction_Sender (Transaction_message tx))))
  /\ (forall (txc txc0 : TxCommit) (b : bytes),
        TxCommit_BlockHeight (TxCommit_message txc) < 2 ^ 64 ->
        (- 2 ^ 63 <= TxCommit_Elapsed (TxCommit_message txc) < 2 ^ 63)%Z ->
        TxCommit_Marshal txc = Some b -> fits b ->
        TxCommit_Unmarshal txc0 b = (mkTxc (Some (TxCommit_message txc)), true)
        /\ (mkTxc (Some (TxCommit_message txc)) = txc <->
            TxCommit_data txc <> None))
  /\ (forall (txs txs0 : TxList) (b : bytes),
        Forall (fun tx => forall t, tx = Some t ->
                  (- 2 ^ 63 <= Transaction_Nonce (Transaction_message t)
                   < 2 ^ 63)%Z) txs ->
        TxList_Marshal txs = Ret (Some b) -> fits b ->
        exists ts : list Transaction,
          let read (t : Transaction) :=
            mkTx (Some (Transaction_message t))
                 (key_wrapper (Transaction_Sender (Transaction_message t))) in
          txs = map Some ts
          /\ TxList_Unmarshal txs0 b = Ret (map (fun t => Some (read t)) ts, true)
          /\ (map (fun t => Some (read t)) ts = txs <->
              Forall (fun t => read t = t) ts)).
Proof.
  assert (forall b, (NewPublicKey b).1 = key_wrapper b) as Hkey.
  { intros b. unfold NewPublicKey, key_wrapper. by destruct (bool_decide _). }
  split; [|split; [exact canon_Block_id|split; [|split]]].
  - intros blk b Hh He [= <-] Hfit.
    assert (UnmarshalBlock (Marshal_Block (Block_data blk))
            = Some (Block_setData (canon_Block (Block_message blk)))) as Hrt.
    { unfold UnmarshalBlock, Block_message in *.
      destruct (Block_data blk) as [d|]; cbn [default] in *.
      - by rewrite Block_roundtrip.
      - reflexivity. }
    eexists. split; [exact Hrt|]. unfold Block_setData.
    cbn [Block_data Block_proposer Block_quorumCert canon_Block Block_Proposer
         Block_QuorumCert QuorumCert_setData]. rewrite Hkey.
    split; [done|]. split; [done|]. split; [done|].
    destruct blk as [data pr qc]. unfold Block_message.
    cbn [Block_data Block_proposer Block_quorumCert].
    set (m := default empty_Block data).
    assert (data = Some (canon_Block m) ->
            option_map canon_QuorumCert (Block_QuorumCert m) = Block_QuorumCert m)
      as Hfix.
    { subst m. destruct data as [d|]; [|done]. cbn [default].
      intros [= Hd]. apply (f_equal Block_QuorumCert) in Hd. by cbn in Hd. }
    split.
    + intros [= Hd Hp Hq]. specialize (Hfix (eq_sym Hd)).
      split; [done|]. split; [done|]. rewrite <- Hq. by rewrite Hfix.
    + intros (Hd & Hp & Hq). specialize (Hfix Hd). rewrite Hfix.
      unfold QuorumCert_setData. congruence.
  - intros tx tx0 b Hn [= <-] Hfit.
    assert (Transaction_Unmarshal tx0 (Marshal_Transaction (Transaction_data tx))
            = (Transaction_setData (Transaction_message tx), true)) as Hrt.
    { unfold Transaction_Unmarshal, Transaction_message in *.
      destruct (Transaction_data tx) as [d|]; cbn [default] in *.
      - by rewrite Transaction_roundtrip.
      - reflexivity. }
    eexists. split; [exact Hrt|]. unfold Transaction_setData.
    cbn [Transaction_data Transaction_sender]. rewrite Hkey.
    split; [done|]. split; [done|].
    destruct tx as [data sd]. unfold Transaction_message.
    cbn [Transaction_data Transaction_sender]. split.
    + intros [= <- <-]. by cbn [default].
    + intros [Hd ->]. destruct data as [d|]; [|done]. by cbn [default].
  - intros txc txc0 b Hh He Hm Hfit. split.
    + unfold TxCommit_Unmarshal, TxCommit_Marshal, TxCommit_message in *.
      destruct (TxCommit_data txc) as [d|]; cbn [default] in *.
      * by rewrite (TxCommit_roundtrip d b).
      * injection Hm as <-. reflexivity.
    + destruct txc as [[d|]]; unfold TxCommit_message; cbn; split; done.
  - intros txs txs0 b Hn Hm Hfit.
    apply TxList_Marshal_Ret in Hm as (ts & -> & [= ->]). exists ts. cbv zeta.
    split; [done|]. split.
    + unfold TxList_Unmarshal.
      pose proof (TxList_roundtrip (core_pb.mkTxList (map Transaction_data ts)))
        as Hrt.
      cbn [Marshal_TxList TxList_List] in Hrt. rewrite Hrt; [| |done].
      * rewrite <- !list_fmap_compose. cbn [TxList_List].
        clear -Hkey. induction ts as [|t ts IH]; [done|].
        cbn [fmap list_fmap foldr compose deref mbind go_bind map] in *.
        destruct (foldr _ _ _) as [l|]; [|done].
        cbn [mbind go_bind] in *. injection IH as ->.
        unfold Transaction_setData, Transaction_message.
        cbn [Transaction_data Transaction_sender]. by rewrite Hkey.
      * rewrite Forall_fmap. apply Forall_fmap in Hn.
        eapply Forall_impl; [exact Hn|]. intros t Ht. cbn. by apply Ht.
    + clear. induction ts as [|t ts IH]; [by split; [constructor|]|].
      cbn [map]. rewrite Forall_cons. split.
      * intros [= Ht Hts]. split; [done|]. by apply IH.
      * intros [Ht Hts]. f_equal; [by f_equal|]. by apply IH.
Qed.

End Marshal.

(** C8, counterexample.  The block [NewBlock().SetHeight(10)], which has no
    certificate wrapper, reads back with one: the value read is not the value
    marshalled.  A block without a message reads back with the empty message,
    and so does a tx commit. *)
Lemma Marshal_Unmarshal_counterexample :
  let v := mkBlk (Some (core_pb.mkBlock 10 [] [] [] [] None 0 [] [])) None None in
  (exists b v',
     Block_Marshal v = Some b /\ UnmarshalBlock b = Some v'
     /\ v' <> v
     /\ Block_quorumCert v = None /\ Block_quorumCert v' = Some (mkQC None))
  /\ (exists b v',
        Block_Marshal (mkBlk None None None) = Some b
        /\ UnmarshalBlock b = Some v'
        /\ v' <> mkBlk None None None
        /\ Block_data v' = Some proto.empty_Block)
  /\ (exists b,
        TxCommit_Marshal (mkTxc None) = Some b
        /\ TxCommit_Unmarshal (mkTxc None) b
           = (mkTxc (Some proto.empty_TxCommit), true)).
Proof.
  cbv zeta. split; [|split].
  - eexists _, _. split; [reflexivity|]. split; [by vm_compute|].
    split; [discriminate|]. by split.
  - eexists _, _. split; [reflexivity|]. split; [by vm_compute|].
    split; [discriminate|]. done.
  - eexists. split; [reflexivity|]. by vm_compute.
Qed.

(** A block with its derived wrapper fields reads back as itself. *)
Lemma Marshal_Unmarshal_roundtrip_witness :
  let d := core_pb.mkBlock 1 [xaa] [] (toy_key x01) [] None 300 [] [[x01]; [x02]] in
  let v := mkBlk (Some d) (Some (mkPublicKey (toy_key x01))) (Some (mkQC None)) in
  UnmarshalBlock (proto.Marshal_Block (Some d)) = Some v.
Proof.
  cbv zeta.
  destruct (proj1 Marshal_Unmarshal_roundtrip
              (mkBlk (Some (core_pb.mkBlock 1 [xaa] [] (toy_key x01) [] None 300 []
                              [[x01]; [x02]]))
                     (Some (mkPublicKey (toy_key x01))) (Some (mkQC None)))
              _ ltac:(by vm_compute) ltac:(by vm_compute) eq_refl
              ltac:(by vm_compute))
    as (v' & Hv & _ & _ & _ & Heq).
  cbn [Block_data] in Hv. rewrite Hv. f_equal. apply Heq. by vm_compute.
Defined.

(** A block on the wire: field 1 (height 1) is [08 01], field 2 (hash) is
    [12 01 aa], field 7 (exec height 300) is [38 ac 02], and each transaction
    hash is a field 9; reading the bytes gives the block back. *)
Lemma Marshal_Block_example :
  let d := core_pb.mkBlock 1 [xaa] [] [] [] None 300 [] [[x01]; [x02]] in
  proto.Marshal_Block (Some d)
  = [x08; x01; x12; x01; xaa; x38; xac; x02; x4a; x01; x01; x4a; x01; x02]
  /\ UnmarshalBlock (proto.Marshal_Block (Some d)) = Some (Block_setData d).
Proof. split; vm_compute; reflexivity. Qed.

(* ================================================================== *)
(** ** Building and signing blocks and transactions ([block.go]) *)

Section Signing.

Variable sha3_256 : bytes -> bytes.
Variable ed25519_Verify : bytes -> bytes -> bytes -> bool.

(** Private keys are defined elsewhere in package [core]: a key has its
    public key ([priv.PublicKey()]) and signs a message ([priv.Sign(msg)]
    returns a signature, whose [data] is a message with the signature
    value). *)
Variable PrivateKey : Type.
Variable PrivateKey_PublicKey : PrivateKey -> PublicKey.
Variable PrivateKey_Sign : PrivateKey -> bytes -> Signature.

(** [NewBlock]: a block over the zero message. *)
Definition NewBlock : Block := mkBlk (Some proto.empty_Block) None None.

(** Assigning through [blk.data]: a nil message panics. *)
Definition Block_update (blk : Block) (f : core_pb.Block -> core_pb.Block)
  : go Block :=
  d ← deref (Block_data blk);
  Ret (mkBlk (Some (f d)) (Block_proposer blk) (Block_quorumCert blk)).

Definition Block_SetHeight (blk : Block) (val : N) : go Block :=
  Block_update blk (fun d =>
    mkBlock val (Block_Hash d) (Block_ParentHash d) (Block_Proposer d)
      (Block_Signature d) (Block_QuorumCert d) (Block_ExecHeight d)
      (Block_StateRoot d) (Block_Transactions d)).

Definition Block_SetParentHash (blk : Block) (val : bytes) : go Block :=
  Block_update blk (fun d =>
    mkBlock (Block_Height d) (Block_Hash d) val (Block_Proposer d)
      (Block_Signature d) (Block_QuorumCert d) (Block_ExecHeight d)
      (Block_StateRoot d) (Block_Transactions d)).

(** [SetQuorumCert]: the wrapper is kept, and its message goes into the
    block's message; [val.data] reads through [val]. *)
Definition Block_SetQuorumCert (blk : Block) (val : option QuorumCert) : go Block :=
  let blk := mkBlk (Block_data blk) (Block_proposer blk) val in
  qc ← deref val;
  Block_update blk (fun d =>
    mkBlock (Block_Height d) (Block_Hash d) (Block_ParentHash d)
      (Block_Proposer d) (Block_Signature d) (QuorumCert_data qc)
      (Block_ExecHeight d) (Block_StateRoot d) (Block_Transactions d)).

Definition Block_SetExecHeight (blk : Block) (val : N) : go Block :=
  Block_update blk (fun d =>
    mkBlock (Block_Height d) (Block_Hash d) (Block_ParentHash d)
      (Block_Proposer d) (Block_Signature d) (Block_QuorumCert d) val
      (Block_StateRoot d) (Block_Transactions d)).

Definition Block_SetStateRoot (blk : Block) (val : bytes) : go Block :=
  Block_update blk (fun d =>
    mkBlock (Block_Height d) (Block_Hash d) (Block_ParentHash d)
      (Block_Proposer d) (Block_Signature d) (Block_QuorumCert d)
      (Block_ExecHeight d) val (Block_Transactions d)).

Definition Block_SetTransactions (blk : Block) (val : list bytes) : go Block :=
  Block_update blk (fun d =>
    mkBlock (Block_Height d) (Block_Hash d) (Block_ParentHash d)
      (Block_Proposer d) (Block_Signature d) (Block_QuorumCert d)
      (Block_ExecHeight d) (Block_StateRoot d) val).

(** [Block.Sign]: the proposer is set first, so the hash covers it; the
    signature is over the hash. *)
Definition Block_Sign (blk : Block) (priv : PrivateKey) : go Block :=
  let pub := PrivateKey_PublicKey priv in
  let blk := mkBlk (Block_data blk) (Some pub) (Block_quorumCert blk) in
  blk ← Block_update blk (fun d =>
    mkBlock (Block_Height d) (Block_Hash d) (Block_ParentHash d) (key pub)
      (Block_Signature d) (Block_QuorumCert d) (Block_ExecHeight d)
      (Block_StateRoot d) (Block_Transactions d));
  sum ← Block_Sum sha3_256 blk;
  blk ← Block_update blk (fun d =>
    mkBlock (Block_Height d) sum (Block_ParentHash d) (Block_Proposer d)
      (Block_Signature d) (Block_QuorumCert d) (Block_ExecHeight d)
      (Block_StateRoot d) (Block_Transactions d));
  Block_update blk (fun d =>
    mkBlock (Block_Height d) (Block_Hash d) (Block_ParentHash d)
      (Block_Proposer d)
      (Signature_Value (Signature_data (PrivateKey_Sign priv (Block_Hash d))))
      (Block_QuorumCert d) (Block_ExecHeight d) (Block_StateRoot d)
      (Block_Transactions d)).

(** [Block.Vote]: a vote for the block, signed over its hash. *)
Definition Block_Vote (blk : Block) (priv : PrivateKey) : go Vote :=
  d ← deref (Block_data blk);
  Ret (mkVoteW (Some (mkVote (Block_Hash d)
                        (Some (Signature_data (PrivateKey_Sign priv (Block_Hash d))))))).

(** [NewTransaction] *)
Definition NewTransaction : Transaction := mkTx (Some proto.empty_Transaction) None.

Definition Transaction_update (tx : Transaction)
    (f : core_pb.Transaction -> core_pb.Transaction) : go Transaction :=
  d ← deref (Transaction_data tx);
  Ret (mkTx (Some (f d)) (Transaction_sender tx)).

Definition Transaction_SetNonce (tx : Transaction) (val : Z) : go Transaction :=
  Transaction_update tx (fun d =>
    mkTransaction val (Transaction_Sender d) (Transaction_CodeAddr d)
      (Transaction_Input d) (Transaction_Hash d) (Transaction_Signature d)).

Definition Transaction_SetCodeAddr (tx : Transaction) (val : bytes) : go Transaction :=
  Transaction_update tx (fun d =>
    mkTransaction (Transaction_Nonce d) (Transaction_Sender d) val
      (Transaction_Input d) (Transaction_Hash d) (Transaction_Signature d)).

Definition Transaction_SetInput (tx : Transaction) (val : bytes) : go Transaction :=
  Transaction_update tx (fun d =>
    mkTransaction (Transaction_Nonce d) (Transaction_Sender d)
      (Transaction_CodeAddr d) val (Transaction_Hash d) (Transaction_Signature d)).

(** [Transaction.Sign] *)
Definition Transaction_Sign (tx : Transaction) (priv : PrivateKey) : go Transaction :=
  let pub := PrivateKey_PublicKey priv in
  let tx := mkTx (Transaction_data tx) (Some pub) in
  tx ← Transaction_update tx (fun d =>
    mkTransaction (Transaction_Nonce d) (key pub) (Transaction_CodeAddr d)
      (Transaction_Input d) (Transaction_Hash d) (Transaction_Signature d));
  sum ← Transaction_Sum sha3_256 tx;
  tx ← Transaction_update tx (fun d =>
    mkTransaction (Transaction_Nonce d) (Transaction_Sender d)
      (Transaction_CodeAddr d) (Transaction_Input d) sum
      (Transaction_Signature d));
  Transaction_update tx (fun d =>
    mkTransaction (Transaction_Nonce d) (Transaction_Sender d)
      (Transaction_CodeAddr d) (Transaction_Input d) (Transaction_Hash d)
      (Signature_Value (Signature_data
                          (PrivateKey_Sign priv (Transaction_Hash d))))).

(** What the hash of a transaction covers. *)
Definition Transaction_preimage (d : core_pb.Transaction) : bytes :=
  uint64ToBytes (uint64_of_int64 (Transaction_Nonce d)) ++
  Transaction_Sender d ++ Transaction_CodeAddr d ++ Transaction_Input d.

(** What the hash of a block covers. *)
Definition Block_preimage (d : core_pb.Block) : bytes :=
  uint64ToBytes (Block_Height d) ++ Block_ParentHash d ++ Block_Proposer d ++
  from_option QuorumCert_BlockHash [] (Block_QuorumCert d) ++
  uint64ToBytes (Block_ExecHeight d) ++ Block_StateRoot d ++
  concat (Block_Transactions d).

(** The key signs correctly: what it signs verifies under its public key,
    which is well formed. *)
Definition signs_correctly (priv : PrivateKey) : Prop :=
  length (key (PrivateKey_PublicKey priv)) = PublicKeySize
  /\ forall msg,
       ed25519_Verify (key (PrivateKey_PublicKey priv)) msg
         (Signature_Value (Signature_data (PrivateKey_Sign priv msg))) = true.

Lemma Transaction_Validate_data (d : core_pb.Transaction) (s : option PublicKey) :
  Transaction_Validate sha3_256 ed25519_Verify (mkTx (Some d) s)
  = if negb (bytes_Equal (sha3_256 (Transaction_preimage d)) (Transaction_Hash d))
    then Ret (Some ErrInvalidTxHash)
    else if bool_decide (length (Transaction_Sender d) = PublicKeySize)
         then if ed25519_Verify (Transaction_Sender d) (Transaction_Hash d)
                   (Transaction_Signature d)
              then Ret None else Ret (Some ErrInvalidSig)
         else Ret (Some ErrInvalidKeySize).
Proof.
  unfold Transaction_Validate. cbn [Transaction_data].
  rewrite (Transaction_Sum_data sha3_256 (mkTx (Some d) s) d eq_refl).
  unfold Transaction_Hash_of, Transaction_preimage.
  cbn [Transaction_data deref mbind go_bind].
  destruct (negb _); [done|].
  unfold newSignature, NewPublicKey. cbn [Signature_PubKey].
  destruct (bool_decide _); [|done].
  unfold Signature_Verify. cbn.
  by destruct (ed25519_Verify _ _ _).
Qed.

(** X1.  A transaction signed by [Sign] passes [Validate]: its hash is its sum,
    its sender the signer's key, and the signature verifies. *)
Theorem Transaction_Sign_Validate (tx : Transaction) (priv : PrivateKey)
        (d : core_pb.Transaction) :
  Transaction_data tx = Some d ->
  signs_correctly priv ->
  exists tx' d',
    Transaction_Sign tx priv = Ret tx'
    /\ Transaction_data tx' = Some d'
    /\ Transaction_sender tx' = Some (PrivateKey_PublicKey priv)
    /\ Transaction_Sender d' = key (PrivateKey_PublicKey priv)
    /\ Transaction_Nonce d' = Transaction_Nonce d
    /\ Transaction_CodeAddr d' = Transaction_CodeAddr d
    /\ Transaction_Input d' = Transaction_Input d
    /\ Transaction_Sum sha3_256 tx' = Ret (Transaction_Hash d')
    /\ Transaction_Validate sha3_256 ed25519_Verify tx' = Ret None.
Proof.
  intros Hd [Hlen Hsig]. unfold Transaction_Sign, Transaction_update.
  cbn [Transaction_data Transaction_sender]. rewrite Hd.
  cbn [deref mbind go_bind Transaction_data Transaction_sender].
  rewrite (Transaction_Sum_data sha3_256 (mkTx (Some _) _) _ eq_refl).
  cbn [mbind go_bind Transaction_data Transaction_sender deref
       Transaction_Nonce Transaction_Sender Transaction_CodeAddr
       Transaction_Input Transaction_Hash Transaction_Signature].
  eexists _, _. split; [reflexivity|]. split; [reflexivity|].
  cbn [Transaction_data Transaction_sender
       Transaction_Nonce Transaction_Sender Transaction_CodeAddr
       Transaction_Input Transaction_Hash Transaction_Signature].
  repeat (split; [reflexivity|]). split.
  - by rewrite (Transaction_Sum_data sha3_256 (mkTx (Some _) _) _ eq_refl).
  - rewrite Transaction_Validate_data. unfold Transaction_preimage.
    cbn [Transaction_Nonce Transaction_Sender Transaction_CodeAddr
         Transaction_Input Transaction_Hash Transaction_Signature].
    unfold bytes_Equal. rewrite bool_decide_eq_true_2 by done. cbn [negb].
    rewrite bool_decide_eq_true_2 by done. by rewrite Hsig.
Qed.

Lemma Block_Validate_data (d : core_pb.Block) (p : option PublicKey)
      (q : option QuorumCert) (vs : ValidatorStore) :
  Block_Validate sha3_256 ed25519_Verify (mkBlk (Some d) p q) vs
  = err ← QuorumCert_Validate ed25519_Verify q vs;
    match err with
    | Some e => Ret (Some e)
    | None =>
        if negb (bytes_Equal (sha3_256 (Block_preimage d)) (Block_Hash d))
        then Ret (Some ErrInvalidBlockHash)
        else if bool_decide (length (Block_Proposer d) = PublicKeySize)
             then if negb (IsValidator vs (mkPublicKey (Block_Proposer d)))
                  then Ret (Some ErrInvalidValidator)
                  else if ed25519_Verify (Block_Proposer d) (Block_Hash d)
                            (Block_Signature d)
                       then Ret None else Ret (Some ErrInvalidSig)
             else Panic
    end.
Proof.
  unfold Block_Validate. cbn [Block_data Block_quorumCert].
  destruct (QuorumCert_Validate _ q vs) as [[e|]|]; cbn [mbind go_bind]; [done| |done].
  rewrite (Block_Sum_data sha3_256 (mkBlk (Some d) p q) d eq_refl).
  unfold Block_Hash_of, Block_preimage. cbn [Block_data deref mbind go_bind].
  destruct (negb _); [done|].
  unfold newSignature, NewPublicKey. cbn [Signature_PubKey].
  destruct (bool_decide _); [|done]. cbn.
  destruct (IsValidator vs _); [|done]. cbn.
  by destruct (ed25519_Verify _ _ _).
Qed.

(** X2.  A block that carries a quorum certificate and is signed by [Sign]
    has a valid hash and a valid signature: [Validate] returns for it the
    error of its quorum certificate, if that has one, and else nil when the
    signer is a validator and [ErrInvalidValidator] when it is not. *)
Theorem Block_Sign_Validate (blk : Block) (priv : PrivateKey)
        (d : core_pb.Block) (q : QuorumCert) (vs : ValidatorStore) :
  Block_data blk = Some d ->
  Block_quorumCert blk = Some q ->
  signs_correctly priv ->
  exists blk' d' r,
    Block_Sign blk priv = Ret blk'
    /\ Block_data blk' = Some d'
    /\ Block_proposer blk' = Some (PrivateKey_PublicKey priv)
    /\ Block_quorumCert blk' = Some q
    /\ Block_Proposer d' = key (PrivateKey_PublicKey priv)
    /\ Block_Sum sha3_256 blk' = Ret (Block_Hash d')
    /\ QuorumCert_Validate ed25519_Verify (Some q) vs = Ret r
    /\ Block_Validate sha3_256 ed25519_Verify blk' vs
       = Ret (match r with
              | Some e => Some e
              | None =>
                  if IsValidator vs (PrivateKey_PublicKey priv) then None
                  else Some ErrInvalidValidator
              end).
Proof.
  intros Hd Hq [Hlen Hsig]. unfold Block_Sign, Block_update.
  cbn [Block_data Block_proposer Block_quorumCert]. rewrite Hd, Hq.
  cbn [deref mbind go_bind Block_data Block_proposer Block_quorumCert].
  rewrite (Block_Sum_data sha3_256 (mkBlk (Some _) _ _) _ eq_refl).
  cbn [mbind go_bind Block_data Block_proposer Block_quorumCert deref
       Block_Height Block_Hash Block_ParentHash Block_Proposer Block_Signature
       Block_QuorumCert Block_ExecHeight Block_StateRoot Block_Transactions].
  destruct (QuorumCert_Validate_returns ed25519_Verify q vs) as [r Hr].
  eexists _, _, r. split; [reflexivity|]. split; [reflexivity|].
  cbn [Block_data Block_proposer Block_quorumCert
       Block_Height Block_Hash Block_ParentHash Block_Proposer Block_Signature
       Block_QuorumCert Block_ExecHeight Block_StateRoot Block_Transactions].
  repeat (split; [reflexivity|]). split; [|split; [exact Hr|]].
  - by rewrite (Block_Sum_data sha3_256 (mkBlk (Some _) _ _) _ eq_refl).
  - rewrite Block_Validate_data, Hr. cbn [mbind go_bind].
    destruct r as [e|]; [done|].
    unfold Block_preimage.
    cbn [Block_Height Block_Hash Block_ParentHash Block_Proposer Block_Signature
         Block_QuorumCert Block_ExecHeight Block_StateRoot Block_Transactions].
    unfold bytes_Equal. rewrite bool_decide_eq_true_2 by done. cbn [negb].
    rewrite bool_decide_eq_true_2 by done. rewrite Hsig.
    destruct (PrivateKey_PublicKey priv) as [k]. cbn [key].
    by destruct (IsValidator vs _).
Qed.

Lemma uint64ToBytes_inj (v v' : N) :
  v < 2 ^ 64 -> v' < 2 ^ 64 -> uint64ToBytes v = uint64ToBytes v' -> v = v'.
Proof.
  intros Hv Hv' E. apply (f_equal be_value) in E.
  rewrite !uint64ToBytes_value, !N.mod_small in E; done.
Qed.

Lemma uint64_of_int64_inj (v v' : Z) :
  (- 2 ^ 63 <= v < 2 ^ 63)%Z -> (- 2 ^ 63 <= v' < 2 ^ 63)%Z ->
  uint64_of_int64 v = uint64_of_int64 v' -> v = v'.
Proof.
  intros Hv Hv' E. apply (f_equal int64_of_uint64) in E.
  by rewrite !proto.int64_of_uint64_of_int64 in E.
Qed.

(** A transaction whose hash is the sum of another hash input is refused
    for its hash, unless the digest is the same on the two hash inputs. *)
Lemma Transaction_Validate_preimage (d d' : core_pb.Transaction)
      (s : option PublicKey) :
  sha3_256 (Transaction_preimage d) = Transaction_Hash d ->
  Transaction_Hash d' = Transaction_Hash d ->
  Transaction_Validate sha3_256 ed25519_Verify (mkTx (Some d') s)
  = Ret (Some ErrInvalidTxHash)
  \/ sha3_256 (Transaction_preimage d') = sha3_256 (Transaction_preimage d).
Proof.
  intros Hh Hh'. rewrite Transaction_Validate_data, Hh'. unfold bytes_Equal.
  destruct (decide (sha3_256 (Transaction_preimage d') = Transaction_Hash d))
    as [E|E].
  - right. congruence.
  - left. by rewrite bool_decide_eq_false_2.
Qed.

(** X3.  Once the hash of a transaction is its sum, setting another nonce,
    another code address or another input changes the hash input, and
    [Validate] refuses the transaction for its hash, unless the digest is the
    same on the new hash input and on the old one. *)
Theorem Transaction_set_after_hash (tx : Transaction) (d : core_pb.Transaction) :
  Transaction_data tx = Some d ->
  Transaction_Sum sha3_256 tx = Ret (Transaction_Hash d) ->
  (- 2 ^ 63 <= Transaction_Nonce d < 2 ^ 63)%Z ->
  let refused (r : go Transaction) :=
    exists tx' d',
      r = Ret tx' /\ Transaction_data tx' = Some d'
      /\ Transaction_preimage d' <> Transaction_preimage d
      /\ (Transaction_Validate sha3_256 ed25519_Verify tx'
          = Ret (Some ErrInvalidTxHash)
          \/ sha3_256 (Transaction_preimage d')
             = sha3_256 (Transaction_preimage d)) in
  (forall n, (- 2 ^ 63 <= n < 2 ^ 63)%Z -> n <> Transaction_Nonce d ->
     refused (Transaction_SetNonce tx n))
  /\ (forall c, c <> Transaction_CodeAddr d ->
        refused (Transaction_SetCodeAddr tx c))
  /\ (forall i, i <> Transaction_Input d ->
        refused (Transaction_SetInput tx i)).
Proof.
  intros Hd Hsum Hn refused. subst refused. cbv beta.
  rewrite (Transaction_Sum_data sha3_256 tx d Hd) in Hsum.
  injection Hsum as Hsum. fold (Transaction_preimage d) in Hsum.
  destruct tx as [data s]. cbn [Transaction_data] in Hd. subst data.
  unfold Transaction_SetNonce, Transaction_SetCodeAddr, Transaction_SetInput,
    Transaction_update. cbn [Transaction_data Transaction_sender deref mbind go_bind].
  refine (conj _ (conj _ _)).
  - intros n Hn' Hne. eexists _, _. split; [reflexivity|]. split; [reflexivity|].
    split; [|by apply (Transaction_Validate_preimage d)].
    unfold Transaction_preimage. cbn. intros E.
    apply app_inj_1 in E as [E _]; [|by rewrite !uint64ToBytes_length].
    apply uint64ToBytes_inj in E; [|apply proto.uint64_of_int64_range..].
    by apply uint64_of_int64_inj in E.
  - intros c Hne. eexists _, _. split; [reflexivity|]. split; [reflexivity|].
    split; [|by apply (Transaction_Validate_preimage d)].
    unfold Transaction_preimage. cbn. intros E.
    do 2 apply app_inv_head in E. by apply app_inv_tail in E.
  - intros i Hne. eexists _, _. split; [reflexivity|]. split; [reflexivity|].
    split; [|by apply (Transaction_Validate_preimage d)].
    unfold Transaction_preimage. cbn. intros E.
    by do 3 apply app_inv_head in E.
Qed.

(** X4.  The hash of a transaction does not mark where the code address ends and
    the input begins: two transactions that differ only in where the bytes
    of code address and input are cut have the same sum, and [Validate]
    returns the same for both. *)
Theorem Transaction_Sum_unframed (d d' : core_pb.Transaction)
        (s s' : option PublicKey) :
  Transaction_Nonce d' = Transaction_Nonce d ->
  Transaction_Sender d' = Transaction_Sender d ->
  Transaction_Hash d' = Transaction_Hash d ->
  Transaction_Signature d' = Transaction_Signature d ->
  Transaction_CodeAddr d' ++ Transaction_Input d'
  = Transaction_CodeAddr d ++ Transaction_Input d ->
  Transaction_Sum sha3_256 (mkTx (Some d') s')
  = Transaction_Sum sha3_256 (mkTx (Some d) s)
  /\ Transaction_Validate sha3_256 ed25519_Verify (mkTx (Some d') s')
     = Transaction_Validate sha3_256 ed25519_Verify (mkTx (Some d) s).
Proof.
  intros Hn Hs Hh Hg Hcut.
  assert (Transaction_preimage d' = Transaction_preimage d) as Hpre.
  { unfold Transaction_preimage. by rewrite Hn, Hs, Hcut. }
  split.
  - rewrite !(Transaction_Sum_data sha3_256 (mkTx (Some _) _) _ eq_refl).
    fold (Transaction_preimage d') (Transaction_preimage d). by rewrite Hpre.
  - by rewrite !Transaction_Validate_data, Hpre, Hh, Hs, Hg.
Qed.

(** A block whose hash is the sum of another hash input, and that carries
    a quorum certificate, is refused: with the error of the certificate, if
    that has one, and else for its hash, unless the digest is the same on the
    two hash inputs. *)
Lemma Block_Validate_preimage (d d' : core_pb.Block) (p : option PublicKey)
      (q : QuorumCert) (vs : ValidatorStore) :
  sha3_256 (Block_preimage d) = Block_Hash d ->
  Block_Hash d' = Block_Hash d ->
  exists r,
    QuorumCert_Validate ed25519_Verify (Some q) vs = Ret r
    /\ (Block_Validate sha3_256 ed25519_Verify (mkBlk (Some d') p (Some q)) vs
        = Ret (Some (default ErrInvalidBlockHash r))
        \/ sha3_256 (Block_preimage d') = sha3_256 (Block_preimage d)).
Proof.
  intros Hh Hh'. destruct (QuorumCert_Validate_returns ed25519_Verify q vs) as [r Hr].
  exists r. split; [done|].
  rewrite Block_Validate_data, Hr, Hh'. cbn [mbind go_bind]. unfold bytes_Equal.
  destruct r as [e|]; [by left|]. cbn [default].
  destruct (decide (sha3_256 (Block_preimage d') = Block_Hash d)) as [E|E].
  - right. congruence.
  - left. by rewrite bool_decide_eq_false_2.
Qed.

(** X5.  Once the hash of a block that carries a quorum certificate is its
    sum, setting another height, parent hash, execution height or state root,
    or transactions with other bytes, changes the hash input, and [Validate]
    returns an error: the error of the quorum certificate, if that has one,
    and else [ErrInvalidBlockHash], unless the digest is the same on the new
    hash input and on the old one. *)
Theorem Block_set_after_hash (blk : Block) (d : core_pb.Block) (q : QuorumCert)
        (vs : ValidatorStore) :
  Block_data blk = Some d ->
  Block_quorumCert blk = Some q ->
  Block_Sum sha3_256 blk = Ret (Block_Hash d) ->
  Block_Height d < 2 ^ 64 -> Block_ExecHeight d < 2 ^ 64 ->
  let refused (r : go Block) :=
    exists blk' d' rq,
      r = Ret blk' /\ Block_data blk' = Some d'
      /\ Block_preimage d' <> Block_preimage d
      /\ QuorumCert_Validate ed25519_Verify (Some q) vs = Ret rq
      /\ (Block_Validate sha3_256 ed25519_Verify blk' vs
          = Ret (Some (default ErrInvalidBlockHash rq))
          \/ sha3_256 (Block_preimage d') = sha3_256 (Block_preimage d)) in
  (forall h, h < 2 ^ 64 -> h <> Block_Height d -> refused (Block_SetHeight blk h))
  /\ (forall x, x <> Block_ParentHash d -> refused (Block_SetParentHash blk x))
  /\ (forall h, h < 2 ^ 64 -> h <> Block_ExecHeight d ->
        refused (Block_SetExecHeight blk h))
  /\ (forall x, x <> Block_StateRoot d -> refused (Block_SetStateRoot blk x))
  /\ (forall txs, concat txs <> concat (Block_Transactions d) ->
        refused (Block_SetTransactions blk txs)).
Proof.
  intros Hd Hq Hsum Hh He refused. subst refused. cbv beta.
  assert (sha3_256 (Block_preimage d) = Block_Hash d) as Hpre.
  { rewrite (Block_Sum_data sha3_256 blk d Hd) in Hsum. by injection Hsum. }
  clear Hsum. destruct blk as [data p q0]. cbn [Block_data Block_quorumCert] in Hd, Hq.
  subst data q0.
  unfold Block_SetHeight, Block_SetParentHash, Block_SetExecHeight,
    Block_SetStateRoot, Block_SetTransactions, Block_update.
  cbn [Block_data Block_proposer Block_quorumCert deref mbind go_bind].
  assert (forall d', Block_Hash d' = Block_Hash d ->
            Block_preimage d' <> Block_preimage d ->
            exists blk' d0 rq,
              Ret (mkBlk (Some d') p (Some q)) = Ret blk'
              /\ Block_data blk' = Some d0
              /\ Block_preimage d0 <> Block_preimage d
              /\ QuorumCert_Validate ed25519_Verify (Some q) vs = Ret rq
              /\ (Block_Validate sha3_256 ed25519_Verify blk' vs
                  = Ret (Some (default ErrInvalidBlockHash rq))
                  \/ sha3_256 (Block_preimage d0) = sha3_256 (Block_preimage d)))
    as Hgen.
  { intros d' Hh' Hne.
    destruct (Block_Validate_preimage d d' p q vs Hpre Hh') as (rq & Hrq & Hv).
    by exists (mkBlk (Some d') p (Some q)), d', rq. }
  refine (conj _ (conj _ (conj _ (conj _ _)))).
  - intros h Hh' Hne. apply Hgen; [done|].
    unfold Block_preimage. cbn. intros E.
    apply app_inj_1 in E as [E _]; [|by rewrite !uint64ToBytes_length].
    by apply uint64ToBytes_inj in E.
  - intros x Hne. apply Hgen; [done|].
    unfold Block_preimage. cbn. intros E.
    apply app_inv_head in E. by apply app_inv_tail in E.
  - intros h Hh' Hne. apply Hgen; [done|].
    unfold Block_preimage. cbn. intros E.
    do 4 apply app_inv_head in E.
    apply app_inj_1 in E as [E _]; [|by rewrite !uint64ToBytes_length].
    by apply uint64ToBytes_inj in E.
  - intros x Hne. apply Hgen; [done|].
    unfold Block_preimage. cbn. intros E.
    do 5 apply app_inv_head in E. by apply app_inv_tail in E.
  - intros txs Hne. apply Hgen; [done|].
    unfold Block_preimage. cbn. intros E.
    by do 6 apply app_inv_head in E.
Qed.

(** X6.  The hash of a block does not mark where a transaction hash ends: with
    the same bytes cut into other transaction hashes, or moved between the
    state root and the transaction hashes, a block has the same sum, and
    [Validate] returns the same. *)
Theorem Block_Sum_unframed (d d' : core_pb.Block) (p p' : option PublicKey)
        (q : option QuorumCert) (vs : ValidatorStore) :
  Block_Height d' = Block_Height d ->
  Block_ParentHash d' = Block_ParentHash d ->
  Block_Proposer d' = Block_Proposer d ->
  Block_QuorumCert d' = Block_QuorumCert d ->
  Block_ExecHeight d' = Block_ExecHeight d ->
  Block_Hash d' = Block_Hash d ->
  Block_Signature d' = Block_Signature d ->
  Block_StateRoot d' ++ concat (Block_Transactions d')
  = Block_StateRoot d ++ concat (Block_Transactions d) ->
  Block_Sum sha3_256 (mkBlk (Some d') p' q) = Block_Sum sha3_256 (mkBlk (Some d) p q)
  /\ Block_Validate sha3_256 ed25519_Verify (mkBlk (Some d') p' q) vs
     = Block_Validate sha3_256 ed25519_Verify (mkBlk (Some d) p q) vs.
Proof.
  intros Hh Hp Hpr Hq He Hhash Hsig Hcut.
  assert (Block_preimage d' = Block_preimage d) as Hpre.
  { unfold Block_preimage. by rewrite Hh, Hp, Hpr, Hq, He, Hcut. }
  split.
  - rewrite !(Block_Sum_data sha3_256 (mkBlk (Some _) _ _) _ eq_refl).
    fold (Block_preimage d') (Block_preimage d). by rewrite Hpre.
  - by rewrite !Block_Validate_data, Hpre, Hhash, Hpr, Hsig.
Qed.

End Signing.

(** *** The toy scheme: keys *)

(** A toy private key is a byte [b]; its public key is [b] 32 times, and it
    signs a message with the public key followed by the message. *)
Definition toy_PublicKey (b : byte) : PublicKey := mkPublicKey (toy_key b).

Definition toy_Sign (b : byte) (msg : bytes) : Signature :=
  mkSig (toy_sign (toy_key b) msg) (toy_PublicKey b).

Lemma toy_signs_correctly (b : byte) :
  signs_correctly toy_verify byte toy_PublicKey toy_Sign b.
Proof.
  split; [reflexivity|]. intros msg. unfold toy_verify. cbn.
  by apply bool_decide_eq_true_2.
Qed.

(** A transfer: nonce 7, code address [c0 de], input [01]. *)
Definition toy_tx : Transaction :=
  mkTx (Some (mkTransaction 7 [] [xc0; xde] [x01] [] [])) None.

Definition toy_block : Block :=
  mkBlk (Some (mkBlock 1 [] [xaa] [] [] (Some cert1) 0 [xbb] [[x01]; [x02]]))
        None (Some (mkQC (Some cert1))).

Lemma Transaction_Sign_Validate_witness :
  exists tx',
    Transaction_Sign toy_digest byte toy_PublicKey toy_Sign toy_tx x01 = Ret tx'
    /\ Transaction_Validate toy_digest toy_verify tx' = Ret None.
Proof.
  destruct (Transaction_Sign_Validate toy_digest toy_verify byte toy_PublicKey
              toy_Sign toy_tx x01 _ eq_refl (toy_signs_correctly x01))
    as (tx' & d' & Hs & _ & _ & _ & _ & _ & _ & _ & Hv).
  exists tx'. by split.
Defined.

Lemma Block_Sign_Validate_witness :
  exists blk',
    Block_Sign toy_digest byte toy_PublicKey toy_Sign toy_block x01 = Ret blk'
    /\ Block_Validate toy_digest toy_verify blk' validators1 = Ret None.
Proof.
  destruct (Block_Sign_Validate toy_digest toy_verify byte toy_PublicKey
              toy_Sign toy_block x01 _ _ validators1 eq_refl eq_refl
              (toy_signs_correctly x01))
    as (blk' & d' & r & Hs & _ & _ & _ & _ & _ & Hr & Hv).
  exists blk'. split; [done|]. rewrite Hv.
  assert (r = None) as -> by (vm_compute in Hr; congruence). done.
Defined.

(** The transfer with its sum as hash, signed by the key [x01]. *)
Definition toy_tx_signed : Transaction :=
  let sender := toy_key x01 in
  let hash := uint64ToBytes 7 ++ sender ++ [xc0; xde] ++ [x01] in
  mkTx (Some (mkTransaction 7 sender [xc0; xde] [x01] hash (sender ++ hash)))
       (Some (toy_PublicKey x01)).

(** The same bytes with the code address cut after its first byte. *)
Definition toy_tx_recut : Transaction :=
  let sender := toy_key x01 in
  let hash := uint64ToBytes 7 ++ sender ++ [xc0; xde] ++ [x01] in
  mkTx (Some (mkTransaction 7 sender [xc0] [xde; x01] hash (sender ++ hash)))
       (Some (toy_PublicKey x01)).

Lemma Transaction_set_after_hash_witness :
  exists tx',
    Transaction_SetNonce toy_tx_signed 8 = Ret tx'
    /\ Transaction_Validate toy_digest toy_verify tx' = Ret (Some ErrInvalidTxHash).
Proof.
  destruct (Transaction_set_after_hash toy_digest toy_verify toy_tx_signed _
              eq_refl eq_refl ltac:(cbn; lia)) as (Hn & _ & _).
  destruct (Hn 8%Z ltac:(lia) ltac:(done)) as (tx' & d' & Hs & _ & Hne & [Hv|Hc]).
  - by exists tx'.
  - by destruct (Hne Hc).
Defined.

Lemma Transaction_Sum_unframed_witness :
  Transaction_Sum toy_digest toy_tx_recut = Transaction_Sum toy_digest toy_tx_signed
  /\ Transaction_Validate toy_digest toy_verify toy_tx_recut
     = Transaction_Validate toy_digest toy_verify toy_tx_signed
  /\ Transaction_Validate toy_digest toy_verify toy_tx_signed = Ret None.
Proof.
  destruct (Transaction_Sum_unframed toy_digest toy_verify
              (mkTransaction 7 (toy_key x01) [xc0; xde] [x01]
                 (uint64ToBytes 7 ++ toy_key x01 ++ [xc0; xde] ++ [x01])
                 (toy_key x01 ++ uint64ToBytes 7 ++ toy_key x01 ++ [xc0; xde] ++ [x01]))
              (mkTransaction 7 (toy_key x01) [xc0] [xde; x01]
                 (uint64ToBytes 7 ++ toy_key x01 ++ [xc0; xde] ++ [x01])
                 (toy_key x01 ++ uint64ToBytes 7 ++ toy_key x01 ++ [xc0; xde] ++ [x01]))
              (Some (toy_PublicKey x01)) (Some (toy_PublicKey x01))
              eq_refl eq_refl eq_refl eq_refl eq_refl) as [Hs Hv].
  split; [exact Hs|]. split; [exact Hv|]. by vm_compute.
Defined.

(** A block with its sum as hash, signed by the validator [x01]; then the
    same block with its two transaction hashes joined into one. *)
Definition toy_block_data (txs : list bytes) : core_pb.Block :=
  let proposer := toy_key x01 in
  let hash := uint64ToBytes 1 ++ [xaa] ++ proposer ++ [x01] ++ uint64ToBytes 0
              ++ [xbb] ++ [x01; x02] in
  mkBlock 1 hash [xaa] proposer (proposer ++ hash) (Some cert1) 0 [xbb] txs.

Definition toy_block_signed : Block :=
  mkBlk (Some (toy_block_data [[x01]; [x02]])) (Some (toy_PublicKey x01))
        (Some (mkQC (Some cert1))).

Lemma Block_set_after_hash_witness :
  exists blk',
    Block_SetHeight toy_block_signed 2 = Ret blk'
    /\ Block_Validate toy_digest toy_verify blk' validators1
       = Ret (Some ErrInvalidBlockHash).
Proof.
  destruct (Block_set_after_hash toy_digest toy_verify toy_block_signed _ _
              validators1 eq_refl eq_refl eq_refl ltac:(by vm_compute)
              ltac:(by vm_compute))
    as (Hh & _).
  destruct (Hh 2 ltac:(by vm_compute) ltac:(done))
    as (blk' & d' & rq & Hs & _ & Hne & Hrq & [Hv|Hc]).
  - exists blk'. split; [done|]. rewrite Hv.
    assert (rq = None) as -> by (vm_compute in Hrq; congruence). done.
  - by destruct (Hne Hc).
Defined.

Lemma Block_Sum_unframed_witness :
  let joined := mkBlk (Some (toy_block_data [[x01; x02]]))
                      (Some (toy_PublicKey x01)) (Some (mkQC (Some cert1))) in
  Block_Sum toy_digest joined = Block_Sum toy_digest toy_block_signed
  /\ Block_Validate toy_digest toy_verify joined validators1
     = Block_Validate toy_digest toy_verify toy_block_signed validators1
  /\ Block_Validate toy_digest toy_verify toy_block_signed validators1 = Ret None.
Proof.
  destruct (Block_Sum_unframed toy_digest toy_verify
              (toy_block_data [[x01]; [x02]]) (toy_block_data [[x01; x02]])
              (Some (toy_PublicKey x01)) (Some (toy_PublicKey x01))
              (Some (mkQC (Some cert1))) validators1
              eq_refl eq_refl eq_refl eq_refl eq_refl eq_refl eq_refl eq_refl)
    as [Hs Hv].
  split; [exact Hs|]. split; [exact Hv|]. by vm_compute.
Defined.

(* ================================================================== *)
(** ** Transaction lists and nil transactions *)

Lemma TxList_Marshal_Some (ts : list Transaction) :
  TxList_Marshal (map Some ts)
  = Ret (Some (proto.Marshal_TxList
                 (Some (mkTxList (map Transaction_data ts))))).
Proof.
  unfold TxList_Marshal.
  assert (foldr (fun tx acc => t ← deref tx; l ← acc; Ret (Transaction_data t :: l))
            (Ret []) (map Some ts) = Ret (map Transaction_data ts)) as ->; [|done].
  induction ts as [|t ts IH]; [done|]. cbn [map foldr deref mbind go_bind].
  change (list_fmap ?A ?B ?f ?l) with (map f l) in *. by rewrite IH.
Qed.

Lemma go_list_cases {A} (l : list (option A)) :
  (None ∈ l) \/ (exists l', l = map Some l').
Proof.
  induction l as [|[a|] l IH].
  - right. by exists [].
  - destruct IH as [IH|[l' ->]].
    + left. by right.
    + right. by exists (a :: l').
  - left. by left.
Qed.

(** X7.  [TxList.Marshal] panics exactly on a list that holds a nil transaction,
    and returns bytes, never an error, on every other list.  A list that
    [TxList.Unmarshal] has read holds no nil transaction: marshalling it does
    not panic; and on bytes it cannot read, [Unmarshal] leaves the list as it
    was. *)
Theorem TxList_Marshal_nil_transaction :
  (forall txs : TxList, TxList_Marshal txs = Panic <-> None ∈ txs)
  /\ (forall txs : TxList, None ∉ txs -> exists b, TxList_Marshal txs = Ret (Some b))
  /\ (forall (txs0 : TxList) (b : bytes),
        exists txs ok,
          TxList_Unmarshal txs0 b = Ret (txs, ok)
          /\ (ok = false -> txs = txs0)
          /\ (ok = true ->
              (None ∉ txs) /\ exists b', TxList_Marshal txs = Ret (Some b'))).
Proof.
  assert (forall txs : TxList, None ∈ txs -> TxList_Marshal txs = Panic) as Hpanic.
  { intros txs. unfold TxList_Marshal.
    induction txs as [|[t|] txs IH]; intros Hin.
    - by apply elem_of_nil in Hin.
    - apply elem_of_cons in Hin as [|Hin]; [done|].
      cbn [foldr deref mbind go_bind]. specialize (IH Hin).
      by destruct (foldr _ _ txs).
    - done. }
  assert (forall ts : list Transaction, None ∉ map Some ts) as Hnone.
  { intros ts Hin. apply list_elem_of_In, in_map_iff in Hin as (t & [=] & _). }
  refine (conj _ (conj _ _)).
  - intros txs. split; [|apply Hpanic].
    destruct (go_list_cases txs) as [|[ts ->]]; [done|].
    by rewrite TxList_Marshal_Some.
  - intros txs Hn. destruct (go_list_cases txs) as [|[ts ->]]; [done|].
    rewrite TxList_Marshal_Some. by eexists.
  - intros txs0 b. unfold TxList_Unmarshal, proto.Unmarshal_TxList.
    destruct (protowire.decode b) as [fs|]; cbn [mbind option_bind];
      [|exists txs0, false; by repeat split].
    destruct (mapM _ _) as [txs|]; cbn [mbind option_bind];
      [|exists txs0, false; by repeat split].
    cbn [TxList_List].
    exists (map Some (map Transaction_setData txs)), true.
    split; [|split; [done|]].
    + assert (foldr (fun txData acc => d ← deref txData; l ← acc;
                                        Ret (Some (Transaction_setData d) :: l))
                (Ret []) (map Some txs)
              = Ret (map Some (map Transaction_setData txs))) as Hfold.
      { induction txs as [|t txs IH]; [done|].
        cbn [map foldr deref mbind go_bind]. by rewrite IH. }
      change (list_fmap ?A ?B ?f ?l) with (map f l) in *. by rewrite Hfold.
    + intros _. split; [apply Hnone|]. rewrite TxList_Marshal_Some. by eexists.
Qed.
